(** * Vite shard converter: [loadParallelFileShards]

    A shallow embedding of [parallel-converters/parallel-shards.cpp] and the
    properties of its stages: shard ingestion, global metadata, vertex
    partitioning, edge redistribution, local sorting, CSR offsets and the
    positioned writes of the binary file.

    Conventions.
    - [GraphElem] is the signed 64-bit integer of the code, carried as [Z].
      The arithmetic on vertex ids (the decrement, the shard offsets, the
      vertex count, the partition boundaries) and the unsigned byte
      counters of the write loop have their wrap-around written out.
    - [GraphWeight] is the double of the code: a weight read from text is
      the double nearest to the decimal written, kept by its sign and its
      exact value.
    - A vector cannot be longer than [max_size], and MPI takes its counts
      as [int]: a run that asks for more has no outcome.  Memory is taken
      to suffice and the output file to open.
    - Reading a variable that was never assigned and indexing a vector out
      of range are undefined in C++.  The first is modelled by an explicit
      supply of the values such variables hold, the second by [None].
    - The processes of the MPI job are modelled together: a per-process
      value is a list indexed by rank and a collective is a function of the
      whole list. *)

From Stdlib Require Import ZArith List String Ascii Bool Lia.
From stdpp Require Import prelude strings sorting.

Local Open Scope Z_scope.

(** ** Data model *)

Abbreviation GraphElem := Z (only parsing).

(** Modelled from the spec: [GraphWeight], declared in a header that is not
    part of the sources, is the 8-byte floating point number of the binary
    layout, an IEEE binary64 double.  A finite double is given by its sign
    and its exact value [mant * 10^expo]: [mant] is not negative and, unless
    it is zero, not a multiple of ten; zero has [expo = 0].  Every finite
    double has exactly one such form. *)
Record GraphWeight := mkWeight { negative : bool; mant : Z; expo : Z }.

Definition fabs (x : GraphWeight) : GraphWeight :=
  {| negative := false; mant := mant x; expo := expo x |}.

Definition weight_zero : GraphWeight := {| negative := false; mant := 0; expo := 0 |}.

(** [num / den] rounded to the nearest integer, a tie to the even one. *)
Definition div_nearest_even (num den : Z) : Z :=
  let q := num / den in
  let r := num mod den in
  if 2 * r <? den then q
  else if den <? 2 * r then q + 1
  else if Z.even q then q else q + 1.

(** [floor (log2 (num / den))] for positive [num] and [den]. *)
Definition log2_ratio (num den : Z) : Z :=
  let k := Z.log2 num - Z.log2 den in
  if (if 0 <=? k then num <? den * 2 ^ k else num * 2 ^ (- k) <? den) then k - 1 else k.

(** The binary64 number nearest to [m * 10^e] for [m > 0]: an integer [r]
    of at most 53 bits and the exponent [p] of its last place, the value
    being [r * 2^p]; [p] stops at [-1074], the last place of the subnormal
    numbers. *)
Definition nearest_binary64 (m e : Z) : Z * Z :=
  let num := if 0 <=? e then m * 10 ^ e else m in
  let den := if 0 <=? e then 1 else 10 ^ (- e) in
  let p := Z.max (log2_ratio num den - 52) (-1074) in
  let r := if 0 <=? p then div_nearest_even num (den * 2 ^ p)
           else div_nearest_even (num * 2 ^ (- p)) den in
  (r, p).

(** Trailing zeros of a mantissa moved into the power of ten. *)
Fixpoint strip_zeros (fuel : nat) (m e : Z) : Z * Z :=
  match fuel with
  | O => (m, e)
  | S fuel' => if m mod 10 =? 0 then strip_zeros fuel' (m / 10) (e + 1) else (m, e)
  end.

(** [r * 2^p] written as a mantissa and a power of ten. *)
Definition decimal_of_binary (r p : Z) : Z * Z :=
  if r =? 0 then (0, 0)
  else
    let m := if 0 <=? p then r * 2 ^ p else r * 5 ^ (- p) in
    strip_zeros (Z.to_nat (Z.log2 m)) m (Z.min p 0).

(** The largest double, [(2^53 - 1) * 2^971]. *)
Definition DBL_MAX_mant : Z := (2 ^ 53 - 1) * 2 ^ 971.

(** The conversion of [operator>>(double&)] for the digits [m] and the
    power of ten [e]: the nearest double, or, for a text beyond the range
    of the doubles, the largest double and the flag that sets [failbit]. *)
Definition strtod (neg : bool) (m e : Z) : GraphWeight * bool :=
  if m =? 0 then ({| negative := neg; mant := 0; expo := 0 |}, false)
  else
    let '(r, p) := nearest_binary64 m e in
    if (0 <=? p) && (2 ^ 1024 <=? r * 2 ^ p)
    then ({| negative := neg; mant := DBL_MAX_mant; expo := 0 |}, true)
    else let '(dm, de) := decimal_of_binary r p in
         ({| negative := neg; mant := dm; expo := de |}, false).

Record GraphElemTuple := mkTuple { i_ : GraphElem; j_ : GraphElem; w_ : GraphWeight }.

Record Edge := mkEdge { tail_ : GraphElem; weight_ : GraphWeight }.

(** The enumerators the converter tests are [ORG_WEIGHT] and [ABS_WEIGHT];
    every other enumerator of [Weight_t] takes the same path, written
    [OTHER_WEIGHT] here. *)
Inductive Weight_t := ORG_WEIGHT | ABS_WEIGHT | OTHER_WEIGHT.

Definition GraphElem_max : Z := 2 ^ 63 - 1.
Definition GraphElem_min : Z := - 2 ^ 63.
Definition INT_MAX : Z := 2147483647.

(** Two's complement reduction to the signed 64-bit range and reduction to
    the unsigned 64-bit range. *)
Definition wrap_s64 (z : Z) : Z := (z + 2 ^ 63) mod 2 ^ 64 - 2 ^ 63.
Definition wrap_u64 (z : Z) : Z := z mod 2 ^ 64.

(** Modelled from the spec: the integer and record widths of the binary
    layout ([GraphElem], [GraphWeight] and [Edge] are declared in headers
    that are not part of the sources): 8-byte integers, 8-byte weights, a
    record of a destination and a weight. *)
Definition sizeof_GraphElem : Z := 8.
Definition sizeof_GraphWeight : Z := 8.
Definition sizeof_Edge : Z := sizeof_GraphElem + sizeof_GraphWeight.

(** ** Formatted extraction from a line ([std::istringstream]) *)

Module IStream.

Record t := mk { buf : string; failbit : bool; eofbit : bool }.

Definition of_string (s : string) : t := {| buf := s; failbit := false; eofbit := false |}.

Definition good (s : t) : bool := negb (failbit s) && negb (eofbit s).

Definition isspace (c : ascii) : bool :=
  let n := nat_of_ascii c in
  (Nat.eqb n 32 || (Nat.leb 9 n && Nat.leb n 13))%bool.

Definition isdigit (c : ascii) : bool :=
  let n := nat_of_ascii c in (Nat.leb 48 n && Nat.leb n 57)%bool.

Definition digit_val (c : ascii) : Z := Z.of_nat (nat_of_ascii c) - 48.

Fixpoint skipws (s : string) : string :=
  match s with
  | String c s' => if isspace c then skipws s' else s
  | EmptyString => EmptyString
  end.

(** The sentry of a formatted input function: a stream that is not good
    gets [failbit]; otherwise white space is skipped, and reaching the end
    while skipping sets [eofbit] and [failbit]. *)
Definition sentry (s : t) : bool * t :=
  if good s then
    match skipws (buf s) with
    | EmptyString => (false, {| buf := EmptyString; failbit := true; eofbit := true |})
    | b => (true, {| buf := b; failbit := false; eofbit := false |})
    end
  else (false, {| buf := buf s; failbit := true; eofbit := eofbit s |}).

Definition scan_sign (s : string) : bool * string :=
  match s with
  | String "-" s' => (true, s')
  | String "+" s' => (false, s')
  | _ => (false, s)
  end.

(** Digits accumulated so far, how many were read, and what is left. *)
Fixpoint scan_digits (s : string) (acc : Z) (n : nat) : Z * nat * string :=
  match s with
  | String c s' =>
      if isdigit c then scan_digits s' (acc * 10 + digit_val c) (S n) else (acc, n, s)
  | EmptyString => (acc, n, s)
  end.

Definition at_end (s : string) : bool :=
  match s with EmptyString => true | _ => false end.

(** [operator>>(GraphElem&)].  A failed sentry leaves the variable as it
    was; a failed conversion stores zero; a value out of range stores the
    nearest bound; both set [failbit].  Running into the end of the line
    sets [eofbit]. *)
Definition get_GraphElem (s : t) (old : GraphElem) : GraphElem * t :=
  let '(ok, s1) := sentry s in
  if ok then
    let '(neg, b1) := scan_sign (buf s1) in
    let '(m, n, rest) := scan_digits b1 0 0 in
    let v := if neg then - m else m in
    match n with
    | O => (0, {| buf := rest; failbit := true; eofbit := at_end rest |})
    | _ =>
        if GraphElem_max <? v then
          (GraphElem_max, {| buf := rest; failbit := true; eofbit := at_end rest |})
        else if v <? GraphElem_min then
          (GraphElem_min, {| buf := rest; failbit := true; eofbit := at_end rest |})
        else (v, {| buf := rest; failbit := false; eofbit := at_end rest |})
    end
  else (old, s1).

(** [operator>>(char&)]: the next character that is not white space. *)
Definition get_char (s : t) (old : ascii) : ascii * t :=
  let '(ok, s1) := sentry s in
  if ok then
    match buf s1 with
    | String c rest => (c, {| buf := rest; failbit := false; eofbit := false |})
    | EmptyString => (old, s1)
    end
  else (old, s1).

Definition is_exp_char (c : ascii) : bool :=
  (Nat.eqb (nat_of_ascii c) 101 || Nat.eqb (nat_of_ascii c) 69)%bool.

(** The value stored for the digits read and the stream left behind: a
    text beyond the range of the doubles sets [failbit]. *)
Definition convert_weight (neg : bool) (m e : Z) (rest : string) (eof : bool)
    : GraphWeight * t :=
  let '(x, out_of_range) := strtod neg m e in
  (x, {| buf := rest; failbit := out_of_range; eofbit := eof |}).

(** [operator>>(GraphWeight&)]: sign, digits, an optional fraction and an
    optional exponent; the same treatment of a failed sentry and of a failed
    conversion as for integers. *)
Definition get_GraphWeight (s : t) (old : GraphWeight) : GraphWeight * t :=
  let '(ok, s1) := sentry s in
  if ok then
    let '(neg, b1) := scan_sign (buf s1) in
    let '(ip, n1, r1) := scan_digits b1 0 0 in
    let '(m, n2, r2) :=
      match r1 with
      | String "." r => scan_digits r ip 0
      | _ => (ip, O, r1)
      end in
    match (n1 + n2)%nat with
    | O => (weight_zero, {| buf := r2; failbit := true; eofbit := at_end r2 |})
    | _ =>
        match r2 with
        | String c r =>
            if is_exp_char c then
              let '(eneg, b3) := scan_sign r in
              let '(e, n3, r3) := scan_digits b3 0 0 in
              match n3 with
              | O => (weight_zero, {| buf := r3; failbit := true; eofbit := at_end r3 |})
              | _ =>
                  convert_weight neg m ((if eneg then - e else e) - Z.of_nat n2)
                    r3 (at_end r3)
              end
            else convert_weight neg m (- Z.of_nat n2) r2 false
        | EmptyString => convert_weight neg m (- Z.of_nat n2) r2 true
        end
    end
  else (old, s1).

End IStream.

(** ** EdgeIngestor: one line *)

(** The variables declared in the body of the reading loop. *)
Record locals := mkLocals {
  v0 : GraphElem; v1 : GraphElem; info : GraphElem; w : GraphWeight; ch : ascii }.

Definition set_v0 (l : locals) (x : GraphElem) : locals :=
  {| v0 := x; v1 := v1 l; info := info l; w := w l; ch := ch l |}.
Definition set_v1 (l : locals) (x : GraphElem) : locals :=
  {| v0 := v0 l; v1 := x; info := info l; w := w l; ch := ch l |}.
Definition set_info (l : locals) (x : GraphElem) : locals :=
  {| v0 := v0 l; v1 := v1 l; info := x; w := w l; ch := ch l |}.
Definition set_w (l : locals) (x : GraphWeight) : locals :=
  {| v0 := v0 l; v1 := v1 l; info := info l; w := x; ch := ch l |}.
Definition set_ch (l : locals) (x : ascii) : locals :=
  {| v0 := v0 l; v1 := v1 l; info := info l; w := w l; ch := x |}.

(** An extraction statement threads the variables and the stream. *)
Definition reader := (locals * IStream.t)%type.

Definition into_v0 (r : reader) : reader :=
  let '(x, s) := IStream.get_GraphElem r.2 (v0 r.1) in (set_v0 r.1 x, s).
Definition into_v1 (r : reader) : reader :=
  let '(x, s) := IStream.get_GraphElem r.2 (v1 r.1) in (set_v1 r.1 x, s).
Definition into_info (r : reader) : reader :=
  let '(x, s) := IStream.get_GraphElem r.2 (info r.1) in (set_info r.1 x, s).
Definition into_w (r : reader) : reader :=
  let '(x, s) := IStream.get_GraphWeight r.2 (w r.1) in (set_w r.1 x, s).
Definition into_ch (r : reader) : reader :=
  let '(x, s) := IStream.get_char r.2 (ch r.1) in (set_ch r.1 x, s).

Notation "r '>>' f" := (f r) (at level 50, left associativity, only parsing).

(** [iss >> v0 >> ch >> v1 >> ch >> info >> ch >> w] *)
Definition extract4 (iss : reader) : reader :=
  iss >> into_v0 >> into_ch >> into_v1 >> into_ch >> into_info >> into_ch >> into_w.

(** [iss >> v0 >> ch >> v1 >> ch >> info] *)
Definition extract3 (iss : reader) : reader :=
  iss >> into_v0 >> into_ch >> into_v1 >> into_ch >> into_info.

(** The three statements that read from the current line, as written: an
    [if] for [ORG_WEIGHT], then an [if ... else] for [ABS_WEIGHT]. *)
Definition read_fields (wtype : Weight_t) (iss : reader) : reader :=
  let iss1 :=
    match wtype with
    | ORG_WEIGHT => extract4 iss
    | _ => iss
    end in
  match wtype with
  | ABS_WEIGHT =>
      let iss2 := extract4 iss1 in
      (set_w iss2.1 (fabs (w iss2.1)), iss2.2)
  | _ => extract3 iss1
  end.

(** The variables after the reading statements; [l0] holds what the
    variables, declared without an initializer, contain beforehand. *)
Definition parse_line (wtype : Weight_t) (line : string) (l0 : locals) : locals :=
  (read_fields wtype (l0, IStream.of_string line)).1.

(** The tuple appended for a line: [v0--; v1--] under 1-based indexing,
    then [v0 += v_lo; v1 += v_hi], in 64-bit arithmetic. *)
Definition line_tuple (indexOneBased : bool) (v_lo v_hi : GraphElem)
    (wtype : Weight_t) (line : string) (l0 : locals) : GraphElemTuple :=
  let l := parse_line wtype line l0 in
  let a := if indexOneBased then wrap_s64 (v0 l - 1) else v0 l in
  let b := if indexOneBased then wrap_s64 (v1 l - 1) else v1 l in
  {| i_ := wrap_s64 (a + v_lo); j_ := wrap_s64 (b + v_hi); w_ := w l |}.

(** ** EdgeIngestor: the reading loop over a shard *)

(** An input file stream: what is still to be read and the [eofbit]. *)
Record ifstream := mkIfstream { pending : string; eof : bool }.

Definition is_newline (c : ascii) : bool := Nat.eqb (nat_of_ascii c) 10.

(** Characters up to the next newline (extracted and dropped), or up to the
    end of the file, which sets [eofbit]. *)
Fixpoint getline_scan (s : string) : string * string * bool :=
  match s with
  | EmptyString => (EmptyString, EmptyString, true)
  | String c s' =>
      if is_newline c then (EmptyString, s', false)
      else let '(l, r, e) := getline_scan s' in (String c l, r, e)
  end.

(** [std::getline(ifs, line)]. *)
Definition getline (ifs : ifstream) (line : string) : string * ifstream :=
  if eof ifs then (line, ifs)
  else let '(l, r, e) := getline_scan (pending ifs) in (l, {| pending := r; eof := e |}).

Section Ingest.

Variable indexOneBased : bool.
Variable wtype : Weight_t.
Variables v_lo v_hi : GraphElem.
(** What the variables declared in the loop body hold when iteration [k]
    starts. *)
Variable uninit : nat -> locals.

(** [while (!ifs.eof()) { getline; read; push_back; track the maximum }] *)
Fixpoint read_shard (fuel k : nat) (ifs : ifstream) (line : string)
    (edgeList : list GraphElemTuple) (numVertices : GraphElem)
    : option (list GraphElemTuple * GraphElem) :=
  if eof ifs then Some (edgeList, numVertices)
  else
    match fuel with
    | O => None
    | S fuel' =>
        let '(line', ifs') := getline ifs line in
        let e := line_tuple indexOneBased v_lo v_hi wtype line' (uninit k) in
        let nv := if numVertices <? i_ e then i_ e else numVertices in
        let nv := if nv <? j_ e then j_ e else nv in
        read_shard fuel' (S k) ifs' line' (edgeList ++ [e]) nv
    end.

End Ingest.

(** ** ShardAssigner *)

(** A shard file [<rowTile>__<colTile>.csv] and its text. *)
Record shard := mkShard { rowTile : Z; colTile : Z; contents : string }.

(** The input directory: the text of the shard with the given tiles, if the
    file can be opened. *)
Definition directory := Z -> Z -> option string.

(** The existing shards of the tile range, in the row-major order of the
    two nested loops; the shard at position [p] is the one of rank [p]. *)
Definition fileProc (dir : directory) (fileStartIndex fileEndIndex : Z) : list shard :=
  let range := seqZ fileStartIndex (fileEndIndex + 1 - fileStartIndex) in
  flat_map (fun ci =>
    flat_map (fun cj =>
      match dir ci cj with
      | Some text => [mkShard ci cj text]
      | None => []
      end) range) range.

(** What a process holds after Part 1. *)
Record local_data := mkLocal { edgeList : list GraphElemTuple; numVertices : GraphElem }.

Definition no_data : local_data := {| edgeList := []; numVertices := 0 |}.

(** Part 1 on one process: a process without a shard reads nothing. *)
Definition read_local (indexOneBased : bool) (wtype : Weight_t) (shardCount : GraphElem)
    (uninit : nat -> locals) (mine : option shard) : option local_data :=
  match mine with
  | None => Some no_data
  | Some sh =>
      let v_lo := wrap_s64 ((rowTile sh - 1) * shardCount) in
      let v_hi := wrap_s64 ((colTile sh - 1) * shardCount) in
      r ← read_shard indexOneBased wtype v_lo v_hi uninit
            (S (S (String.length (contents sh)))) 0
            {| pending := contents sh; eof := false |} EmptyString [] 0;
      Some {| edgeList := r.1; numVertices := r.2 |}
  end.

(** Part 1 on all processes: shard discovery, then every rank reads the
    shard at its position, if there is one. *)
Definition read_all (indexOneBased : bool) (nprocs : nat) (dir : directory)
    (fileStartIndex fileEndIndex : Z) (wtype : Weight_t) (shardCount : GraphElem)
    (uninit : nat -> nat -> locals) : option (list local_data) :=
  let files := fileProc dir fileStartIndex fileEndIndex in
  mapM (fun rank => read_local indexOneBased wtype shardCount (uninit rank)
                      (files !! rank)) (seq 0 nprocs).

(** ** GlobalMetadataReducer *)

Definition allreduce_sum (xs : list GraphElem) : GraphElem := foldr Z.add 0 xs.

Definition allreduce_max (xs : list GraphElem) : GraphElem :=
  match xs with
  | [] => 0
  | x :: rest => foldl Z.max x rest
  end.

Definition local_numEdges (d : local_data) : GraphElem := Z.of_nat (length (edgeList d)) * 2.

Definition global_numEdges (ds : list local_data) : GraphElem :=
  allreduce_sum (local_numEdges <$> ds).

(** The maximum of the local maxima, and [globalNumVertices += 1] in
    64-bit arithmetic when the ids are 0-based. *)
Definition global_numVertices (indexOneBased : bool) (ds : list local_data) : GraphElem :=
  let m := allreduce_max (numVertices <$> ds) in
  if negb indexOneBased then wrap_s64 (m + 1) else m.

(** ** VertexPartitioner *)

(** [parts[0] = 0; parts[i] = (globalNumVertices * i) / nprocs] for
    [i = 1 .. nprocs], the product in 64-bit arithmetic and the division
    truncating. *)
Definition make_parts (globalNumVertices : GraphElem) (nprocs : Z) : list GraphElem :=
  0 :: ((fun i => Z.quot (wrap_s64 (globalNumVertices * i)) nprocs) <$> seqZ 1 nprocs).

(** [std::upper_bound]: the halving search over [first, first + len). *)
Fixpoint upper_bound_from (fuel : nat) (l : list GraphElem) (val : GraphElem)
    (first len : nat) : nat :=
  match fuel with
  | O => first
  | S fuel' =>
      match len with
      | O => first
      | _ =>
          let half := Nat.div2 len in
          let middle := (first + half)%nat in
          match l !! middle with
          | Some x =>
              if val <? x then upper_bound_from fuel' l val first half
              else upper_bound_from fuel' l val (S middle) (len - half - 1)%nat
          | None => first
          end
      end
  end.

Definition upper_bound (l : list GraphElem) (val : GraphElem) : nat :=
  upper_bound_from (length l) l val 0 (length l).

(** [owner = upper_bound(parts.begin(), parts.end(), vertex) - parts.begin() - 1] *)
Definition owner_of (parts : list GraphElem) (vertex : GraphElem) : Z :=
  Z.of_nat (upper_bound parts vertex) - 1.

(** ** EdgeRedistributor *)

(** [v[idx]++], undefined outside the vector. *)
Definition vec_incr (v : list GraphElem) (idx : Z) : option (list GraphElem) :=
  if (0 <=? idx) && (idx <? Z.of_nat (length v))
  then Some (alter Z.succ (Z.to_nat idx) v) else None.

(** [v[idx].emplace_back(x)], undefined outside the vector. *)
Definition vec_push {A} (v : list (list A)) (idx : Z) (x : A) : option (list (list A)) :=
  if (0 <=? idx) && (idx <? Z.of_nat (length v))
  then Some (alter (fun b => b ++ [x]) (Z.to_nat idx) v) else None.

Definition reversed (e : GraphElemTuple) : GraphElemTuple :=
  {| i_ := j_ e; j_ := i_ e; w_ := w_ e |}.

(** One iteration of the spreading loop: both end points of a record. *)
Definition spread_step (parts : list GraphElem)
    (st : list GraphElem * list (list GraphElemTuple)) (e : GraphElemTuple)
    : option (list GraphElem * list (list GraphElemTuple)) :=
  let vertex := i_ e in
  let owner := owner_of parts vertex in
  edgeCount ← vec_incr st.1 (vertex + 1);
  outEdges ← vec_push st.2 owner e;
  let vertex := j_ e in
  let owner := owner_of parts vertex in
  edgeCount ← vec_incr edgeCount (vertex + 1);
  outEdges ← vec_push outEdges owner (reversed e);
  Some (edgeCount, outEdges).

Fixpoint spread (parts : list GraphElem)
    (st : list GraphElem * list (list GraphElemTuple)) (es : list GraphElemTuple)
    : option (list GraphElem * list (list GraphElemTuple)) :=
  match es with
  | [] => Some st
  | e :: es' => st' ← spread_step parts st e; spread parts st' es'
  end.

(** [std::vector<GraphElem>::max_size()]: the largest number of 8-byte
    elements a vector can be asked to hold, [PTRDIFF_MAX / 8] on a 64-bit
    platform. *)
Definition vector_max_size : Z := 2 ^ 60 - 1.

(** [std::vector<GraphElem> v(n)] for a signed [n], zero-filled: a size
    that is negative (a huge unsigned number) or beyond [max_size] throws
    [std::length_error]. *)
Definition new_vector (n : GraphElem) : option (list GraphElem) :=
  if (0 <=? n) && (n <=? vector_max_size) then Some (replicate (Z.to_nat n) 0) else None.

(** The spreading loop of one process, from [edgeCount(globalNumVertices+1)]
    and [outEdges(nprocs)]. *)
Definition spread_local (globalNumVertices : GraphElem) (nprocs : nat)
    (parts : list GraphElem) (d : local_data)
    : option (list GraphElem * list (list GraphElemTuple)) :=
  edgeCount ← new_vector (wrap_s64 (globalNumVertices + 1));
  spread parts (edgeCount, replicate nprocs []) (edgeList d).

(** A count that MPI can take: an [int] that is not negative. *)
Definition int_count (n : Z) : bool := (0 <=? n) && (n <=? INT_MAX).

(** The counts and displacements of the exchange on one process ([ssize],
    [sdispls], [spos] or [rsize], [rdispls], [rpos]) are [int]: the number
    of tuples in all groups together has to be one. *)
Definition exchange_counts_fit {A} (groups : list (list A)) : bool :=
  int_count (Z.of_nat (length (concat groups))).

(** [MPI_Alltoallv]: process [q] receives, in rank order, the group every
    process has for it. *)
Definition alltoallv {A} (outs : list (list (list A))) (q : nat) : list A :=
  concat ((fun out => default [] (out !! q)) <$> outs).

(** [MPI_Reduce] with [MPI_SUM] over the first [count] entries, as seen at
    the root whose buffer is [mine]. *)
Definition reduce_sum (count : nat) (mine : list GraphElem) (all : list (list GraphElem))
    : list GraphElem :=
  imap (fun k x =>
          if (k <? count)%nat then allreduce_sum ((fun b => default 0 (b !! k)) <$> all)
          else x) mine.

(** ** PrefixCountBuilder *)

(** [n] iterations of [edgeCount[i] += edgeCount[i-1]] from index [i]. *)
Fixpoint prefix_loop (n i : nat) (v : list GraphElem) : list GraphElem :=
  match n with
  | O => v
  | S n' =>
      let v' :=
        match v !! (i - 1)%nat, v !! i with
        | Some a, Some b => <[i := b + a]> v
        | _, _ => v
        end in
      prefix_loop n' (S i) v'
  end.

(** [for (i = 1; i < globalNumVertices; i++) edgeCount[i] += edgeCount[i-1]] *)
Definition local_prefix_sum (globalNumVertices : GraphElem) (v : list GraphElem)
    : list GraphElem :=
  prefix_loop (Z.to_nat (globalNumVertices - 1)) 1 v.

(** ** LocalSorter *)

Definition ecmp (e0 e1 : GraphElemTuple) : bool :=
  (i_ e0 <? i_ e1) || ((i_ e0 =? i_ e1) && (j_ e0 <? j_ e1)).

(** [std::is_sorted]: no element compares less than its predecessor. *)
Fixpoint is_sorted (l : list GraphElemTuple) : bool :=
  match l with
  | a :: (b :: _) as rest => negb (ecmp b a) && is_sorted rest
  | _ => true
  end.

Definition local_sort (std_sort : list GraphElemTuple -> list GraphElemTuple)
    (rredata : list GraphElemTuple) : list GraphElemTuple :=
  if negb (is_sorted rredata) then std_sort rredata else rredata.

(** ** BinaryCSRWriter: positioned writes *)

(** One call of [MPI_File_write_at]: where in the file, from which address
    of the buffer, how many bytes. *)
Record write_call := mkCall { call_offset : Z; call_source : Z; call_count : Z }.

(** The loop of bounded writes:
    [while (transf_bytes < tot_bytes) { write; advance; resize the chunk }].
    [transf_bytes] is an unsigned 64-bit counter. *)
Fixpoint chunk_loop (fuel : nat) (tot_bytes offset curr_pointer chunk_bytes transf_bytes : Z)
    (calls : list write_call) : option (list write_call) :=
  if transf_bytes <? tot_bytes then
    match fuel with
    | O => None
    | S fuel' =>
        let call := {| call_offset := offset; call_source := curr_pointer;
                       call_count := chunk_bytes |} in
        let transf_bytes' := wrap_u64 (transf_bytes + chunk_bytes) in
        let offset' := offset + chunk_bytes in
        let curr_pointer' := curr_pointer + chunk_bytes in
        let chunk_bytes' :=
          if wrap_u64 (tot_bytes - transf_bytes') <? INT_MAX
          then wrap_u64 (tot_bytes - transf_bytes') else chunk_bytes in
        chunk_loop fuel' tot_bytes offset' curr_pointer' chunk_bytes' transf_bytes'
          (calls ++ [call])
    end
  else Some calls.

(** The chunked branch, entered with [chunk_bytes = INT_MAX] and nothing
    transferred. *)
Definition chunked_write (tot_bytes offset data : Z) : option (list write_call) :=
  chunk_loop (Z.to_nat (tot_bytes / INT_MAX) + 1) tot_bytes offset data INT_MAX 0 [].

(** [if (tot_bytes < INT_MAX) one write; else the loop]. *)
Definition write_buffer (tot_bytes offset data : Z) : option (list write_call) :=
  if tot_bytes <? INT_MAX
  then Some [ {| call_offset := offset; call_source := data; call_count := tot_bytes |} ]
  else chunked_write tot_bytes offset data.

(** Bytes in memory and in a file; a file position never written holds
    nothing. *)
Definition memory := Z -> Byte.byte.
Definition file := Z -> option Byte.byte.

(** The effect of one [MPI_File_write_at] of [count] bytes. *)
Definition write_at (mem : memory) (f : file) (c : write_call) : file :=
  fun pos =>
    if (call_offset c <=? pos) && (pos <? call_offset c + call_count c)
    then Some (mem (call_source c + (pos - call_offset c)))
    else f pos.

Definition write_all (mem : memory) (f : file) (calls : list write_call) : file :=
  foldl (write_at mem) f calls.

(** The single positioned write of the whole payload, with no bound on the
    byte count of a call (the reference the chunked loop is compared to). *)
Definition unbounded_write (mem : memory) (f : file) (tot_bytes offset data : Z) : file :=
  write_at mem f {| call_offset := offset; call_source := data; call_count := tot_bytes |}.

(** ** The conversion, all processes together *)

(** The buffer handed to a write: an array of integers or of edge records. *)
Inductive buffer := ElemBuffer (l : list GraphElem) | EdgeBuffer (l : list Edge).

(** A write of [wr_bytes] bytes from the start of [wr_buffer] at file offset
    [wr_offset] by process [wr_rank], and the calls it is made of. *)
Record file_write := mkWrite {
  wr_rank : nat; wr_offset : Z; wr_bytes : Z; wr_buffer : buffer;
  wr_calls : list write_call }.

(** The integers, or edge records, lying in the bytes a write transfers. *)
Definition written_elems (x : file_write) : list GraphElem :=
  match wr_buffer x with
  | ElemBuffer l => take (Z.to_nat (wr_bytes x / sizeof_GraphElem)) l
  | EdgeBuffer _ => []
  end.

Definition written_edges (x : file_write) : list Edge :=
  match wr_buffer x with
  | EdgeBuffer l => take (Z.to_nat (wr_bytes x / sizeof_Edge)) l
  | ElemBuffer _ => []
  end.

(** [MPI_Exscan] with [MPI_SUM]: the total of the lower ranks ([e_offset]
    keeps its initial zero on rank 0). *)
Definition exscan (xs : list GraphElem) (rank : nat) : GraphElem :=
  allreduce_sum (take rank xs).

Definition to_edge (t : GraphElemTuple) : Edge := {| tail_ := j_ t; weight_ := w_ t |}.

Record outcome := mkOutcome {
  globalNumVertices : GraphElem;
  globalNumEdges : GraphElem;
  parts : list GraphElem;
  outgoing : list (list (list GraphElemTuple));
  rredata : list (list GraphElemTuple);
  edgeCount : list GraphElem;
  header_writes : list file_write;
  table_write : file_write;
  edge_writes : list file_write }.

Section Pipeline.

(** [std::sort] with the comparator [ecmp]. *)
Variable std_sort : list GraphElemTuple -> list GraphElemTuple.
(** The record built by [Edge()]. *)
Variable Edge_default : Edge.
Variable indexOneBased : bool.

(** [csrCols(numEdges)] followed by [numEdges] calls of [emplace_back]. *)
Definition make_csrCols (numEdges : nat) (sorted : list GraphElemTuple) : list Edge :=
  replicate numEdges Edge_default ++ (to_edge <$> sorted).

(** The edge write of process [rank], which received [received] and holds
    [sorted] after the local sort. *)
Definition write_edges (globalNumVertices : GraphElem) (counts : list GraphElem)
    (rank : nat) (received sorted : list GraphElemTuple) : option file_write :=
  let numEdges := Z.of_nat (length received) in
  let tot_bytes := wrap_u64 (numEdges * sizeof_Edge) in
  let csrCols := make_csrCols (length received) sorted in
  let e_offset := exscan counts rank in
  let offset := 2 * sizeof_GraphElem + (globalNumVertices + 1) * sizeof_GraphElem
                + e_offset * sizeof_Edge in
  calls ← write_buffer tot_bytes offset 0;
  Some {| wr_rank := rank; wr_offset := offset; wr_bytes := tot_bytes;
          wr_buffer := EdgeBuffer csrCols; wr_calls := calls |}.

(** The write of the prefix counts by process 0. *)
Definition write_table (globalNumVertices : GraphElem) (edgeCount : list GraphElem)
    : option file_write :=
  let tot_bytes := wrap_u64 (globalNumVertices * sizeof_GraphElem) in
  let offset := 2 * sizeof_GraphElem in
  calls ← write_buffer tot_bytes offset 0;
  Some {| wr_rank := 0; wr_offset := offset; wr_bytes := tot_bytes;
          wr_buffer := ElemBuffer edgeCount; wr_calls := calls |}.

Definition write_scalar (offset : Z) (x : GraphElem) : file_write :=
  {| wr_rank := 0; wr_offset := offset; wr_bytes := sizeof_GraphElem;
     wr_buffer := ElemBuffer [x];
     wr_calls := [ {| call_offset := offset; call_source := 0;
                      call_count := sizeof_GraphElem |} ] |}.

(** The counts handed to MPI fit: on every process the tuples sent and the
    tuples received, and the count [globalNumVertices] of the reduction.  A
    count that does not fit is converted to [int] at the call, so that MPI
    is handed another number than the one meant; such a run is given no
    outcome. *)
Definition mpi_counts_fit (gV : GraphElem) (outs : list (list (list GraphElemTuple)))
    (recv : list (list GraphElemTuple)) : bool :=
  forallb exchange_counts_fit outs
  && forallb (fun r => int_count (Z.of_nat (length r))) recv
  && int_count gV.

(** Parts 2 and 3 from what the processes read in Part 1. *)
Definition convert (ds : list local_data) : option outcome :=
  let nprocs := length ds in
  let gE := global_numEdges ds in
  let gV := global_numVertices indexOneBased ds in
  let pts := make_parts gV (Z.of_nat nprocs) in
  spreads ← mapM (spread_local gV nprocs pts) ds;
  let outs := snd <$> spreads in
  let recv := alltoallv outs <$> seq 0 nprocs in
  if mpi_counts_fit gV outs recv then
    let reduced := reduce_sum (Z.to_nat gV) (default [] (head (fst <$> spreads)))
                     (fst <$> spreads) in
    let ec := local_prefix_sum gV reduced in
    let sorted := local_sort std_sort <$> recv in
    let counts := (fun r => Z.of_nat (length r)) <$> recv in
    tw ← write_table gV ec;
    ews ← mapM (fun k => write_edges gV counts k (default [] (recv !! k))
                           (default [] (sorted !! k))) (seq 0 nprocs);
    Some {| globalNumVertices := gV; globalNumEdges := gE; parts := pts;
            outgoing := outs; rredata := sorted; edgeCount := ec;
            header_writes := [write_scalar 0 gV; write_scalar sizeof_GraphElem gE];
            table_write := tw; edge_writes := ews |}
  else None.

(** The whole run: the three assertions, Part 1 on every rank, then the
    rest. *)
Definition loadParallelFileShards (nprocs : nat) (dir : directory)
    (fileStartIndex fileEndIndex : Z) (wtype : Weight_t) (shardCount : GraphElem)
    (uninit : nat -> nat -> locals) : option outcome :=
  if (0 <=? fileStartIndex) && (0 <=? fileEndIndex) && (fileStartIndex <=? fileEndIndex)
  then
    ds ← read_all indexOneBased nprocs dir fileStartIndex fileEndIndex wtype
           shardCount uninit;
    convert ds
  else None.

End Pipeline.

(** ** A sorting routine that meets the contract of [std::sort] *)

(** [a] may stand before [b]: [b] does not compare less than [a]. *)
Definition ecmp_le (a b : GraphElemTuple) : Prop := ecmp b a = false.

#[global] Instance ecmp_le_dec (a b : GraphElemTuple) : Decision (ecmp_le a b).
Proof. unfold ecmp_le. apply _. Defined.

Definition merge_sort_edges : list GraphElemTuple -> list GraphElemTuple :=
  merge_sort ecmp_le.

(** ** Auxiliary definitions for the statements *)

(** The number of newline characters of a text. *)
Fixpoint count_newlines (s : string) : nat :=
  match s with
  | EmptyString => O
  | String c s' => if is_newline c then S (count_newlines s') else count_newlines s'
  end.

(** Loop variables that hold zeros and the given weight. *)
Definition sample_locals (x : GraphWeight) : locals :=
  {| v0 := 0; v1 := 0; info := 0; w := x; ch := "000"%char |}.


(** The largest of [init] and the end points of the tuples. *)
Definition max_id (init : GraphElem) (es : list GraphElemTuple) : GraphElem :=
  foldl (fun m e => Z.max (Z.max m (i_ e)) (j_ e)) init es.

(** The vertex ids a process has seen, and those of all processes. *)
Definition observed_ids (ds : list local_data) : list GraphElem :=
  flat_map (fun d => flat_map (fun e => [i_ e; j_ e]) (edgeList d)) ds.

(** [m] is the largest element of [l]. *)
Definition is_maximum (m : Z) (l : list Z) : Prop := In m l ∧ ∀ x, In x l → x ≤ m.

(** The local maximum of a process is the one its reading loop tracked. *)
Definition tracked (d : local_data) : Prop := numVertices d = max_id 0 (edgeList d).

Definition newline : string := String (ascii_of_nat 10) EmptyString.

(** A list of integers in non-decreasing order. *)
Definition nondecreasing (l : list Z) : Prop :=
  ∀ i j x y, (i ≤ j)%nat → l !! i = Some x → l !! j = Some y → x ≤ y.

(** The calls cut the bytes [a, b) of a payload, written at [offset] from
    the buffer at [data], into consecutive pieces of [INT_MAX] bytes and a
    last piece with what remains. *)
Fixpoint tiles (offset data : Z) (calls : list write_call) (a b : Z) : Prop :=
  match calls with
  | [] => a = b
  | c :: rest =>
      call_offset c = offset + a
      ∧ call_source c = data + a
      ∧ call_count c = Z.min INT_MAX (b - a)
      ∧ 0 < call_count c
      ∧ tiles offset data rest (a + call_count c) b
  end.

Definition total_count (calls : list write_call) : Z :=
  foldr (fun c s => call_count c + s) 0 calls.

(** The pair the comparator looks at, and the order it induces on pairs. *)
Definition edge_key (e : GraphElemTuple) : Z * Z := (i_ e, j_ e).

Definition key_le (a b : Z * Z) : Prop := a.1 < b.1 ∨ (a.1 = b.1 ∧ a.2 ≤ b.2).

(** The number of edges every rank received in the exchange. *)
Definition received_counts (out : outcome) (nprocs : nat) : list GraphElem :=
  (fun r => Z.of_nat (length r)) <$> (alltoallv (outgoing out) <$> seq 0 nprocs).

(** The start of a process's edge records as the layout description words
    it: [16 + 8*(V+1) + 8*exclusivePrefixSum(edgeCount)]. *)
Definition spec_edge_offset (V e_offset : Z) : Z := 16 + 8 * (V + 1) + 8 * e_offset.

(** ** Sample runs *)

(** A directory with the single shard [1__1.csv]. *)
Definition single_shard (text : string) : directory :=
  fun ci cj => if (ci =? 1) && (cj =? 1) then Some text else None.

(** A default edge record for the sample runs; the statements about the
    conversion hold for every value of it. *)
Definition sample_default : Edge := {| tail_ := -1; weight_ := weight_zero |}.

(** Two processes, 0-based raw mode, one record [0,1,3,2.0]. *)
Definition two_rank_run : option outcome :=
  loadParallelFileShards merge_sort_edges sample_default false 2
    (single_shard "0,1,3,2.0") 1 1 ORG_WEIGHT 4 (fun _ _ => sample_locals weight_zero).

(** One process, 0-based raw mode, the records [0,1,3,2.0] and [1,0,3,2.0]. *)
Definition symmetric_pair_run : option outcome :=
  loadParallelFileShards merge_sort_edges sample_default false 1
    (single_shard ("0,1,3,2.0" +:+ newline +:+ "1,0,3,2.0")) 1 1 ORG_WEIGHT 4
    (fun _ _ => sample_locals weight_zero).

(** The number of tuples in the groups of a process. *)
Definition group_total {A} (out : list (list A)) : Z :=
  allreduce_sum ((fun g => Z.of_nat (length g)) <$> out).

(** One process, 1-based raw mode, the record [1,2,1,1.5]. *)
Definition one_based_run (std_sort : list GraphElemTuple -> list GraphElemTuple)
    (Edge_default : Edge) (uninit : nat -> nat -> locals) : option outcome :=
  loadParallelFileShards std_sort Edge_default true 1 (single_shard "1,2,1,1.5")
    1 1 ORG_WEIGHT 4 uninit.

(** One process, 0-based raw mode, the records [0,2], [0,2] and [0,1]. *)
Definition star_run : option outcome :=
  loadParallelFileShards merge_sort_edges sample_default false 1
    (single_shard ("0,2,1,1.0" +:+ newline +:+ "0,2,1,1.0" +:+ newline +:+ "0,1,1,1.0"))
    1 1 ORG_WEIGHT 4 (fun _ _ => sample_locals weight_zero).

(** ** Further definitions for the statements *)

(** The directed edges a list of records stands for: every record and its
    reverse. *)
Definition doubled (es : list GraphElemTuple) : list GraphElemTuple :=
  flat_map (fun e => [e; reversed e]) es.

(** The number of end points of the records that are the vertex [v]. *)
Definition endpoint_count (v : Z) (es : list GraphElemTuple) : Z :=
  allreduce_sum ((fun e => (if i_ e =? v then 1 else 0) + (if j_ e =? v then 1 else 0)) <$> es).

(** The number of end points of the records that are below [k]: the number
    of directed edges whose source is below [k]. *)
Definition sources_below (k : Z) (es : list GraphElemTuple) : Z :=
  allreduce_sum ((fun e => (if i_ e <? k then 1 else 0) + (if j_ e <? k then 1 else 0)) <$> es).

(** The records of all processes. *)
Definition all_records (ds : list local_data) : list GraphElemTuple :=
  concat (edgeList <$> ds).

(** Row-major order of shards: by row tile, then by column tile. *)
Definition tile_lt (s1 s2 : shard) : Prop :=
  rowTile s1 < rowTile s2 ∨ (rowTile s1 = rowTile s2 ∧ colTile s1 < colTile s2).

(** Every tuple of group [q] has its first end point owned by rank [q]. *)
Definition groups_owned (parts : list GraphElem) (g : list (list GraphElemTuple)) : Prop :=
  ∀ q grp t, g !! q = Some grp → t ∈ grp → owner_of parts (i_ t) = Z.of_nat q.

(** What Part 1 gives for [star_run] and for [two_rank_run]. *)
Definition star_data : list local_data :=
  [ {| edgeList := [ {| i_ := 0; j_ := 2; w_ := {| negative := false; mant := 1; expo := 0 |} |};
                     {| i_ := 0; j_ := 2; w_ := {| negative := false; mant := 1; expo := 0 |} |};
                     {| i_ := 0; j_ := 1; w_ := {| negative := false; mant := 1; expo := 0 |} |} ];
       numVertices := 2 |} ].

Definition two_rank_data : list local_data :=
  [ {| edgeList := [ {| i_ := 0; j_ := 1; w_ := {| negative := false; mant := 2; expo := 0 |} |} ];
       numVertices := 1 |};
    no_data ].

(** A write transfers a byte to the file position [pos]. *)
Definition covers (x : file_write) (pos : Z) : Prop :=
  wr_offset x ≤ pos < wr_offset x + wr_bytes x.

(** All writes of a run. *)
Definition all_writes (out : outcome) : list file_write :=
  header_writes out ++ [table_write out] ++ edge_writes out.

(** [localNumVertices] of a rank:
    [(globalNumVertices*(rank + 1)) / nprocs - (globalNumVertices*rank) / nprocs]. *)
Definition localNumVertices (globalNumVertices : GraphElem) (nprocs rank : Z) : GraphElem :=
  Z.quot (wrap_s64 (globalNumVertices * (rank + 1))) nprocs
  - Z.quot (wrap_s64 (globalNumVertices * rank)) nprocs.

(** The lines of a text: the pieces between its newline characters (a text
    that ends in a newline has an empty last line). *)
Fixpoint lines_of (s : string) : list string :=
  match s with
  | EmptyString => [EmptyString]
  | String c s' =>
      if is_newline c then EmptyString :: lines_of s'
      else match lines_of s' with
           | l :: ls => String c l :: ls
           | [] => [String c EmptyString]
           end
  end.

Fixpoint has_newline (s : string) : bool :=
  match s with
  | EmptyString => false
  | String c s' => is_newline c || has_newline s'
  end.

(** A text of decimal digits only, and the number it writes. *)
Fixpoint all_digits (s : string) : bool :=
  match s with
  | EmptyString => true
  | String c s' => IStream.isdigit c && all_digits s'
  end.

Fixpoint digits_value (s : string) (acc : Z) : Z :=
  match s with
  | EmptyString => acc
  | String c s' => digits_value s' (acc * 10 + IStream.digit_val c)
  end.

(** A text of one digit at least whose number fits [GraphElem]. *)
Definition is_number (s : string) : Prop :=
  all_digits s = true ∧ s ≠ EmptyString ∧ digits_value s 0 ≤ GraphElem_max.

(** A delimiter: one character that is neither a digit nor white space. *)
Definition is_delimiter (c : ascii) : Prop :=
  IStream.isdigit c = false ∧ IStream.isspace c = false.

(** The text does not go on with a digit. *)
Definition ends_number (rest : string) : bool :=
  match rest with
  | EmptyString => true
  | String c _ => negb (IStream.isdigit c)
  end.

(** ** Shard file names *)

Definition digit_char (d : Z) : ascii := ascii_of_nat (Z.to_nat (48 + d)).

(** The decimal digits of a number that is not negative, most significant
    first, in front of [acc]. *)
Fixpoint digits_of (fuel : nat) (n : Z) (acc : string) : string :=
  match fuel with
  | O => acc
  | S fuel' =>
      if n <? 10 then String (digit_char n) acc
      else digits_of fuel' (n / 10) (String (digit_char (n mod 10)) acc)
  end.

(** [std::to_string] of an integer. *)
Definition to_string (z : Z) : string :=
  if z <? 0 then String "-" (digits_of (S (Z.to_nat (Z.log2 (- z)))) (- z) EmptyString)
  else digits_of (S (Z.to_nat (Z.log2 z))) z EmptyString.

(** The value fits [int]. *)
Definition fits_int (v : Z) : bool := (v <=? INT_MAX) && (- INT_MAX - 1 <=? v).

(** [std::stoi]: white space, a sign, digits; no digit or a value outside
    [int] throws. *)
Definition stoi (s : string) : option Z :=
  let '(neg, b) := IStream.scan_sign (IStream.skipws s) in
  let '(m, n, _) := IStream.scan_digits b 0 0 in
  let v := if neg then - m else m in
  match n with
  | O => None
  | _ => if fits_int v then Some v else None
  end.

(** [std::string::npos]. *)
Definition npos : Z := 2 ^ 64 - 1.

Fixpoint sdrop (n : nat) (s : string) : string :=
  match n, s with
  | S n', String _ s' => sdrop n' s'
  | _, _ => s
  end.

Fixpoint stake (n : nat) (s : string) : string :=
  match n, s with
  | S n', String c s' => String c (stake n' s')
  | _, _ => EmptyString
  end.

(** [s.substr(pos, count)]: the characters from [pos], [count] of them or
    as many as there are; throws when [pos] is behind the end. *)
Definition substr (s : string) (pos count : Z) : option string :=
  let size := Z.of_nat (String.length s) in
  if size <? pos then None
  else Some (stake (Z.to_nat (Z.min count (size - pos))) (sdrop (Z.to_nat pos) s)).

(** [s.find(pat)]: the first position where [pat] starts, or [npos]. *)
Fixpoint find_from (pat s : string) (pos : Z) : Z :=
  if String.prefix pat s then pos
  else match s with
       | EmptyString => npos
       | String _ s' => find_from pat s' (pos + 1)
       end.

Definition find (s pat : string) : Z := find_from pat s 0.

(** [s.find_last_of(c)] for a single character: its last position, or
    [npos]. *)
Fixpoint find_last_from (c : ascii) (s : string) (pos last : Z) : Z :=
  match s with
  | EmptyString => last
  | String x s' => find_last_from c s' (pos + 1) (if Ascii.eqb x c then pos else last)
  end.

Definition find_last_of (s : string) (c : ascii) : Z := find_last_from c s 0 npos.

(** The name of the shard of the tiles [ci], [cj] in the directory [path]. *)
Definition shard_file_name (path : string) (ci cj : Z) : string :=
  path +:+ "/" +:+ (to_string ci +:+ "__" +:+ to_string cj +:+ ".csv").

(** The tile indices read back from a file name: the part behind the last
    slash, up to the first point, split at the first double underscore. *)
Definition tiles_of_name (fileName : string) : option (Z * Z) :=
  fileName_full ← substr fileName (wrap_u64 (find_last_of fileName "/" + 1)) npos;
  fileName_noext ← substr fileName_full 0 (find fileName_full ".");
  fileName_right ← substr fileName_noext (wrap_u64 (find fileName_full "__" + 2)) npos;
  fileName_left ← substr fileName_noext 0 (find fileName_full "__");
  left ← stoi fileName_left;
  right ← stoi fileName_right;
  Some (left, right).


(** No character of the text is [c]. *)
Fixpoint lacks (c : ascii) (s : string) : bool :=
  match s with
  | EmptyString => true
  | String x s' => negb (Ascii.eqb x c) && lacks c s'
  end.

(** * Properties *)

(** ** The weights: from a decimal to a double *)

Lemma div_nearest_even_spec N D :
  0 ≤ N → 0 < D →
  Z.abs (2 * N - 2 * div_nearest_even N D * D) ≤ D
  ∧ (Z.abs (2 * N - 2 * div_nearest_even N D * D) = D → Z.even (div_nearest_even N D) = true)
  ∧ N / D ≤ div_nearest_even N D ≤ N / D + 1
  ∧ (N mod D = 0 → div_nearest_even N D = N / D).
Proof.
  intros HN HD. unfold div_nearest_even.
  pose proof (Z.div_mod N D ltac:(lia)) as E.
  pose proof (Z.mod_pos_bound N D HD) as B.
  set (q := N / D) in *. set (r := N mod D) in *.
  destruct (Z.ltb_spec (2 * r) D); [repeat split; try lia; nia|].
  destruct (Z.ltb_spec D (2 * r)); [repeat split; try lia; nia|].
  destruct (Z.even q) eqn:Ev.
  - repeat split; try lia; try nia. intros _. exact Ev.
  - repeat split; try lia; try nia.
    intros _. rewrite Z.even_add, Ev. reflexivity.
Qed.

Lemma log2_ratio_spec num den :
  0 < num → 0 < den →
  let k := log2_ratio num den in
  den * 2 ^ Z.max 0 k ≤ num * 2 ^ Z.max 0 (- k)
  ∧ num * 2 ^ Z.max 0 (- (k + 1)) < den * 2 ^ Z.max 0 (k + 1).
Proof.
  intros Hn Hd. unfold log2_ratio.
  pose proof (Z.log2_spec num Hn) as [A1 A2].
  pose proof (Z.log2_spec den Hd) as [B1 B2].
  pose proof (Z.log2_nonneg num). pose proof (Z.log2_nonneg den).
  set (a := Z.log2 num) in *. set (b := Z.log2 den) in *.
  rewrite Z.pow_succ_r in A2, B2 by lia.
  destruct (Z.leb_spec 0 (a - b)) as [Hk|Hk].
  - (* a >= b *)
    assert (Ea : 2 ^ a = 2 ^ b * 2 ^ (a - b)).
    { rewrite <- Z.pow_add_r by lia. f_equal. lia. }
    assert (0 < 2 ^ (a - b)) by (apply Z.pow_pos_nonneg; lia).
    assert (0 < 2 ^ b) by (apply Z.pow_pos_nonneg; lia).
    destruct (Z.ltb_spec num (den * 2 ^ (a - b))) as [Hlt|Hge].
    + (* k = a - b - 1 *)
      destruct (Z.eq_dec (a - b) 0) as [E0|Hne].
      * rewrite E0 in *. simpl in Hlt. cbn. 
        replace (Z.max 0 (0 - 1)) with 0 by lia.
        replace (Z.max 0 (- (0 - 1))) with 1 by lia.
        replace (Z.max 0 (- (0 - 1 + 1))) with 0 by lia.
        replace (Z.max 0 (0 - 1 + 1)) with 0 by lia.
        change (2 ^ 0) with 1. change (2 ^ 1) with 2.
        assert (a = b) by lia. subst a. nia.
      * replace (Z.max 0 (a - b - 1)) with (a - b - 1) by lia.
        replace (Z.max 0 (- (a - b - 1))) with 0 by lia.
        replace (Z.max 0 (- (a - b - 1 + 1))) with 0 by lia.
        replace (Z.max 0 (a - b - 1 + 1)) with (a - b) by lia.
        change (2 ^ 0) with 1.
        assert (Eh : 2 ^ (a - b) = 2 * 2 ^ (a - b - 1)).
        { rewrite <- Z.pow_succ_r by lia. f_equal. lia. }
        assert (0 < 2 ^ (a - b - 1)) by (apply Z.pow_pos_nonneg; lia).
        split; [|lia]. nia.
    + replace (Z.max 0 (a - b)) with (a - b) by lia.
      replace (Z.max 0 (- (a - b))) with 0 by lia.
      replace (Z.max 0 (- (a - b + 1))) with 0 by lia.
      replace (Z.max 0 (a - b + 1)) with (a - b + 1) by lia.
      change (2 ^ 0) with 1.
      replace (a - b + 1) with (Z.succ (a - b)) by lia.
      rewrite Z.pow_succ_r by lia. split; [lia|]. nia.
  - (* a < b *)
    assert (Eb : 2 ^ b = 2 ^ a * 2 ^ (b - a)).
    { rewrite <- Z.pow_add_r by lia. f_equal. lia. }
    assert (0 < 2 ^ (b - a)) by (apply Z.pow_pos_nonneg; lia).
    assert (0 < 2 ^ a) by (apply Z.pow_pos_nonneg; lia).
    replace (- (a - b)) with (b - a) by lia.
    destruct (Z.ltb_spec (num * 2 ^ (b - a)) den) as [Hlt|Hge].
    + replace (Z.max 0 (a - b - 1)) with 0 by lia.
      replace (Z.max 0 (- (a - b - 1))) with (b - a + 1) by lia.
      replace (Z.max 0 (- (a - b - 1 + 1))) with (b - a) by lia.
      replace (Z.max 0 (a - b - 1 + 1)) with 0 by lia.
      change (2 ^ 0) with 1.
      replace (b - a + 1) with (Z.succ (b - a)) by lia.
      rewrite Z.pow_succ_r by lia. split; [|lia]. nia.
    + replace (Z.max 0 (a - b)) with 0 by lia.
      replace (Z.max 0 (- (a - b))) with (b - a) by lia.
      replace (Z.max 0 (a - b + 1)) with 0 by lia.
      replace (Z.max 0 (- (a - b + 1))) with (b - a - 1) by lia.
      change (2 ^ 0) with 1.
      assert (Eh : 2 ^ (b - a) = 2 * 2 ^ (b - a - 1)).
      { rewrite <- Z.pow_succ_r by lia. f_equal. lia. }
      assert (0 < 2 ^ (b - a - 1)) by (apply Z.pow_pos_nonneg; lia).
      split; [lia|]. nia.
Qed.

Lemma pow2_pos n : 0 < 2 ^ n ∨ (n < 0 ∧ 2 ^ n = 0).
Proof.
  destruct (Z.leb_spec 0 n); [left; apply Z.pow_pos_nonneg; lia|].
  right. split; [lia|]. apply Z.pow_neg_r. lia.
Qed.

Lemma pow2_add a b : 0 ≤ a → 0 ≤ b → 2 ^ (a + b) = 2 ^ a * 2 ^ b.
Proof. intros. apply Z.pow_add_r; lia. Qed.

Lemma scale_lt_1 num den K X Y :
  0 < den → 0 < K → 0 < X → 0 < Y → num < den * K → num * X < den * (K * (X * Y)).
Proof.
  intros Hd HK HX HY H.
  assert (H1 : num * X < den * K * X) by (apply Z.mul_lt_mono_pos_r; assumption).
  assert (H2 : 0 < den * K * X) by (repeat apply Z.mul_pos_pos; assumption).
  assert (H3 : den * K * X * 1 ≤ den * K * X * Y) by (apply Z.mul_le_mono_nonneg_l; lia).
  replace (den * (K * (X * Y))) with (den * K * X * Y) by ring. lia.
Qed.

Lemma scale_lt_2 num den W X Z T :
  0 < num → 0 < X → 0 < Z → 0 < T → X * Z = T * W → num * W < den → num * X < den * T.
Proof.
  intros Hn HX HZ HT E H.
  assert (H0 : 0 ≤ num * X) by (apply Z.mul_nonneg_nonneg; lia).
  assert (H1 : num * X * 1 ≤ num * X * Z) by (apply Z.mul_le_mono_nonneg_l; lia).
  assert (H2 : num * X * Z = T * (num * W)) by (rewrite <- Z.mul_assoc, E; ring).
  assert (H3 : T * (num * W) < T * den) by (apply Z.mul_lt_mono_pos_l; assumption).
  replace (den * T) with (T * den) by ring. lia.
Qed.

Lemma scale_le_1 num den K X : 0 < X → den * K ≤ num → den * (K * X) ≤ num * X.
Proof.
  intros HX H. rewrite Z.mul_assoc. apply Z.mul_le_mono_nonneg_r; [lia | exact H].
Qed.

Lemma scale_le_2 num den W T : 0 < T → den ≤ num * W → den * T ≤ num * (W * T).
Proof.
  intros HT H. rewrite Z.mul_assoc. apply Z.mul_le_mono_nonneg_r; [lia | exact H].
Qed.

(** The number chosen is within half a unit in the last place of the
    decimal, a tie goes to the even one, and it has 53 bits at most; a
    number above the subnormal ones has all 53 bits. *)
Lemma nearest_binary64_spec m e :
  0 < m →
  let r := (nearest_binary64 m e).1 in
  let p := (nearest_binary64 m e).2 in
  let scaled_decimal := m * 10 ^ Z.max 0 e * 2 ^ Z.max 0 (- p) in
  let scaled_double := r * 2 ^ Z.max 0 p * 10 ^ Z.max 0 (- e) in
  let half_unit := 2 ^ Z.max 0 p * 10 ^ Z.max 0 (- e) in
  -1074 ≤ p
  ∧ 0 ≤ r ≤ 2 ^ 53
  ∧ (p = -1074 ∨ 2 ^ 52 ≤ r)
  ∧ Z.abs (2 * scaled_decimal - 2 * scaled_double) ≤ half_unit
  ∧ (Z.abs (2 * scaled_decimal - 2 * scaled_double) = half_unit → Z.even r = true).
Proof.
  intros Hm. unfold nearest_binary64.
  set (num := if 0 <=? e then m * 10 ^ e else m).
  set (den := if 0 <=? e then 1 else 10 ^ (- e)).
  assert (Hnum : num = m * 10 ^ Z.max 0 e).
  { unfold num. destruct (Z.leb_spec 0 e).
    - rewrite Z.max_r by lia. reflexivity.
    - rewrite Z.max_l by lia. change (10 ^ 0) with 1. lia. }
  assert (Hden : den = 10 ^ Z.max 0 (- e)).
  { unfold den. destruct (Z.leb_spec 0 e).
    - rewrite Z.max_l by lia. reflexivity.
    - rewrite Z.max_r by lia. reflexivity. }
  assert (Hdpos : 0 < den) by (rewrite Hden; apply Z.pow_pos_nonneg; lia).
  assert (Hnpos : 0 < num).
  { rewrite Hnum. apply Z.mul_pos_pos; [exact Hm|]. apply Z.pow_pos_nonneg; lia. }
  destruct (log2_ratio_spec num den Hnpos Hdpos) as [Klo Khi].
  set (k := log2_ratio num den) in *.
  set (p := Z.max (k - 52) (-1074)).
  cbn [fst snd]. rewrite <- Hnum, <- Hden.
  clearbody num den k. clear Hnum Hden Hm m e.
  assert (Hp : -1074 ≤ p) by (unfold p; lia).
  assert (Hpk : k - 52 ≤ p) by (unfold p; lia).
  assert (Hnorm : p ≠ -1074 → p = k - 52) by (unfold p; lia).
  clearbody p.
  destruct (Z.leb_spec 0 p) as [Hp0|Hp0].
  - (* the last place is a whole number *)
    assert (Hk : p = k - 52) by lia.
    rewrite (Z.max_r 0 p) by lia. rewrite (Z.max_l 0 (- p)) by lia.
    change (2 ^ 0) with 1. rewrite Z.mul_1_r.
    assert (P2 : 0 < 2 ^ p) by (apply Z.pow_pos_nonneg; lia).
    assert (HD : 0 < den * 2 ^ p) by (apply Z.mul_pos_pos; lia).
    destruct (div_nearest_even_spec num (den * 2 ^ p) ltac:(lia) HD) as (A & T & B & _).
    set (r := div_nearest_even num (den * 2 ^ p)) in *.
    rewrite (Z.max_r 0 k) in Klo by lia. rewrite (Z.max_l 0 (- k)) in Klo by lia.
    rewrite (Z.max_l 0 (- (k + 1))) in Khi by lia. rewrite (Z.max_r 0 (k + 1)) in Khi by lia.
    change (2 ^ 0) with 1 in Klo, Khi. rewrite Z.mul_1_r in Klo, Khi.
    assert (E1 : 2 ^ k = 2 ^ p * 2 ^ 52).
    { rewrite <- pow2_add by lia. f_equal. lia. }
    assert (E2 : 2 ^ (k + 1) = 2 ^ p * 2 ^ 53).
    { rewrite <- pow2_add by lia. f_equal. lia. }
    rewrite E1 in Klo. rewrite E2 in Khi. rewrite Z.mul_assoc in Klo, Khi.
    assert (Q1 : 2 ^ 52 ≤ num / (den * 2 ^ p)).
    { apply Z.div_le_lower_bound; [exact HD | exact Klo]. }
    assert (Q2 : num / (den * 2 ^ p) < 2 ^ 53).
    { apply Z.div_lt_upper_bound; [exact HD | exact Khi]. }
    split; [exact Hp|]. split; [clear -B Q1 Q2; lia|]. split; [right; clear -B Q1; lia|].
    replace (r * 2 ^ p * den) with (r * (den * 2 ^ p)) by ring.
    replace (2 * r * (den * 2 ^ p)) with (2 * (r * (den * 2 ^ p))) in A, T by ring.
    replace (2 ^ p * den) with (den * 2 ^ p) by ring.
    split; [exact A | exact T].
  - (* the last place is a binary fraction *)
    rewrite (Z.max_l 0 p) by lia. rewrite (Z.max_r 0 (- p)) by lia.
    change (2 ^ 0) with 1. rewrite !Z.mul_1_r, Z.mul_1_l.
    assert (P2 : 0 < 2 ^ (- p)) by (apply Z.pow_pos_nonneg; lia).
    assert (HN : 0 ≤ num * 2 ^ (- p)) by (apply Z.mul_nonneg_nonneg; lia).
    destruct (div_nearest_even_spec (num * 2 ^ (- p)) den HN Hdpos) as (A & T & B & _).
    set (r := div_nearest_even (num * 2 ^ (- p)) den) in *.
    assert (Q2 : num * 2 ^ (- p) / den < 2 ^ 53).
    { apply Z.div_lt_upper_bound; [exact Hdpos|].
      destruct (Z.leb_spec 0 (k + 1)) as [Hk1|Hk1].
      - rewrite (Z.max_l 0 (- (k + 1))) in Khi by lia.
        rewrite (Z.max_r 0 (k + 1)) in Khi by lia.
        change (2 ^ 0) with 1 in Khi. rewrite Z.mul_1_r in Khi.
        assert (E : 2 ^ 53 = 2 ^ (k + 1) * (2 ^ (- p) * 2 ^ (52 - k + p))).
        { rewrite <- !pow2_add by lia. f_equal. lia. }
        rewrite E. apply scale_lt_1; try assumption; apply Z.pow_pos_nonneg; lia.
      - rewrite (Z.max_r 0 (- (k + 1))) in Khi by lia.
        rewrite (Z.max_l 0 (k + 1)) in Khi by lia.
        change (2 ^ 0) with 1 in Khi. rewrite Z.mul_1_r in Khi.
        apply (scale_lt_2 num den (2 ^ (- (k + 1))) (2 ^ (- p)) (2 ^ (53 + - (k + 1) + p)));
          try assumption; try (apply Z.pow_pos_nonneg; lia).
        rewrite <- !pow2_add by lia. f_equal. lia. }
    assert (Hr : 0 ≤ num * 2 ^ (- p) / den) by (apply Z.div_pos; assumption).
    split; [exact Hp|]. split; [clear -B Q2 Hr; lia|]. split.
    + destruct (Z.eq_dec p (-1074)) as [E|Hne]; [left; exact E | right].
      assert (Hk : p = k - 52) by (apply Hnorm, Hne).
      assert (Q1 : 2 ^ 52 ≤ num * 2 ^ (- p) / den).
      { apply Z.div_le_lower_bound; [exact Hdpos|].
        destruct (Z.leb_spec 0 k) as [Hk0|Hk0].
        - rewrite (Z.max_r 0 k) in Klo by lia. rewrite (Z.max_l 0 (- k)) in Klo by lia.
          change (2 ^ 0) with 1 in Klo. rewrite Z.mul_1_r in Klo.
          assert (E : 2 ^ 52 = 2 ^ k * 2 ^ (- p)).
          { rewrite <- pow2_add by lia. f_equal. lia. }
          rewrite E. apply scale_le_1; assumption.
        - rewrite (Z.max_l 0 k) in Klo by lia. rewrite (Z.max_r 0 (- k)) in Klo by lia.
          change (2 ^ 0) with 1 in Klo. rewrite Z.mul_1_r in Klo.
          assert (E : 2 ^ (- p) = 2 ^ (- k) * 2 ^ 52).
          { rewrite <- pow2_add by lia. f_equal. lia. }
          rewrite E. apply scale_le_2; [reflexivity | exact Klo]. }
      clear -B Q1. lia.
    + replace (2 * r * den) with (2 * (r * den)) in A, T by ring.
      split; [exact A | exact T].
Qed.

Lemma strip_zeros_spec fuel : ∀ m e,
  0 < m → m < 10 ^ (Z.of_nat fuel + 1) →
  0 < (strip_zeros fuel m e).1
  ∧ (strip_zeros fuel m e).1 mod 10 ≠ 0
  ∧ e ≤ (strip_zeros fuel m e).2
  ∧ m = (strip_zeros fuel m e).1 * 10 ^ ((strip_zeros fuel m e).2 - e).
Proof.
  induction fuel as [|fuel IH]; intros m e Hm Hlt.
  - change (10 ^ (Z.of_nat 0 + 1)) with 10 in Hlt. cbn [strip_zeros fst snd].
    rewrite Z.sub_diag. change (10 ^ 0) with 1.
    rewrite Z.mod_small by lia. repeat split; lia.
  - cbn [strip_zeros]. destruct (Z.eqb_spec (m mod 10) 0) as [E|Hne].
    + pose proof (Z.div_mod m 10 ltac:(lia)) as Hdm. rewrite E, Z.add_0_r in Hdm.
      assert (Hq : 0 < m / 10) by lia.
      assert (Hqlt : m / 10 < 10 ^ (Z.of_nat fuel + 1)).
      { apply Z.div_lt_upper_bound; [lia|].
        replace (Z.of_nat (S fuel) + 1) with (Z.succ (Z.of_nat fuel + 1)) in Hlt by lia.
        rewrite Z.pow_succ_r in Hlt by lia. exact Hlt. }
      destruct (IH (m / 10) (e + 1) Hq Hqlt) as (P & C & L & V).
      split; [exact P|]. split; [exact C|]. split; [lia|].
      set (e' := (strip_zeros fuel (m / 10) (e + 1)).2) in *.
      replace (e' - e) with (Z.succ (e' - (e + 1))) by lia.
      rewrite Z.pow_succ_r by lia. rewrite Hdm at 1. rewrite V at 1. ring.
    + cbn [fst snd]. rewrite Z.sub_diag. change (10 ^ 0) with 1.
      repeat split; lia.
Qed.

(** The decimal form has the value of the binary one and is the form
    without trailing zeros. *)
Lemma decimal_of_binary_spec r p :
  0 < r →
  let dm := (decimal_of_binary r p).1 in
  let de := (decimal_of_binary r p).2 in
  0 < dm ∧ dm mod 10 ≠ 0
  ∧ (0 ≤ p → 0 ≤ de ∧ dm * 10 ^ de = r * 2 ^ p)
  ∧ (p < 0 → p ≤ de ∧ dm * 10 ^ (de - p) = r * 5 ^ (- p)).
Proof.
  intros Hr. unfold decimal_of_binary.
  destruct (Z.eqb_spec r 0) as [E|_]; [lia|].
  set (m := if 0 <=? p then r * 2 ^ p else r * 5 ^ (- p)).
  assert (Hm : 0 < m).
  { unfold m. destruct (Z.leb_spec 0 p); apply Z.mul_pos_pos; try lia;
      apply Z.pow_pos_nonneg; lia. }
  assert (Hlt : m < 10 ^ (Z.of_nat (Z.to_nat (Z.log2 m)) + 1)).
  { pose proof (Z.log2_spec m Hm) as [_ H2]. pose proof (Z.log2_nonneg m).
    rewrite Z2Nat.id by lia.
    eapply Z.lt_le_trans; [exact H2|].
    replace (Z.succ (Z.log2 m)) with (Z.log2 m + 1) by lia.
    apply Z.pow_le_mono_l. lia. }
  destruct (strip_zeros_spec _ m (Z.min p 0) Hm Hlt) as (P & C & L & V).
  cbv zeta. split; [exact P|]. split; [exact C|]. split.
  - intros Hp. rewrite Z.min_r in * by lia. split; [exact L|].
    rewrite Z.sub_0_r in V. rewrite <- V. unfold m.
    destruct (Z.leb_spec 0 p); [reflexivity | lia].
  - intros Hp. rewrite Z.min_l in * by lia. split; [exact L|].
    rewrite <- V. unfold m. destruct (Z.leb_spec 0 p); [lia | reflexivity].
Qed.

(** The conversion on sample decimals: a decimal that is no double, two
    spellings of one number, a tie, the range of the doubles, and a decimal
    below the smallest double. *)
Lemma strtod_samples :
  strtod false 1 (-1)
  = ({| negative := false;
        mant := 1000000000000000055511151231257827021181583404541015625;
        expo := -55 |}, false)
  ∧ strtod false 10 (-1) = strtod false 1 0
  ∧ strtod false 9007199254740993 0
    = ({| negative := false; mant := 9007199254740992; expo := 0 |}, false)
  ∧ strtod false 17976931348623157 292
    = ({| negative := false; mant := DBL_MAX_mant; expo := 0 |}, false)
  ∧ strtod true 17976931348623159 292
    = ({| negative := true; mant := DBL_MAX_mant; expo := 0 |}, true)
  ∧ strtod false 24 (-325) = (weight_zero, false).
Proof. repeat split; vm_compute; reflexivity. Qed.

(** ** EdgeIngestor: the weight modes *)

Lemma into_v0_w r : w (into_v0 r).1 = w r.1.
Proof. unfold into_v0. destruct (IStream.get_GraphElem _ _). reflexivity. Qed.

Lemma into_v1_w r : w (into_v1 r).1 = w r.1.
Proof. unfold into_v1. destruct (IStream.get_GraphElem _ _). reflexivity. Qed.

Lemma into_info_w r : w (into_info r).1 = w r.1.
Proof. unfold into_info. destruct (IStream.get_GraphElem _ _). reflexivity. Qed.

Lemma into_ch_w r : w (into_ch r).1 = w r.1.
Proof. unfold into_ch. destruct (IStream.get_char _ _). reflexivity. Qed.

Lemma extract3_w r : w (extract3 r).1 = w r.1.
Proof.
  unfold extract3.
  rewrite into_info_w, into_ch_w, into_v1_w, into_ch_w, into_v0_w. reflexivity.
Qed.

Lemma sentry_not_good s : IStream.good s = false → (IStream.sentry s).1 = false ∧ IStream.good (IStream.sentry s).2 = false.
Proof.
  intros H. unfold IStream.sentry. rewrite H. simpl. split; [reflexivity|].
  unfold IStream.good. simpl. reflexivity.
Qed.

Lemma get_GraphElem_not_good s old :
  IStream.good s = false →
  (IStream.get_GraphElem s old).1 = old ∧ IStream.good (IStream.get_GraphElem s old).2 = false.
Proof.
  intros H. destruct (sentry_not_good s H) as [H1 H2].
  unfold IStream.get_GraphElem. destruct (IStream.sentry s) as [ok s1]. simpl in *.
  subst ok. simpl. auto.
Qed.

Lemma get_char_not_good s old :
  IStream.good s = false →
  (IStream.get_char s old).1 = old ∧ IStream.good (IStream.get_char s old).2 = false.
Proof.
  intros H. destruct (sentry_not_good s H) as [H1 H2].
  unfold IStream.get_char. destruct (IStream.sentry s) as [ok s1]. simpl in *.
  subst ok. simpl. auto.
Qed.

Lemma set_v0_same l : set_v0 l (v0 l) = l.
Proof. destruct l; reflexivity. Qed.
Lemma set_v1_same l : set_v1 l (v1 l) = l.
Proof. destruct l; reflexivity. Qed.
Lemma set_info_same l : set_info l (info l) = l.
Proof. destruct l; reflexivity. Qed.
Lemma set_ch_same l : set_ch l (ch l) = l.
Proof. destruct l; reflexivity. Qed.

Lemma into_v0_not_good r :
  IStream.good r.2 = false → (into_v0 r).1 = r.1 ∧ IStream.good (into_v0 r).2 = false.
Proof.
  intros H. destruct (get_GraphElem_not_good r.2 (v0 r.1) H) as [H1 H2].
  unfold into_v0. destruct (IStream.get_GraphElem _ _) as [x s]. simpl in *.
  subst x. rewrite set_v0_same. auto.
Qed.

Lemma into_v1_not_good r :
  IStream.good r.2 = false → (into_v1 r).1 = r.1 ∧ IStream.good (into_v1 r).2 = false.
Proof.
  intros H. destruct (get_GraphElem_not_good r.2 (v1 r.1) H) as [H1 H2].
  unfold into_v1. destruct (IStream.get_GraphElem _ _) as [x s]. simpl in *.
  subst x. rewrite set_v1_same. auto.
Qed.

Lemma into_info_not_good r :
  IStream.good r.2 = false → (into_info r).1 = r.1 ∧ IStream.good (into_info r).2 = false.
Proof.
  intros H. destruct (get_GraphElem_not_good r.2 (info r.1) H) as [H1 H2].
  unfold into_info. destruct (IStream.get_GraphElem _ _) as [x s]. simpl in *.
  subst x. rewrite set_info_same. auto.
Qed.

Lemma into_ch_not_good r :
  IStream.good r.2 = false → (into_ch r).1 = r.1 ∧ IStream.good (into_ch r).2 = false.
Proof.
  intros H. destruct (get_char_not_good r.2 (ch r.1) H) as [H1 H2].
  unfold into_ch. destruct (IStream.get_char _ _) as [x s]. simpl in *.
  subst x. rewrite set_ch_same. auto.
Qed.

(** Reading three fields from a stream that is no longer good changes no
    variable. *)
Lemma extract3_not_good r : IStream.good r.2 = false → (extract3 r).1 = r.1.
Proof.
  intros H. unfold extract3.
  destruct (into_v0_not_good r H) as [E1 G1].
  destruct (into_ch_not_good _ G1) as [E2 G2].
  destruct (into_v1_not_good _ G2) as [E3 G3].
  destruct (into_ch_not_good _ G3) as [E4 G4].
  destruct (into_info_not_good _ G4) as [E5 G5].
  congruence.
Qed.

(** Raw mode on a line that the four-field read consumes to its end: the
    second read finds the stream at its end and the four fields stand. *)
Lemma raw_mode_line_consumed line l0 :
  IStream.good (extract4 (l0, IStream.of_string line)).2 = false →
  parse_line ORG_WEIGHT line l0 = (extract4 (l0, IStream.of_string line)).1.
Proof. intros H. unfold parse_line, read_fields. apply extract3_not_good, H. Qed.

(** Absolute mode: the four fields, once, and the magnitude of the weight. *)
Lemma abs_mode_parse line l0 :
  let r := (extract4 (l0, IStream.of_string line)).1 in
  parse_line ABS_WEIGHT line l0 = set_w r (fabs (w r)).
Proof. reflexivity. Qed.

(** C3.  How a line is read in each weight mode.  In raw mode the three
    leading fields are read a second time after the four fields, because the
    [else] of the absolute-mode test also serves raw mode: on the line
    [5,6,3,2.0 7,8,9] the end points kept are 7 and 8, with the weight 2.0.
    In the remaining (unweighted) mode three fields are read and the weight
    is never assigned: the tuple carries whatever the variable held, which is
    not zero when that was 5. *)
Theorem weight_mode_reads :
  (∀ line l0, parse_line ORG_WEIGHT line l0
              = (extract3 (extract4 (l0, IStream.of_string line))).1) ∧
  (∀ l0, v0 (parse_line ORG_WEIGHT "5,6,3,2.0 7,8,9" l0) = 7
         ∧ v1 (parse_line ORG_WEIGHT "5,6,3,2.0 7,8,9" l0) = 8
         ∧ w (parse_line ORG_WEIGHT "5,6,3,2.0 7,8,9" l0) = {| negative := false; mant := 2; expo := 0 |}) ∧
  (∀ line l0, w (parse_line OTHER_WEIGHT line l0) = w l0) ∧
  w_ (line_tuple false 0 0 OTHER_WEIGHT "0,1,3" (sample_locals {| negative := false; mant := 5; expo := 0 |}))
    ≠ weight_zero.
Proof.
  split; [reflexivity|]. split; [intros l0; repeat split; reflexivity|].
  split.
  - intros line l0. unfold parse_line, read_fields. apply extract3_w.
  - vm_compute. discriminate.
Qed.

(** ** EdgeIngestor: the reading loop *)

Lemma getline_scan_newlines s :
  count_newlines s =
  if (getline_scan s).2 then O else S (count_newlines (getline_scan s).1.2).
Proof.
  induction s as [|c s IH]; simpl; [reflexivity|].
  destruct (is_newline c); simpl; [reflexivity|].
  destruct (getline_scan s) as [[l r] e]. simpl in *. exact IH.
Qed.

Lemma getline_scan_at_end s :
  (getline_scan s).2 = true → (getline_scan s).1.2 = EmptyString.
Proof.
  induction s as [|c s IH]; simpl; [reflexivity|].
  destruct (is_newline c); simpl; [discriminate|].
  destruct (getline_scan s) as [[l r] e]. simpl in *. exact IH.
Qed.

Lemma count_newlines_le s : (count_newlines s ≤ String.length s)%nat.
Proof.
  induction s as [|c s IH]; simpl; [lia|]. destruct (is_newline c); lia.
Qed.

Lemma max_id_snoc init es e :
  max_id init (es ++ [e]) = Z.max (Z.max (max_id init es) (i_ e)) (j_ e).
Proof. unfold max_id. rewrite foldl_app. reflexivity. Qed.

Lemma track_step (nv : GraphElem) e :
  (if (if nv <? i_ e then i_ e else nv) <? j_ e then j_ e
   else if nv <? i_ e then i_ e else nv)
  = Z.max (Z.max nv (i_ e)) (j_ e).
Proof.
  destruct (Z.ltb_spec nv (i_ e)).
  - destruct (Z.ltb_spec (i_ e) (j_ e)); lia.
  - destruct (Z.ltb_spec nv (j_ e)); lia.
Qed.

Section IngestFacts.

Variable indexOneBased : bool.
Variable wtype : Weight_t.
Variables v_lo v_hi : GraphElem.
Variable uninit : nat -> locals.

Lemma read_shard_step fuel k ifs line el nv :
  eof ifs = false →
  read_shard indexOneBased wtype v_lo v_hi uninit (S fuel) k ifs line el nv
  = let p := getline ifs line in
    let t := line_tuple indexOneBased v_lo v_hi wtype p.1 (uninit k) in
    read_shard indexOneBased wtype v_lo v_hi uninit fuel (S k) p.2 p.1
      (el ++ [t]) (Z.max (Z.max nv (i_ t)) (j_ t)).
Proof.
  intros H. cbn [read_shard]. rewrite H. destruct (getline ifs line) as [l f].
  cbv zeta. simpl fst. simpl snd. f_equal. apply track_step.
Qed.

(** With one unit of fuel per newline and one more, the loop ends; it
    appends one tuple per call of [getline], that is one per newline and
    one for the read that meets the end of the file. *)
Lemma read_shard_runs fuel : ∀ k ifs line el nv,
  eof ifs = false →
  (count_newlines (pending ifs) < fuel)%nat →
  ∃ el', read_shard indexOneBased wtype v_lo v_hi uninit fuel k ifs line el nv
         = Some (el ++ el', max_id nv el')
       ∧ length el' = S (count_newlines (pending ifs)).
Proof.
  induction fuel as [|fuel IH]; intros k ifs line el nv Heof Hfuel; [lia|].
  rewrite read_shard_step by exact Heof. unfold getline. rewrite Heof.
  pose proof (getline_scan_newlines (pending ifs)) as Hn.
  pose proof (getline_scan_at_end (pending ifs)) as He.
  destruct (getline_scan (pending ifs)) as [[l r] e]. simpl in Hn, He.
  cbv zeta. simpl fst. simpl snd.
  set (t := line_tuple indexOneBased v_lo v_hi wtype l (uninit k)).
  destruct e.
  - (* the end of the file was met: the next test of [eof] leaves the loop *)
    exists [t]. destruct fuel; simpl; (split; [reflexivity | lia]).
  - destruct (IH (S k) {| pending := r; eof := false |} l (el ++ [t])
                 (Z.max (Z.max nv (i_ t)) (j_ t)) eq_refl) as [el' [E L]].
    { simpl. lia. }
    exists (t :: el'). split.
    + rewrite E. rewrite <- app_assoc. reflexivity.
    + simpl in *. lia.
Qed.

End IngestFacts.

(** A process with a shard ends Part 1 with one tuple per newline of the
    text and one more, and with the maximum its loop tracked. *)
Lemma read_local_shard one wtype shardCount uninit sh :
  ∃ d, read_local one wtype shardCount uninit (Some sh) = Some d
     ∧ length (edgeList d) = S (count_newlines (contents sh))
     ∧ tracked d.
Proof.
  unfold read_local.
  destruct (read_shard_runs one wtype (wrap_s64 ((rowTile sh - 1) * shardCount))
              (wrap_s64 ((colTile sh - 1) * shardCount)) uninit
              (S (S (String.length (contents sh)))) 0
              {| pending := contents sh; eof := false |} EmptyString [] 0 eq_refl)
    as [el [E L]].
  { simpl. pose proof (count_newlines_le (contents sh)). lia. }
  rewrite E. simpl. eexists. split; [reflexivity|]. simpl. split; [exact L|].
  reflexivity.
Qed.

Lemma read_local_idle one wtype shardCount uninit :
  read_local one wtype shardCount uninit None = Some no_data.
Proof. reflexivity. Qed.

(** The tuple made from an empty line takes its end points and its weight
    from what the loop variables happened to hold. *)
Lemma blank_line_tuple one v_lo v_hi wtype l0 :
  let t := line_tuple one v_lo v_hi wtype EmptyString l0 in
  i_ t = wrap_s64 ((if one then wrap_s64 (v0 l0 - 1) else v0 l0) + v_lo)
  ∧ j_ t = wrap_s64 ((if one then wrap_s64 (v1 l0 - 1) else v1 l0) + v_hi)
  ∧ w_ t = match wtype with ABS_WEIGHT => fabs (w l0) | _ => w l0 end.
Proof. destruct wtype; repeat split; reflexivity. Qed.

(** C6.  The reading loop appends one tuple per call of [getline]: one per
    newline of the shard and one more for the read that meets the end of the
    file.  A shard with the single data line [0,1,3,2.0] ended by a newline
    gives two tuples; the second is made from the empty line, that is from
    what the loop variables held. *)
Theorem read_shard_appends_per_getline :
  (∀ one wtype shardCount uninit sh,
     ∃ d, read_local one wtype shardCount uninit (Some sh) = Some d
        ∧ length (edgeList d) = S (count_newlines (contents sh))) ∧
  (∀ uninit,
     edgeList <$> read_local false ORG_WEIGHT 4 uninit
                    (Some (mkShard 1 1 ("0,1,3,2.0" +:+ newline)))
     = Some [ {| i_ := 0; j_ := 1; w_ := {| negative := false; mant := 2; expo := 0 |} |};
              line_tuple false 0 0 ORG_WEIGHT EmptyString (uninit 1%nat) ]).
Proof.
  split.
  - intros. destruct (read_local_shard one wtype shardCount uninit sh) as [d [E [L _]]].
    exists d. auto.
  - intros uninit. reflexivity.
Qed.

(** ** GlobalMetadataReducer *)

Lemma max_id_ge_init es : ∀ init, init ≤ max_id init es.
Proof.
  induction es as [|e es IH]; intros init; simpl; [lia|].
  specialize (IH (Z.max (Z.max init (i_ e)) (j_ e))). unfold max_id in *. simpl. lia.
Qed.

Lemma max_id_ge_ids es : ∀ init e, In e es → i_ e ≤ max_id init es ∧ j_ e ≤ max_id init es.
Proof.
  induction es as [|a es IH]; intros init e Hin; [destruct Hin|].
  change (max_id init (a :: es)) with (max_id (Z.max (Z.max init (i_ a)) (j_ a)) es).
  destruct Hin as [->|Hin].
  - pose proof (max_id_ge_init es (Z.max (Z.max init (i_ e)) (j_ e))). lia.
  - apply IH, Hin.
Qed.

Lemma max_id_attained es : ∀ init,
  max_id init es = init ∨ ∃ e, In e es ∧ (max_id init es = i_ e ∨ max_id init es = j_ e).
Proof.
  induction es as [|a es IH]; intros init; [left; reflexivity|].
  change (max_id init (a :: es)) with (max_id (Z.max (Z.max init (i_ a)) (j_ a)) es).
  destruct (IH (Z.max (Z.max init (i_ a)) (j_ a))) as [E|[e [Hin E]]].
  - rewrite E.
    destruct (Z.max_spec (Z.max init (i_ a)) (j_ a)) as [[_ ->]|[_ ->]].
    + right. exists a. split; [left; reflexivity | right; reflexivity].
    + destruct (Z.max_spec init (i_ a)) as [[_ ->]|[_ ->]].
      * right. exists a. split; [left; reflexivity | left; reflexivity].
      * left. reflexivity.
  - right. exists e. split; [right; exact Hin | exact E].
Qed.

Lemma foldl_max_ge xs : ∀ x, x ≤ foldl Z.max x xs ∧ ∀ y, In y xs → y ≤ foldl Z.max x xs.
Proof.
  induction xs as [|a xs IH]; intros x; simpl.
  - split; [lia | intros y []].
  - destruct (IH (Z.max x a)) as [H1 H2]. split; [lia|].
    intros y [->|Hy]; [lia | apply H2, Hy].
Qed.

Lemma foldl_max_attained xs : ∀ x, foldl Z.max x xs = x ∨ In (foldl Z.max x xs) xs.
Proof.
  induction xs as [|a xs IH]; intros x; simpl; [left; reflexivity|].
  destruct (IH (Z.max x a)) as [E|Hin].
  - rewrite E. destruct (Z.max_spec x a) as [[_ ->]|[_ ->]]; auto.
  - auto.
Qed.

Lemma allreduce_max_ge xs y : In y xs → y ≤ allreduce_max xs.
Proof.
  destruct xs as [|x xs]; [intros []|]. simpl.
  destruct (foldl_max_ge xs x) as [H1 H2]. intros [<-|Hy]; [exact H1 | apply H2, Hy].
Qed.

Lemma allreduce_max_attained xs : xs ≠ [] → In (allreduce_max xs) xs.
Proof.
  destruct xs as [|x xs]; [congruence|]. intros _. simpl.
  destruct (foldl_max_attained xs x) as [->|H]; auto.
Qed.

Lemma observed_ids_In ds d e :
  In d ds → In e (edgeList d) → In (i_ e) (observed_ids ds) ∧ In (j_ e) (observed_ids ds).
Proof.
  intros Hd He. unfold observed_ids.
  split; apply in_flat_map; exists d; (split; [exact Hd|]);
    apply in_flat_map; exists e; (split; [exact He|]); simpl; auto.
Qed.

(** The reduced maximum is the largest observed vertex id, when that id is
    not negative. *)
Lemma allreduce_max_observed ds m :
  ds ≠ [] → Forall tracked ds → is_maximum m (observed_ids ds) → 0 ≤ m →
  allreduce_max (numVertices <$> ds) = m.
Proof.
  intros Hne Htr [Hin Hmax] Hm. rewrite Forall_forall in Htr.
  apply Z.le_antisymm.
  - assert (Hmap : numVertices <$> ds ≠ []) by (destruct ds; simpl; congruence).
    apply allreduce_max_attained in Hmap.
    apply list_elem_of_In, list_elem_of_fmap in Hmap.
    destruct Hmap as [d [Ed Hd]]. rewrite Ed. apply list_elem_of_In in Hd.
    pose proof (Htr d (proj2 (list_elem_of_In _ _) Hd)) as Ht. unfold tracked in Ht. rewrite Ht.
    destruct (max_id_attained (edgeList d) 0) as [->|[e [He [->| ->]]]]; [exact Hm| |];
      apply Hmax; eapply observed_ids_In; eauto.
  - unfold observed_ids in Hin. apply in_flat_map in Hin. destruct Hin as [d [Hd Hin]].
    apply in_flat_map in Hin. destruct Hin as [e [He Hin]].
    transitivity (numVertices d).
    + pose proof (Htr d (proj2 (list_elem_of_In _ _) Hd)) as Ht. unfold tracked in Ht. rewrite Ht.
      destruct (max_id_ge_ids (edgeList d) 0 e He) as [H1 H2].
      simpl in Hin. destruct Hin as [<-|[<-|[]]]; assumption.
    + apply allreduce_max_ge, list_elem_of_In, list_elem_of_fmap_2, list_elem_of_In, Hd.
Qed.

(** The 64-bit result: in range, and the exact result up to a multiple of
    [2^64]. *)
Lemma wrap_s64_spec z :
  GraphElem_min ≤ wrap_s64 z ≤ GraphElem_max ∧ ∃ k, wrap_s64 z = z + k * 2 ^ 64.
Proof.
  unfold wrap_s64, GraphElem_min, GraphElem_max.
  pose proof (Z.mod_pos_bound (z + 2 ^ 63) (2 ^ 64) ltac:(lia)) as B.
  pose proof (Z.div_mod (z + 2 ^ 63) (2 ^ 64) ltac:(lia)) as E.
  split; [lia|]. exists (- ((z + 2 ^ 63) / 2 ^ 64)). lia.
Qed.

Lemma wrap_s64_small z : GraphElem_min ≤ z ≤ GraphElem_max → wrap_s64 z = z.
Proof.
  unfold wrap_s64, GraphElem_min, GraphElem_max. intros H.
  rewrite Z.mod_small; lia.
Qed.

(** C4.  With at least one process, local maxima as the reading loop
    tracks them, and a largest observed vertex id [m] that is not negative:
    under 0-based indexing [globalNumVertices] is [m + 1] as the 64-bit
    addition gives it, which is [m + 1] itself unless [m] is the largest
    [GraphElem]; under 1-based indexing, where the ids compared are the
    decremented ones, it is [m], not [m + 1]. *)
Theorem global_numVertices_by_index_base ds m :
  ds ≠ [] → Forall tracked ds → is_maximum m (observed_ids ds) → 0 ≤ m →
  global_numVertices false ds = wrap_s64 (m + 1)
  ∧ (m < GraphElem_max → global_numVertices false ds = m + 1)
  ∧ global_numVertices true ds = m.
Proof.
  intros Hne Htr Hmax Hm. unfold global_numVertices. simpl.
  rewrite (allreduce_max_observed ds m Hne Htr Hmax Hm).
  split; [reflexivity|]. split; [|reflexivity].
  intros Hlt. apply wrap_s64_small. unfold GraphElem_min, GraphElem_max in *. lia.
Qed.

Lemma global_numVertices_by_index_base_witness :
  let ds := [ {| edgeList := [ {| i_ := 0; j_ := 1; w_ := {| negative := false; mant := 15; expo := -1 |} |} ];
                 numVertices := 1 |} ] in
  global_numVertices false ds = 2 ∧ global_numVertices true ds = 1.
Proof.
  intros ds.
  destruct (global_numVertices_by_index_base ds 1) as (_ & H0 & H1).
  - discriminate.
  - repeat constructor.
  - split; [simpl; auto | intros x Hx; simpl in Hx; intuition lia].
  - lia.
  - split; [apply H0; unfold GraphElem_max; lia | exact H1].
Defined.

(** ** VertexPartitioner and the ownership lookup *)

Lemma length_make_parts V P : length (make_parts V P) = S (Z.to_nat P).
Proof. unfold make_parts. simpl. rewrite length_fmap, length_seqZ. reflexivity. Qed.

Lemma lookup_make_parts V P i :
  0 ≤ V → 1 ≤ P → V * P ≤ GraphElem_max → 0 ≤ i ≤ P →
  make_parts V P !! Z.to_nat i = Some (V * i / P).
Proof.
  intros HV HP Hfit Hi. unfold make_parts.
  destruct (decide (i = 0)) as [->|Hne].
  - simpl. rewrite Z.mul_0_r, Z.div_0_l by lia. reflexivity.
  - replace (Z.to_nat i) with (S (Z.to_nat (i - 1))) by lia.
    rewrite lookup_cons_ne_0 by lia. simpl.
    rewrite list_lookup_fmap, lookup_seqZ_lt by lia. simpl. f_equal.
    replace (1 + Z.of_nat (Z.to_nat (i - 1))) with i by lia.
    assert (0 ≤ V * i ≤ V * P) by nia.
    rewrite wrap_s64_small by (unfold GraphElem_min; lia).
    apply Z.quot_div_nonneg; lia.
Qed.

Lemma make_parts_nondecreasing V P :
  0 ≤ V → 1 ≤ P → V * P ≤ GraphElem_max → nondecreasing (make_parts V P).
Proof.
  intros HV HP Hfit i j x y Hij Hx Hy.
  pose proof (lookup_lt_Some _ _ _ Hx) as Li. pose proof (lookup_lt_Some _ _ _ Hy) as Lj.
  rewrite length_make_parts in Li, Lj.
  rewrite <- (Nat2Z.id i), lookup_make_parts in Hx by lia.
  rewrite <- (Nat2Z.id j), lookup_make_parts in Hy by lia.
  injection Hx as <-. injection Hy as <-.
  apply Z.div_le_mono; [lia | nia].
Qed.

(** The halving search returns the first position of the range whose
    element is greater than the value. *)
Lemma upper_bound_from_spec l v :
  nondecreasing l →
  ∀ fuel first len, (len ≤ fuel)%nat → (first + len ≤ length l)%nat →
  let u := upper_bound_from fuel l v first len in
  (first ≤ u ≤ first + len)%nat
  ∧ (∀ i x, (first ≤ i < u)%nat → l !! i = Some x → x ≤ v)
  ∧ (∀ i x, (u ≤ i < first + len)%nat → l !! i = Some x → v < x).
Proof.
  intros Hs. induction fuel as [|fuel IH]; intros first len Hf Hl.
  - assert (len = O) by lia. subst len. simpl. repeat split; intros; lia.
  - destruct len as [|n]; [simpl; repeat split; intros; lia|].
    cbn [upper_bound_from].
    set (half := Nat.div2 (S n)).
    assert (Hh : (half < S n)%nat) by (apply Nat.lt_div2; lia).
    destruct (lookup_lt_is_Some_2 l (first + half)) as [x Hx]; [lia|].
    rewrite Hx. destruct (Z.ltb_spec v x) as [Hlt|Hge].
    + destruct (IH first half) as [B [L R]]; [lia | lia|].
      split; [lia|]. split; [exact L|].
      intros i y Hi Hy.
      destruct (decide (i < first + half)%nat) as [Hlo|Hhi].
      * eapply R; [|exact Hy]. lia.
      * pose proof (Hs (first + half)%nat i x y ltac:(lia) Hx Hy). lia.
    + destruct (IH (S (first + half)) (S n - half - 1)%nat) as [B [L R]]; [lia | lia|].
      split; [lia|]. split.
      * intros i y Hi Hy.
        destruct (decide (i ≤ first + half)%nat) as [Hlo|Hhi].
        -- pose proof (Hs i (first + half)%nat y x Hlo Hy Hx). lia.
        -- eapply L; [|exact Hy]. lia.
      * intros i y Hi Hy. eapply R; [|exact Hy]. lia.
Qed.

Lemma upper_bound_spec l v :
  nondecreasing l →
  (upper_bound l v ≤ length l)%nat
  ∧ (∀ i x, (i < upper_bound l v)%nat → l !! i = Some x → x ≤ v)
  ∧ (∀ i x, (upper_bound l v ≤ i)%nat → l !! i = Some x → v < x).
Proof.
  intros Hs. unfold upper_bound.
  destruct (upper_bound_from_spec l v Hs (length l) 0 (length l)) as [B [L R]]; [lia | lia|].
  split; [lia|]. split.
  - intros i x Hi Hx. eapply L; [|exact Hx]. lia.
  - intros i x Hi Hx. eapply R; [|exact Hx].
    pose proof (lookup_lt_Some _ _ _ Hx). lia.
Qed.

(** The owner of a vertex of [0, V) is the one rank whose interval holds it. *)
Lemma owner_of_make_parts V P v :
  0 ≤ V → 1 ≤ P → V * P ≤ GraphElem_max → 0 ≤ v < V →
  let r := owner_of (make_parts V P) v in
  0 ≤ r < P
  ∧ V * r / P ≤ v < V * (r + 1) / P
  ∧ ∀ r', 0 ≤ r' < P → V * r' / P ≤ v < V * (r' + 1) / P → r' = r.
Proof.
  intros HV HP Hfit Hv. unfold owner_of.
  pose proof (make_parts_nondecreasing V P HV HP Hfit) as Hs.
  destruct (upper_bound_spec (make_parts V P) v Hs) as [B [L R]].
  set (u := upper_bound (make_parts V P) v) in *.
  rewrite length_make_parts in B.
  assert (H0 : make_parts V P !! O = Some 0) by reflexivity.
  assert (HPV : make_parts V P !! Z.to_nat P = Some V).
  { rewrite lookup_make_parts by lia. f_equal. apply Z.div_mul. lia. }
  assert (Hu0 : (0 < u)%nat).
  { destruct (decide (0 < u)%nat) as [|Hn]; [assumption|].
    pose proof (R O 0 ltac:(lia) H0). lia. }
  assert (HuP : (u ≤ Z.to_nat P)%nat).
  { destruct (decide (u ≤ Z.to_nat P)%nat) as [|Hn]; [assumption|].
    pose proof (L (Z.to_nat P) V ltac:(lia) HPV). lia. }
  split; [lia|]. split.
  - split.
    + apply (L (Z.to_nat (Z.of_nat u - 1))); [lia|]. apply lookup_make_parts; lia.
    + apply (R (Z.to_nat (Z.of_nat u - 1 + 1))); [lia|]. apply lookup_make_parts; lia.
  - intros r' Hr' [Hlo Hhi].
    assert (Hlt : (Z.to_nat r' < u)%nat).
    { destruct (decide (Z.to_nat r' < u)%nat) as [|Hn]; [assumption|].
      pose proof (R (Z.to_nat r') _ ltac:(lia) (lookup_make_parts V P r' HV HP Hfit ltac:(lia))).
      lia. }
    assert (Hge : (u ≤ Z.to_nat (r' + 1))%nat).
    { destruct (decide (u ≤ Z.to_nat (r' + 1))%nat) as [|Hn]; [assumption|].
      pose proof (L (Z.to_nat (r' + 1)) _ ltac:(lia)
                    (lookup_make_parts V P (r' + 1) HV HP Hfit ltac:(lia))).
      lia. }
    lia.
Qed.

(** C7.  For [V >= 0] vertices and [P >= 1] processes, with [V * P] inside
    the 64-bit range of the product: the table has [P + 1] entries,
    [parts[i] = floor (V * i / P)], it starts at 0, ends at [V] and is
    non-decreasing; for a vertex [v] of [0, V) the lookup
    ([upper_bound] minus one) returns a rank [r] of [0, P) with
    [parts[r] <= v < parts[r+1]], the only such rank; and a vertex equal to
    the boundary that opens a non-empty interval is owned by that interval. *)
Theorem partition_table_and_owner V P :
  0 ≤ V → 1 ≤ P → V * P ≤ GraphElem_max →
  let parts := make_parts V P in
  length parts = Z.to_nat (P + 1)
  ∧ (∀ i, 0 ≤ i ≤ P → parts !! Z.to_nat i = Some (V * i / P))
  ∧ parts !! O = Some 0
  ∧ parts !! Z.to_nat P = Some V
  ∧ nondecreasing parts
  ∧ (∀ v, 0 ≤ v < V →
       let r := owner_of parts v in
       0 ≤ r < P
       ∧ (∃ lo hi, parts !! Z.to_nat r = Some lo ∧ parts !! Z.to_nat (r + 1) = Some hi
                   ∧ lo ≤ v < hi)
       ∧ (∀ r' lo hi, 0 ≤ r' < P → parts !! Z.to_nat r' = Some lo →
            parts !! Z.to_nat (r' + 1) = Some hi → lo ≤ v < hi → r' = r))
  ∧ (∀ i lo hi, 0 ≤ i < P → parts !! Z.to_nat i = Some lo →
       parts !! Z.to_nat (i + 1) = Some hi → lo < hi → owner_of parts lo = i).
Proof.
  intros HV HP Hfit parts. subst parts.
  assert (Hlook : ∀ i, 0 ≤ i ≤ P → make_parts V P !! Z.to_nat i = Some (V * i / P))
    by (intros; apply lookup_make_parts; assumption).
  assert (Hown : ∀ v, 0 ≤ v < V →
       let r := owner_of (make_parts V P) v in
       0 ≤ r < P
       ∧ (∃ lo hi, make_parts V P !! Z.to_nat r = Some lo
                   ∧ make_parts V P !! Z.to_nat (r + 1) = Some hi ∧ lo ≤ v < hi)
       ∧ (∀ r' lo hi, 0 ≤ r' < P → make_parts V P !! Z.to_nat r' = Some lo →
            make_parts V P !! Z.to_nat (r' + 1) = Some hi → lo ≤ v < hi → r' = r)).
  { intros v Hv. destruct (owner_of_make_parts V P v HV HP Hfit Hv) as [Hr [Hin Huniq]].
    split; [exact Hr|]. split.
    - eexists _, _. split; [apply Hlook; lia|]. split; [apply Hlook; lia|]. exact Hin.
    - intros r' lo hi Hr' Hlo Hhi Hbetween.
      rewrite Hlook in Hlo by lia. rewrite Hlook in Hhi by lia.
      injection Hlo as <-. injection Hhi as <-. apply Huniq; assumption. }
  split; [rewrite length_make_parts; lia|].
  split; [exact Hlook|].
  split; [reflexivity|].
  split; [rewrite Hlook by lia; f_equal; apply Z.div_mul; lia|].
  split; [apply make_parts_nondecreasing; assumption|].
  split; [exact Hown|].
  intros i lo hi Hi Hlo Hhi Hlt.
  assert (Hrange : 0 ≤ lo < V).
  { pose proof Hlo as Hlo'. pose proof Hhi as Hhi'.
    rewrite Hlook in Hlo' by lia. rewrite Hlook in Hhi' by lia.
    injection Hlo' as <-. injection Hhi' as <-.
    split; [apply Z.div_pos; nia|].
    assert (V * (i + 1) / P ≤ V * P / P) by (apply Z.div_le_mono; nia).
    rewrite Z.div_mul in H by lia. lia. }
  destruct (Hown lo Hrange) as [_ [_ Huniq]].
  symmetry. apply (Huniq i lo hi); [lia | assumption | assumption | lia].
Qed.

Lemma partition_table_and_owner_witness :
  length (make_parts 10 4) = 5%nat
  ∧ make_parts 10 4 !! 4%nat = Some 10
  ∧ nondecreasing (make_parts 10 4)
  ∧ owner_of (make_parts 10 4) 5 = 2.
Proof.
  destruct (partition_table_and_owner 10 4) as (HL & Hk & H0 & HP & Hmono & Hown & Hbnd);
    [lia | lia | unfold GraphElem_max; lia |].
  split; [exact HL|]. split; [exact HP|]. split; [exact Hmono|].
  apply (Hbnd 2 5 7); [lia | reflexivity | reflexivity | lia].
Defined.

(** ** BinaryCSRWriter: the loop of bounded writes *)

Lemma wrap_u64_small z : 0 ≤ z < 2 ^ 64 → wrap_u64 z = z.
Proof. intros H. unfold wrap_u64. apply Z.mod_small, H. Qed.

(** The loop, entered with the chunk size it maintains, ends within one
    unit of fuel per [INT_MAX] bytes left and tiles what was left. *)
Lemma chunk_loop_tiles tot_bytes offset data :
  tot_bytes < 2 ^ 64 →
  ∀ fuel transf calls,
    0 ≤ transf ≤ tot_bytes →
    tot_bytes - transf ≤ Z.of_nat fuel * INT_MAX →
    ∃ more,
      chunk_loop fuel tot_bytes (offset + transf) (data + transf)
        (Z.min INT_MAX (tot_bytes - transf)) transf calls = Some (calls ++ more)
      ∧ tiles offset data more transf tot_bytes.
Proof.
  intros Htot. induction fuel as [|fuel IH]; intros transf calls Ht Hfuel.
  - assert (transf = tot_bytes) by lia. subst transf.
    exists []. simpl. rewrite Z.ltb_irrefl, app_nil_r. split; reflexivity.
  - cbn [chunk_loop]. destruct (Z.ltb_spec transf tot_bytes) as [Hlt|Hge].
    + set (chunk := Z.min INT_MAX (tot_bytes - transf)).
      assert (Hchunk : 0 < chunk ≤ tot_bytes - transf)
        by (unfold chunk, INT_MAX; lia).
      cbv zeta.
      rewrite (wrap_u64_small (transf + chunk)) by lia.
      rewrite (wrap_u64_small (tot_bytes - (transf + chunk))) by lia.
      assert (Hnext : (if tot_bytes - (transf + chunk) <? INT_MAX
                       then tot_bytes - (transf + chunk) else chunk)
                      = Z.min INT_MAX (tot_bytes - (transf + chunk))).
      { destruct (Z.ltb_spec (tot_bytes - (transf + chunk)) INT_MAX); unfold chunk; lia. }
      rewrite Hnext.
      replace (offset + transf + chunk) with (offset + (transf + chunk)) by lia.
      replace (data + transf + chunk) with (data + (transf + chunk)) by lia.
      destruct (IH (transf + chunk)
                  (calls ++ [ {| call_offset := offset + transf;
                                 call_source := data + transf;
                                 call_count := chunk |} ])) as [more [E T]].
      { lia. }
      { unfold chunk, INT_MAX in *. lia. }
      eexists (_ :: more). split.
      * rewrite E, <- app_assoc. reflexivity.
      * simpl. repeat split; try reflexivity; try lia. exact T.
    + assert (transf = tot_bytes) by lia. subst transf.
      exists []. rewrite app_nil_r. split; reflexivity.
Qed.

Lemma chunked_write_tiles tot_bytes offset data :
  INT_MAX ≤ tot_bytes < 2 ^ 64 →
  ∃ calls, chunked_write tot_bytes offset data = Some calls
         ∧ tiles offset data calls 0 tot_bytes.
Proof.
  intros H. unfold chunked_write.
  destruct (chunk_loop_tiles tot_bytes offset data (proj2 H)
              (Z.to_nat (tot_bytes / INT_MAX) + 1) 0 []) as [more [E T]].
  - unfold INT_MAX in *. lia.
  - assert (0 < INT_MAX) by (unfold INT_MAX; lia).
    pose proof (Z.mod_pos_bound tot_bytes INT_MAX H0).
    pose proof (Z.div_mod tot_bytes INT_MAX ltac:(lia)).
    assert (0 ≤ tot_bytes / INT_MAX) by (apply Z.div_pos; lia).
    rewrite Nat2Z.inj_add, Z2Nat.id by lia. nia.
  - rewrite !Z.add_0_r, Z.sub_0_r, Z.min_l in E by lia.
    exists more. split; [exact E | exact T].
Qed.

(** Writing the pieces of a tiling gives the file of one write of the
    whole range. *)
Lemma write_all_tiles mem offset data calls :
  ∀ f a b, a ≤ b → tiles offset data calls a b →
  ∀ pos, write_all mem f calls pos
         = if (offset + a <=? pos) && (pos <? offset + b)
           then Some (mem (data + (pos - offset))) else f pos.
Proof.
  induction calls as [|c rest IH]; intros f a b Hab T pos.
  - simpl in T. subst b. simpl.
    destruct (Z.leb_spec (offset + a) pos); destruct (Z.ltb_spec pos (offset + a));
      simpl; try reflexivity; lia.
  - destruct T as (Ho & Hs & Hc & Hpos & T).
    change (write_all mem f (c :: rest)) with (write_all mem (write_at mem f c) rest).
    rewrite (IH _ (a + call_count c) b) by (try exact T; lia).
    unfold write_at. rewrite Ho, Hs.
    destruct (Z.leb_spec (offset + (a + call_count c)) pos);
      destruct (Z.ltb_spec pos (offset + b));
      destruct (Z.leb_spec (offset + a) pos);
      destruct (Z.ltb_spec pos (offset + a + call_count c));
      simpl; try reflexivity; try lia.
    f_equal. f_equal. lia.
Qed.

Lemma tiles_range offset data calls :
  ∀ a b, tiles offset data calls a b → a ≤ b.
Proof.
  induction calls as [|c rest IH]; intros a b T; simpl in T; [lia|].
  destruct T as (_ & _ & _ & Hpos & T). apply IH in T. lia.
Qed.

Lemma tiles_lookup offset data calls :
  ∀ a b i c, tiles offset data calls a b → calls !! i = Some c →
  a ≤ call_offset c - offset
  ∧ call_source c - data = call_offset c - offset
  ∧ call_count c = Z.min INT_MAX (b - (call_offset c - offset))
  ∧ 0 < call_count c.
Proof.
  induction calls as [|c0 rest IH]; intros a b i c T Hc; [discriminate|].
  destruct T as (Ho & Hs & Hcnt & Hpos & T).
  destruct i as [|i]; simpl in Hc.
  - injection Hc as <-. rewrite Ho, Hs.
    replace (offset + a - offset) with a by lia. repeat split; try lia.
  - destruct (IH _ _ _ _ T Hc) as (H1 & H2 & H3 & H4). repeat split; try assumption; lia.
Qed.

Lemma tiles_increasing offset data calls :
  ∀ a b i j ci cj, tiles offset data calls a b → (i < j)%nat →
  calls !! i = Some ci → calls !! j = Some cj → call_offset ci < call_offset cj.
Proof.
  induction calls as [|c0 rest IH]; intros a b i j ci cj T Hij Hi Hj; [discriminate|].
  destruct T as (Ho & Hs & Hcnt & Hpos & T).
  destruct j as [|j]; [lia|]. simpl in Hj.
  destruct i as [|i]; simpl in Hi.
  - injection Hi as <-. destruct (tiles_lookup _ _ _ _ _ _ _ T Hj) as (H1 & _). lia.
  - apply (IH _ _ i j ci cj T); [lia | assumption | assumption].
Qed.

Lemma tiles_total offset data calls :
  ∀ a b, tiles offset data calls a b → total_count calls = b - a.
Proof.
  induction calls as [|c rest IH]; intros a b T; simpl in *; [lia|].
  destruct T as (_ & _ & _ & _ & T). rewrite (IH _ _ T). lia.
Qed.

(** Whatever the size of the payload, the calls of [write_buffer] leave the
    file as one write of the whole payload does. *)
Lemma write_buffer_refines tot_bytes offset data :
  0 ≤ tot_bytes < 2 ^ 64 →
  ∃ calls, write_buffer tot_bytes offset data = Some calls
         ∧ ∀ mem f pos, write_all mem f calls pos
                        = unbounded_write mem f tot_bytes offset data pos.
Proof.
  intros H. unfold write_buffer. destruct (Z.ltb_spec tot_bytes INT_MAX) as [Hlt|Hge].
  - eexists. split; [reflexivity|]. intros. reflexivity.
  - destruct (chunked_write_tiles tot_bytes offset data) as [calls [E T]]; [lia|].
    exists calls. split; [exact E|]. intros mem f pos.
    rewrite (write_all_tiles mem offset data calls f 0 tot_bytes) by (try exact T; lia).
    unfold unbounded_write, write_at. simpl. rewrite Z.add_0_r. reflexivity.
Qed.

(** C8.  For a payload of at least [INT_MAX] bytes (and fewer than [2^64]):
    [write_buffer] takes the chunked branch, the loop ends, and its calls
    leave every file position as the single unbounded write of the payload
    does; the calls have strictly increasing offsets, each reads the buffer
    at the distance its offset has from the start, each transfers
    [INT_MAX] bytes or, once less than that remains, the remainder (never
    zero), and the counts add up to [tot_bytes]. *)
Theorem chunked_write_refines_unbounded tot_bytes offset data :
  INT_MAX ≤ tot_bytes < 2 ^ 64 →
  ∃ calls,
    write_buffer tot_bytes offset data = Some calls
    ∧ chunked_write tot_bytes offset data = Some calls
    ∧ (∀ mem f pos, write_all mem f calls pos
                    = unbounded_write mem f tot_bytes offset data pos)
    ∧ (∀ i j ci cj, (i < j)%nat → calls !! i = Some ci → calls !! j = Some cj →
         call_offset ci < call_offset cj)
    ∧ (∀ i c, calls !! i = Some c →
         call_source c - data = call_offset c - offset
         ∧ call_count c = Z.min INT_MAX (tot_bytes - (call_offset c - offset))
         ∧ 0 < call_count c)
    ∧ total_count calls = tot_bytes.
Proof.
  intros H.
  destruct (chunked_write_tiles tot_bytes offset data H) as [calls [E T]].
  exists calls. split.
  { unfold write_buffer. destruct (Z.ltb_spec tot_bytes INT_MAX); [lia | exact E]. }
  split; [exact E|]. split.
  { intros mem f pos.
    rewrite (write_all_tiles mem offset data calls f 0 tot_bytes)
      by (try exact T; unfold INT_MAX in *; lia).
    unfold unbounded_write, write_at. simpl. rewrite Z.add_0_r. reflexivity. }
  split.
  { intros i j ci cj. apply (tiles_increasing _ _ _ _ _ _ _ _ _ T). }
  split.
  { intros i c Hc. destruct (tiles_lookup _ _ _ _ _ _ _ T Hc) as (_ & H2 & H3 & H4). auto. }
  rewrite (tiles_total _ _ _ _ _ T). lia.
Qed.

Lemma chunked_write_refines_unbounded_witness :
  INT_MAX ≤ 5000000000 < 2 ^ 64
  ∧ ∃ calls,
      write_buffer 5000000000 40 0 = Some calls
      ∧ (∀ mem f pos, write_all mem f calls pos
                      = unbounded_write mem f 5000000000 40 0 pos)
      ∧ total_count calls = 5000000000.
Proof.
  assert (H : INT_MAX ≤ 5000000000 < 2 ^ 64) by (unfold INT_MAX; lia).
  split; [exact H|].
  destruct (chunked_write_refines_unbounded 5000000000 40 0 H)
    as (calls & E & _ & Hfile & _ & _ & Hsum).
  exists calls. auto.
Defined.

(** ** LocalSorter *)

Lemma ecmp_le_key a b : ecmp_le a b ↔ key_le (edge_key a) (edge_key b).
Proof.
  unfold ecmp_le, ecmp, key_le, edge_key. simpl.
  destruct (Z.ltb_spec (i_ b) (i_ a)); destruct (Z.eqb_spec (i_ b) (i_ a));
    destruct (Z.ltb_spec (j_ b) (j_ a)); simpl; split; intros Hle;
    try reflexivity; try discriminate; lia.
Qed.

#[global] Instance key_le_trans : Transitive key_le.
Proof. intros [a1 a2] [b1 b2] [c1 c2]. unfold key_le. simpl. lia. Qed.

#[global] Instance key_le_antisymm : AntiSymm (=) key_le.
Proof.
  intros [a1 a2] [b1 b2]. unfold key_le. simpl. intros H1 H2.
  f_equal; lia.
Qed.

#[global] Instance ecmp_le_trans : Transitive ecmp_le.
Proof.
  intros a b c. rewrite !ecmp_le_key. apply key_le_trans.
Qed.

#[global] Instance ecmp_le_total : Total ecmp_le.
Proof.
  intros a b. rewrite !ecmp_le_key. unfold key_le, edge_key. simpl. lia.
Qed.

Lemma is_sorted_Sorted l : is_sorted l = true ↔ Sorted ecmp_le l.
Proof.
  induction l as [|a l IH]; [split; [constructor | reflexivity]|].
  destruct l as [|b l].
  - split; [repeat constructor | reflexivity].
  - change (is_sorted (a :: b :: l)) with (negb (ecmp b a) && is_sorted (b :: l)).
    rewrite andb_true_iff, negb_true_iff, IH. split.
    + intros [H1 H2]. constructor; [exact H2 | constructor; exact H1].
    + intros H. inversion H as [|? ? H2 H1]; subst. inversion H1; subst. split; assumption.
Qed.

Lemma merge_sort_edges_perm l : merge_sort_edges l ≡ₚ l.
Proof. apply merge_sort_Permutation. Qed.

Lemma merge_sort_edges_sorted l : is_sorted (merge_sort_edges l) = true.
Proof. apply is_sorted_Sorted, Sorted_merge_sort, _. Qed.

Section LocalSorter.

Variable std_sort : list GraphElemTuple → list GraphElemTuple.
Hypothesis std_sort_perm : ∀ l, std_sort l ≡ₚ l.
Hypothesis std_sort_sorted : ∀ l, is_sorted (std_sort l) = true.

Lemma local_sort_sorted l : is_sorted (local_sort std_sort l) = true.
Proof.
  unfold local_sort. destruct (is_sorted l) eqn:E; simpl; [exact E|].
  apply std_sort_sorted.
Qed.

Lemma local_sort_perm l : local_sort std_sort l ≡ₚ l.
Proof.
  unfold local_sort. destruct (is_sorted l); simpl; [reflexivity|].
  apply std_sort_perm.
Qed.

Lemma local_sort_length l : length (local_sort std_sort l) = length l.
Proof. apply Permutation_length, local_sort_perm. Qed.

(** C9, amended.  For a sorting routine that returns a permutation of its
    input in comparator order: a sequence already in order is left as it is,
    any other is sorted; the result is in order and a permutation of the
    input; two permutations of the same elements end with the same
    (source, destination) at every position, and with the same sequence,
    weights included, when edges with equal (source, destination) are equal. *)
Theorem local_sort_order_determined l1 l2 :
  l1 ≡ₚ l2 →
  (is_sorted l1 = true → local_sort std_sort l1 = l1)
  ∧ (is_sorted l1 = false → local_sort std_sort l1 = std_sort l1)
  ∧ is_sorted (local_sort std_sort l1) = true
  ∧ local_sort std_sort l1 ≡ₚ l1
  ∧ edge_key <$> local_sort std_sort l1 = edge_key <$> local_sort std_sort l2
  ∧ ((∀ a b, a ∈ l1 → b ∈ l1 → edge_key a = edge_key b → a = b) →
     local_sort std_sort l1 = local_sort std_sort l2).
Proof.
  intros Hp.
  split; [intros E; unfold local_sort; rewrite E; reflexivity|].
  split; [intros E; unfold local_sort; rewrite E; reflexivity|].
  split; [apply local_sort_sorted|].
  split; [apply local_sort_perm|].
  assert (Hpp : local_sort std_sort l1 ≡ₚ local_sort std_sort l2).
  { rewrite !local_sort_perm. exact Hp. }
  pose proof (proj1 (is_sorted_Sorted _) (local_sort_sorted l1)) as S1.
  pose proof (proj1 (is_sorted_Sorted _) (local_sort_sorted l2)) as S2.
  split.
  - apply (Sorted_unique key_le).
    + eapply Sorted_fmap; [|exact S1]. intros x y. apply ecmp_le_key.
    + eapply Sorted_fmap; [|exact S2]. intros x y. apply ecmp_le_key.
    + apply fmap_Permutation, Hpp.
  - intros Hinj. apply (Sorted_unique_strong ecmp_le); [|exact S1|exact S2|exact Hpp].
    intros x1 x2 H1 H2 R12 R21.
    apply Hinj.
    + rewrite <- (local_sort_perm l1). exact H1.
    + rewrite Hp, <- (local_sort_perm l2). exact H2.
    + apply ecmp_le_key in R12, R21. apply (anti_symm key_le); assumption.
Qed.

End LocalSorter.

Lemma local_sort_order_determined_witness :
  let a := {| i_ := 0; j_ := 1; w_ := {| negative := false; mant := 1; expo := 0 |} |} in
  let b := {| i_ := 1; j_ := 0; w_ := {| negative := false; mant := 25; expo := -1 |} |} in
  edge_key <$> local_sort merge_sort_edges [b; a] = edge_key <$> local_sort merge_sort_edges [a; b]
  ∧ local_sort merge_sort_edges [b; a] = local_sort merge_sort_edges [a; b].
Proof.
  intros a b.
  destruct (local_sort_order_determined merge_sort_edges merge_sort_edges_perm
              merge_sort_edges_sorted [b; a] [a; b]) as (_ & _ & _ & _ & Hk & Hfull).
  - apply Permutation_swap.
  - split; [exact Hk|]. apply Hfull.
    intros x y Hx Hy Hxy.
    apply list_elem_of_In in Hx, Hy. simpl in Hx, Hy.
    destruct Hx as [<-|[<-|[]]]; destruct Hy as [<-|[<-|[]]];
      try reflexivity; discriminate Hxy.
Defined.

(** C9, as stated, fails: two edges with the same end points and different
    weights are in order either way round, so both arrangements skip the
    sort and stay different. *)
Lemma local_sort_weights_counterexample :
  ∃ l1 l2 : list GraphElemTuple,
    l1 ≡ₚ l2
    ∧ ∀ std_sort, local_sort std_sort l1 ≠ local_sort std_sort l2.
Proof.
  exists [ {| i_ := 0; j_ := 1; w_ := {| negative := false; mant := 1; expo := 0 |} |};
           {| i_ := 0; j_ := 1; w_ := {| negative := false; mant := 2; expo := 0 |} |} ],
         [ {| i_ := 0; j_ := 1; w_ := {| negative := false; mant := 2; expo := 0 |} |};
           {| i_ := 0; j_ := 1; w_ := {| negative := false; mant := 1; expo := 0 |} |} ].
  split; [apply Permutation_swap|].
  intros std_sort. unfold local_sort. simpl. discriminate.
Qed.

(** ** The conversion as a whole *)

Lemma wrap_u64_range z : 0 ≤ wrap_u64 z < 2 ^ 64.
Proof. unfold wrap_u64. apply Z.mod_pos_bound. lia. Qed.

(** A write of a byte count that fits the unsigned 64-bit counter always
    completes. *)
Lemma write_buffer_total z offset data : is_Some (write_buffer (wrap_u64 z) offset data).
Proof.
  destruct (write_buffer_refines (wrap_u64 z) offset data (wrap_u64_range z)) as [c [E _]].
  rewrite E. eauto.
Qed.

Lemma write_table_inv V ec tw :
  write_table V ec = Some tw →
  wr_rank tw = O
  ∧ wr_offset tw = 2 * sizeof_GraphElem
  ∧ wr_bytes tw = wrap_u64 (V * sizeof_GraphElem)
  ∧ wr_buffer tw = ElemBuffer ec
  ∧ write_buffer (wr_bytes tw) (wr_offset tw) 0 = Some (wr_calls tw).
Proof.
  unfold write_table. intros H.
  destruct (write_buffer _ _ _) as [calls|] eqn:E; [|discriminate].
  simpl in H. injection H as <-. simpl. repeat split; try reflexivity. exact E.
Qed.

Lemma write_table_total V ec : is_Some (write_table V ec).
Proof.
  unfold write_table.
  destruct (write_buffer_total (V * sizeof_GraphElem) (2 * sizeof_GraphElem) 0) as [c E].
  rewrite E. simpl. eauto.
Qed.

Section ConvertFacts.

Variable std_sort : list GraphElemTuple → list GraphElemTuple.
Variable Edge_default : Edge.
Variable indexOneBased : bool.

Lemma write_edges_inv V counts rank received sorted x :
  write_edges Edge_default V counts rank received sorted = Some x →
  wr_rank x = rank
  ∧ wr_offset x = 2 * sizeof_GraphElem + (V + 1) * sizeof_GraphElem
                  + exscan counts rank * sizeof_Edge
  ∧ wr_bytes x = wrap_u64 (Z.of_nat (length received) * sizeof_Edge)
  ∧ wr_buffer x = EdgeBuffer (make_csrCols Edge_default (length received) sorted)
  ∧ write_buffer (wr_bytes x) (wr_offset x) 0 = Some (wr_calls x).
Proof.
  unfold write_edges. intros H.
  destruct (write_buffer _ _ _) as [calls|] eqn:E; [|discriminate].
  simpl in H. injection H as <-. simpl. repeat split; try reflexivity. exact E.
Qed.

Lemma write_edges_total V counts rank received sorted :
  is_Some (write_edges Edge_default V counts rank received sorted).
Proof.
  unfold write_edges.
  destruct (write_buffer_total (Z.of_nat (length received) * sizeof_Edge)
              (2 * sizeof_GraphElem + (V + 1) * sizeof_GraphElem
               + exscan counts rank * sizeof_Edge) 0) as [c E].
  rewrite E. simpl. eauto.
Qed.

(** What a completed conversion is made of. *)
Lemma convert_inv ds out :
  convert std_sort Edge_default indexOneBased ds = Some out →
  let n := length ds in
  let gV := global_numVertices indexOneBased ds in
  let pts := make_parts gV (Z.of_nat n) in
  ∃ spreads,
    mapM (spread_local gV n pts) ds = Some spreads
    ∧ globalNumVertices out = gV
    ∧ globalNumEdges out = global_numEdges ds
    ∧ parts out = pts
    ∧ outgoing out = snd <$> spreads
    ∧ rredata out = local_sort std_sort <$> (alltoallv (snd <$> spreads) <$> seq 0 n)
    ∧ edgeCount out
      = local_prefix_sum gV
          (reduce_sum (Z.to_nat gV) (default [] (head (fst <$> spreads))) (fst <$> spreads))
    ∧ header_writes out = [write_scalar 0 gV; write_scalar sizeof_GraphElem (global_numEdges ds)]
    ∧ write_table gV (edgeCount out) = Some (table_write out)
    ∧ mapM (fun k =>
              write_edges Edge_default gV
                ((fun r => Z.of_nat (length r)) <$> (alltoallv (snd <$> spreads) <$> seq 0 n))
                k
                (default [] ((alltoallv (snd <$> spreads) <$> seq 0 n) !! k))
                (default [] ((local_sort std_sort
                                <$> (alltoallv (snd <$> spreads) <$> seq 0 n)) !! k)))
           (seq 0 n)
      = Some (edge_writes out).
Proof.
  intros H n gV pts. subst n gV pts. unfold convert in H.
  destruct (mapM _ ds) as [spreads|] eqn:Es; [|discriminate]. simpl in H.
  destruct (mpi_counts_fit _ _ _) eqn:Ef; [|discriminate].
  destruct (write_table _ _) as [tw|] eqn:Et; [|discriminate]. simpl in H.
  destruct (mapM _ (seq 0 (length ds))) as [ews|] eqn:Ee; [|discriminate]. simpl in H.
  injection H as <-. exists spreads. simpl. repeat split; try reflexivity; assumption.
Qed.

(** In a completed conversion the counts handed to MPI are [int]s. *)
Lemma convert_counts_fit ds out :
  convert std_sort Edge_default indexOneBased ds = Some out →
  mpi_counts_fit (globalNumVertices out) (outgoing out)
    (alltoallv (outgoing out) <$> seq 0 (length ds)) = true.
Proof.
  intros H. unfold convert in H.
  destruct (mapM _ ds) as [spreads|] eqn:Es; [|discriminate]. simpl in H.
  destruct (mpi_counts_fit _ _ _) eqn:Ef; [|discriminate].
  destruct (write_table _ _) as [tw|] eqn:Et; [|discriminate]. simpl in H.
  destruct (mapM _ (seq 0 (length ds))) as [ews|] eqn:Ee; [|discriminate]. simpl in H.
  injection H as <-. simpl. exact Ef.
Qed.

Lemma convert_vertices_int ds out :
  convert std_sort Edge_default indexOneBased ds = Some out →
  0 ≤ globalNumVertices out ≤ INT_MAX.
Proof.
  intros H. apply convert_counts_fit in H. unfold mpi_counts_fit, int_count in H.
  apply andb_true_iff in H. destruct H as [_ H].
  apply andb_true_iff in H. destruct H as [H1 H2].
  apply Z.leb_le in H1, H2. lia.
Qed.

(** The conversion completes as soon as the spreading loop of every
    process stays inside its vectors and the counts handed to MPI fit. *)
Lemma convert_runs ds spreads :
  mapM (spread_local (global_numVertices indexOneBased ds) (length ds)
          (make_parts (global_numVertices indexOneBased ds) (Z.of_nat (length ds)))) ds
  = Some spreads →
  mpi_counts_fit (global_numVertices indexOneBased ds) (snd <$> spreads)
    (alltoallv (snd <$> spreads) <$> seq 0 (length ds)) = true →
  is_Some (convert std_sort Edge_default indexOneBased ds).
Proof.
  intros Es Ef. unfold convert. rewrite Es. simpl. rewrite Ef.
  destruct (write_table_total (global_numVertices indexOneBased ds)
    (local_prefix_sum (global_numVertices indexOneBased ds)
       (reduce_sum (Z.to_nat (global_numVertices indexOneBased ds))
          (default [] (head (fst <$> spreads))) (fst <$> spreads)))) as [tw Et].
  rewrite Et. simpl.
  match goal with |- is_Some (mapM ?f ?l ≫= _) =>
    destruct (mapM_is_Some_2 f l) as [ews Ee] end.
  { apply Forall_forall. intros k _. apply write_edges_total. }
  rewrite Ee. simpl. eauto.
Qed.

Lemma convert_undefined ds :
  mapM (spread_local (global_numVertices indexOneBased ds) (length ds)
          (make_parts (global_numVertices indexOneBased ds) (Z.of_nat (length ds)))) ds
  = None →
  convert std_sort Edge_default indexOneBased ds = None.
Proof. intros Es. unfold convert. rewrite Es. reflexivity. Qed.

End ConvertFacts.

(** ** BinaryCSRWriter: where the edge records go *)

Section EdgeWrites.

Variable std_sort : list GraphElemTuple → list GraphElemTuple.
Variable Edge_default : Edge.
Variable indexOneBased : bool.

(** The edge write of rank [k] in a completed conversion. *)
Lemma edge_write_lookup ds out k x :
  convert std_sort Edge_default indexOneBased ds = Some out →
  edge_writes out !! k = Some x →
  (k < length ds)%nat
  ∧ write_edges Edge_default (globalNumVertices out) (received_counts out (length ds)) k
      (alltoallv (outgoing out) k)
      (local_sort std_sort (alltoallv (outgoing out) k)) = Some x.
Proof.
  intros Hc Hx.
  destruct (convert_inv _ _ _ _ _ Hc) as (sp & _ & HV & _ & _ & Ho & _ & _ & _ & _ & He).
  apply mapM_Some_1 in He.
  destruct (Forall2_lookup_r _ _ _ _ _ He Hx) as (k' & Hk' & Hw).
  apply lookup_seq in Hk'. destruct Hk' as [-> Hlt]. simpl in Hw.
  split; [exact Hlt|].
  rewrite !list_lookup_fmap, lookup_seq_lt in Hw by exact Hlt. simpl in Hw.
  unfold received_counts. rewrite Ho, HV. exact Hw.
Qed.

(** C1, amended.  In a completed conversion the edge write of rank [k]
    starts at byte [16 + 8*(V+1) + 16*e] where [e] is the number of edges
    received by the lower ranks, covers [16*n] bytes for the [n] edges rank
    [k] received (a record is 16 bytes), and its calls leave the file as one
    contiguous write of these bytes does. *)
Theorem edge_write_position ds out k x :
  convert std_sort Edge_default indexOneBased ds = Some out →
  edge_writes out !! k = Some x →
  Z.of_nat (length (alltoallv (outgoing out) k)) * sizeof_Edge < 2 ^ 64 →
  wr_rank x = k
  ∧ wr_offset x = 16 + 8 * (globalNumVertices out + 1)
                  + 16 * exscan (received_counts out (length ds)) k
  ∧ wr_bytes x = 16 * Z.of_nat (length (alltoallv (outgoing out) k))
  ∧ ∃ calls, write_buffer (wr_bytes x) (wr_offset x) 0 = Some calls
           ∧ wr_calls x = calls
           ∧ ∀ mem f pos, write_all mem f calls pos
                          = unbounded_write mem f (wr_bytes x) (wr_offset x) 0 pos.
Proof.
  intros Hc Hx Hfit.
  destruct (edge_write_lookup ds out k x Hc Hx) as [Hlt Hw].
  destruct (write_edges_inv _ _ _ _ _ _ _ Hw) as (Hr & Hoff & Hb & _ & Hcalls).
  assert (Hbytes : wr_bytes x = 16 * Z.of_nat (length (alltoallv (outgoing out) k))).
  { rewrite Hb, wrap_u64_small; [unfold sizeof_Edge, sizeof_GraphElem, sizeof_GraphWeight; lia|].
    split; [unfold sizeof_Edge, sizeof_GraphElem, sizeof_GraphWeight; lia | exact Hfit]. }
  split; [exact Hr|]. split.
  { rewrite Hoff. unfold sizeof_Edge, sizeof_GraphElem, sizeof_GraphWeight. lia. }
  split; [exact Hbytes|].
  destruct (write_buffer_refines (wr_bytes x) (wr_offset x) 0) as [calls [E R]].
  { rewrite Hb. apply wrap_u64_range. }
  exists calls. split; [exact E|]. split; [congruence | exact R].
Qed.

(** The records lying in the bytes of an edge write are the ones
    [csrCols(numEdges)] was constructed with: the appended records come
    after them, outside the bytes transferred. *)
Lemma edge_write_records ds out k x :
  convert std_sort Edge_default indexOneBased ds = Some out →
  edge_writes out !! k = Some x →
  Z.of_nat (length (alltoallv (outgoing out) k)) * sizeof_Edge < 2 ^ 64 →
  written_edges x = replicate (length (alltoallv (outgoing out) k)) Edge_default.
Proof.
  intros Hc Hx Hfit.
  destruct (edge_write_lookup ds out k x Hc Hx) as [Hlt Hw].
  destruct (write_edges_inv _ _ _ _ _ _ _ Hw) as (_ & _ & Hb & Hbuf & _).
  unfold written_edges. rewrite Hbuf, Hb.
  rewrite wrap_u64_small
    by (split; [unfold sizeof_Edge, sizeof_GraphElem, sizeof_GraphWeight; lia | exact Hfit]).
  replace (Z.to_nat (Z.of_nat (length (alltoallv (outgoing out) k)) * sizeof_Edge / sizeof_Edge))
    with (length (alltoallv (outgoing out) k)).
  - unfold make_csrCols. rewrite take_app_length'; [reflexivity|]. symmetry. apply length_replicate.
  - rewrite Z.div_mul by (unfold sizeof_Edge, sizeof_GraphElem, sizeof_GraphWeight; lia). lia.
Qed.

End EdgeWrites.

Lemma edge_write_position_witness :
  ∃ out x,
    two_rank_run = Some out
    ∧ edge_writes out !! 1%nat = Some x
    ∧ wr_rank x = 1%nat
    ∧ wr_offset x = 16 + 8 * (globalNumVertices out + 1) + 16 * exscan (received_counts out 2) 1
    ∧ wr_bytes x = 16 * Z.of_nat (length (alltoallv (outgoing out) 1)).
Proof.
  pose (d := {| edgeList := [ {| i_ := 0; j_ := 1; w_ := {| negative := false; mant := 2; expo := 0 |} |} ];
                numVertices := 1 |}).
  pose (run := convert merge_sort_edges sample_default false [d; no_data]).
  assert (Hrun : two_rank_run = run) by (vm_compute; reflexivity).
  let r := eval vm_compute in run in
  match r with
  | Some ?o =>
      pose (out := o);
      assert (Hc : convert merge_sort_edges sample_default false [d; no_data] = Some out)
        by (vm_compute; reflexivity)
  end.
  let r := eval vm_compute in (edge_writes out !! 1%nat) in
  match r with
  | Some ?y =>
      pose (x := y);
      assert (Hx : edge_writes out !! 1%nat = Some x) by (vm_compute; reflexivity)
  end.
  exists out, x. split; [rewrite Hrun; exact Hc|]. split; [exact Hx|].
  destruct (edge_write_position merge_sort_edges sample_default false [d; no_data] out
              1%nat x Hc Hx) as (H1 & H2 & H3 & _).
  - vm_compute. reflexivity.
  - auto.
Defined.

(** C1, as stated, fails: in the two-process run of one record, rank 1
    follows one 16-byte record of rank 0 and writes at byte 56, where the
    stated formula gives 48. *)
Lemma edge_offset_counterexample :
  ∃ out x,
    two_rank_run = Some out
    ∧ edge_writes out !! 1%nat = Some x
    ∧ wr_offset x = 56
    ∧ spec_edge_offset (globalNumVertices out) (exscan (received_counts out 2) 1) = 48.
Proof.
  eexists _, _. split; [vm_compute; reflexivity|]. repeat split.
Qed.

(** ** EdgeRedistributor: the spreading loop *)

Lemma vec_incr_inv v idx v' :
  vec_incr v idx = Some v' →
  0 ≤ idx < Z.of_nat (length v) ∧ v' = alter Z.succ (Z.to_nat idx) v.
Proof.
  unfold vec_incr. destruct (Z.leb_spec 0 idx); destruct (Z.ltb_spec idx (Z.of_nat (length v)));
    simpl; intros Heq; try discriminate. injection Heq as <-. split; [lia | reflexivity].
Qed.

Lemma vec_push_inv {A} (v : list (list A)) idx x v' :
  vec_push v idx x = Some v' →
  0 ≤ idx < Z.of_nat (length v) ∧ v' = alter (fun b => b ++ [x]) (Z.to_nat idx) v.
Proof.
  unfold vec_push. destruct (Z.leb_spec 0 idx); destruct (Z.ltb_spec idx (Z.of_nat (length v)));
    simpl; intros Heq; try discriminate. injection Heq as <-. split; [lia | reflexivity].
Qed.



Lemma group_total_cons {A} (g : list A) v :
  group_total (g :: v) = Z.of_nat (length g) + group_total v.
Proof. reflexivity. Qed.

Lemma group_total_push {A} (v : list (list A)) i x :
  (i < length v)%nat →
  group_total (alter (fun b => b ++ [x]) i v) = group_total v + 1.
Proof.
  revert i. induction v as [|g v IH]; intros i Hi; [simpl in Hi; lia|].
  destruct i as [|i].
  - change (alter (fun b => b ++ [x]) 0%nat (g :: v)) with ((g ++ [x]) :: v).
    rewrite !group_total_cons, length_app. simpl. lia.
  - change (alter (fun b => b ++ [x]) (S i) (g :: v))
      with (g :: alter (fun b => b ++ [x]) i v).
    simpl in Hi. rewrite !group_total_cons, IH by lia. lia.
Qed.

(** One iteration: both owners are ranks of the job, the record goes to the
    owner of its first end point and the reversed record to the owner of
    its second end point, and both end points are counted. *)
Lemma spread_step_inv parts st e st' :
  spread_step parts st e = Some st' →
  let o1 := owner_of parts (i_ e) in
  let o2 := owner_of parts (j_ e) in
  0 ≤ o1 < Z.of_nat (length st.2)
  ∧ 0 ≤ o2 < Z.of_nat (length st.2)
  ∧ 0 ≤ i_ e + 1 < Z.of_nat (length st.1)
  ∧ 0 ≤ j_ e + 1 < Z.of_nat (length st.1)
  ∧ st'.1 = alter Z.succ (Z.to_nat (j_ e + 1)) (alter Z.succ (Z.to_nat (i_ e + 1)) st.1)
  ∧ st'.2 = alter (fun b => b ++ [reversed e]) (Z.to_nat o2)
              (alter (fun b => b ++ [e]) (Z.to_nat o1) st.2).
Proof.
  unfold spread_step. intros H.
  destruct (vec_incr st.1 (i_ e + 1)) as [c1|] eqn:E1; [|discriminate]. simpl in H.
  destruct (vec_push st.2 (owner_of parts (i_ e)) e) as [g1|] eqn:E2; [|discriminate].
  simpl in H.
  destruct (vec_incr c1 (j_ e + 1)) as [c2|] eqn:E3; [|discriminate]. simpl in H.
  destruct (vec_push g1 (owner_of parts (j_ e)) (reversed e)) as [g2|] eqn:E4; [|discriminate].
  simpl in H. injection H as <-.
  apply vec_incr_inv in E1, E3. apply vec_push_inv in E2, E4.
  destruct E1 as [R1 ->], E2 as [R2 ->], E3 as [R3 ->], E4 as [R4 ->].
  rewrite length_alter in R3. rewrite length_alter in R4. simpl. repeat split; lia.
Qed.


(** The loop keeps the sizes of both vectors and adds two tuples per
    record to the groups. *)
Lemma spread_inv parts es : ∀ st st',
  spread parts st es = Some st' →
  length st'.1 = length st.1
  ∧ length st'.2 = length st.2
  ∧ group_total st'.2 = group_total st.2 + 2 * Z.of_nat (length es).
Proof.
  induction es as [|e es IH]; intros st st' H.
  - simpl in H. injection H as <-. simpl. repeat split; lia.
  - simpl in H. destruct (spread_step parts st e) as [st1|] eqn:E; [|discriminate].
    simpl in H. destruct (IH _ _ H) as (L1 & L2 & T).
    destruct (spread_step_inv _ _ _ _ E) as (R1 & R2 & _ & _ & E1 & E2).
    rewrite L1, L2, T, E1, E2, !length_alter.
    rewrite !group_total_push by (rewrite ?length_alter; lia).
    repeat split; try reflexivity. simpl length. lia.
Qed.


Lemma group_total_empty {A} n : group_total (replicate n (@nil A)) = 0.
Proof.
  induction n as [|n IH]; [reflexivity|].
  change (replicate (S n) (@nil A)) with (@nil A :: replicate n (@nil A)).
  rewrite group_total_cons, IH. reflexivity.
Qed.

(** A spreading loop that completes started from a vector of
    [globalNumVertices + 1] zeros that could be built. *)
Lemma spread_local_spread V nprocs parts d r :
  spread_local V nprocs parts d = Some r →
  0 ≤ wrap_s64 (V + 1) ≤ vector_max_size
  ∧ spread parts (replicate (Z.to_nat (wrap_s64 (V + 1))) 0, replicate nprocs [])
      (edgeList d) = Some r.
Proof.
  unfold spread_local, new_vector. intros H.
  destruct (Z.leb_spec 0 (wrap_s64 (V + 1))); [|discriminate H].
  destruct (Z.leb_spec (wrap_s64 (V + 1)) vector_max_size); [|discriminate H].
  simpl in H. split; [lia | exact H].
Qed.

Lemma vertex_count_succ V : 0 ≤ V ≤ INT_MAX → wrap_s64 (V + 1) = V + 1.
Proof.
  unfold INT_MAX. intros H. apply wrap_s64_small. unfold GraphElem_min, GraphElem_max. lia.
Qed.

(** A vertex count for which [edgeCount] cannot be built ends the run. *)
Lemma spread_local_length_error V nprocs parts d :
  0 ≤ V ≤ GraphElem_max → vector_max_size ≤ V →
  spread_local V nprocs parts d = None.
Proof.
  intros HV Hbig. unfold spread_local, new_vector.
  destruct (Z.eq_dec V GraphElem_max) as [->|Hne]; [reflexivity|].
  rewrite wrap_s64_small by (unfold GraphElem_min, GraphElem_max in *; lia).
  destruct (Z.leb_spec (V + 1) vector_max_size) as [H|H]; [lia|].
  rewrite andb_false_r. reflexivity.
Qed.

Lemma spread_local_inv V nprocs parts d r :
  spread_local V nprocs parts d = Some r →
  length r.1 = Z.to_nat (wrap_s64 (V + 1))
  ∧ length r.2 = nprocs
  ∧ group_total r.2 = local_numEdges d.
Proof.
  intros H. apply spread_local_spread in H. destruct H as [_ H].
  destruct (spread_inv _ _ _ _ H) as (L1 & L2 & T).
  simpl in L1, L2, T. rewrite length_replicate in L1. rewrite length_replicate in L2.
  rewrite group_total_empty in T. unfold local_numEdges. repeat split; lia.
Qed.

Lemma spread_local_started V nprocs parts d r :
  spread_local V nprocs parts d = Some r →
  0 ≤ V ≤ INT_MAX →
  spread parts (replicate (Z.to_nat (V + 1)) 0, replicate nprocs []) (edgeList d) = Some r.
Proof.
  intros H HV. apply spread_local_spread in H. destruct H as [_ H].
  rewrite (vertex_count_succ V HV) in H. exact H.
Qed.


(** ** EdgeRedistributor: the exchange *)

Lemma allreduce_sum_cons x xs : allreduce_sum (x :: xs) = x + allreduce_sum xs.
Proof. reflexivity. Qed.

Lemma allreduce_sum_app xs ys : allreduce_sum (xs ++ ys) = allreduce_sum xs + allreduce_sum ys.
Proof.
  induction xs as [|x xs IH]; [reflexivity|].
  rewrite <- app_comm_cons, !allreduce_sum_cons, IH. lia.
Qed.

Lemma allreduce_sum_fmap_add {A} (f g : A → Z) l :
  allreduce_sum ((fun q => f q + g q) <$> l)
  = allreduce_sum (f <$> l) + allreduce_sum (g <$> l).
Proof.
  induction l as [|a l IH]; [reflexivity|].
  rewrite !fmap_cons, !allreduce_sum_cons, IH. lia.
Qed.

Lemma allreduce_sum_fmap_zero {A} (l : list A) : allreduce_sum ((fun _ => 0) <$> l) = 0.
Proof.
  induction l as [|a l IH]; [reflexivity|].
  rewrite fmap_cons, allreduce_sum_cons, IH. reflexivity.
Qed.

Lemma group_total_by_rank {A} (o : list (list A)) :
  allreduce_sum ((fun q => Z.of_nat (length (default [] (o !! q)))) <$> seq 0 (length o))
  = group_total o.
Proof.
  induction o as [|g o IH]; [reflexivity|].
  simpl length. simpl seq. rewrite <- fmap_S_seq.
  rewrite fmap_cons, allreduce_sum_cons, <- list_fmap_compose, group_total_cons.
  unfold compose. simpl. rewrite IH. reflexivity.
Qed.

Lemma alltoallv_cons {A} (o : list (list A)) outs q :
  alltoallv (o :: outs) q = default [] (o !! q) ++ alltoallv outs q.
Proof. reflexivity. Qed.

(** The edges received by all ranks are, in number, the tuples of all
    groups of all processes. *)
Lemma received_total {A} (outs : list (list (list A))) n :
  Forall (fun o => length o = n) outs →
  allreduce_sum ((fun q => Z.of_nat (length (alltoallv outs q))) <$> seq 0 n)
  = allreduce_sum (group_total <$> outs).
Proof.
  induction 1 as [|o outs Ho _ IH].
  - apply allreduce_sum_fmap_zero.
  - rewrite fmap_cons, allreduce_sum_cons, <- IH.
    rewrite <- (group_total_by_rank o), Ho, <- allreduce_sum_fmap_add.
    f_equal. apply list_fmap_ext. intros i q _. rewrite alltoallv_cons, length_app. lia.
Qed.

Lemma global_numEdges_twice ds :
  global_numEdges ds = 2 * Z.of_nat (length (concat (edgeList <$> ds))).
Proof.
  unfold global_numEdges. induction ds as [|d ds IH]; [reflexivity|].
  rewrite !fmap_cons, allreduce_sum_cons, IH. simpl concat. rewrite length_app.
  unfold local_numEdges. lia.
Qed.

Lemma allreduce_sum_nonneg xs : Forall (fun x => 0 ≤ x) xs → 0 ≤ allreduce_sum xs.
Proof.
  induction 1 as [|x xs Hx _ IH]; [reflexivity|]. rewrite allreduce_sum_cons. lia.
Qed.

Lemma allreduce_sum_elem_le xs x :
  Forall (fun y => 0 ≤ y) xs → In x xs → x ≤ allreduce_sum xs.
Proof.
  induction 1 as [|y xs Hy Hxs IH]; intros Hx; [destruct Hx|].
  rewrite allreduce_sum_cons. pose proof (allreduce_sum_nonneg xs Hxs).
  destruct Hx as [->|Hx]; [lia|]. specialize (IH Hx). lia.
Qed.

Lemma group_total_concat {A} (o : list (list A)) :
  group_total o = Z.of_nat (length (concat o)).
Proof.
  induction o as [|g o IH]; [reflexivity|].
  rewrite group_total_cons, IH. simpl concat. rewrite length_app. lia.
Qed.

(** The groups built by the processes hold twice the tuples read. *)
Lemma group_totals_numEdges V n parts ds sp :
  Forall2 (fun d r => spread_local V n parts d = Some r) ds sp →
  allreduce_sum (group_total <$> (snd <$> sp)) = global_numEdges ds.
Proof.
  unfold global_numEdges.
  induction 1 as [|d r ds' sp' Hr _ IH]; [reflexivity|].
  destruct (spread_local_inv _ _ _ _ _ Hr) as (_ & _ & T).
  rewrite !fmap_cons, !allreduce_sum_cons, IH. simpl. rewrite T. reflexivity.
Qed.

(** When the vertex count and the number of directed edges of the job are
    [int]s, so is every count handed to MPI. *)
Lemma mpi_counts_fit_intro V parts ds sp :
  Forall2 (fun d r => spread_local V (length ds) parts d = Some r) ds sp →
  0 ≤ V ≤ INT_MAX →
  global_numEdges ds ≤ INT_MAX →
  mpi_counts_fit V (snd <$> sp) (alltoallv (snd <$> sp) <$> seq 0 (length ds)) = true.
Proof.
  intros Hs HV HE.
  pose proof (group_totals_numEdges _ _ _ _ _ Hs) as Htot.
  assert (Hpos : Forall (fun y => 0 ≤ y) (group_total <$> (snd <$> sp))).
  { apply Forall_forall. intros y Hy. apply list_elem_of_fmap in Hy.
    destruct Hy as (o & -> & _). rewrite group_total_concat. lia. }
  assert (Hlen : Forall (fun o => length o = length ds) (snd <$> sp)).
  { apply Forall_fmap. apply Forall_forall. intros r Hr.
    destruct (proj1 (list_elem_of_lookup _ _) Hr) as [i Hi].
    destruct (Forall2_lookup_r _ _ _ _ _ Hs Hi) as (d & _ & Hd).
    destruct (spread_local_inv _ _ _ _ _ Hd) as (_ & L & _). exact L. }
  unfold mpi_counts_fit, exchange_counts_fit, int_count.
  apply andb_true_iff. split; [apply andb_true_iff; split|].
  - apply forallb_forall. intros o Ho.
    assert (group_total o ≤ global_numEdges ds).
    { rewrite <- Htot. apply allreduce_sum_elem_le; [exact Hpos|].
      apply in_map. exact Ho. }
    rewrite group_total_concat in *.
    apply andb_true_iff. split; apply Z.leb_le; lia.
  - apply forallb_forall. intros r Hr.
    apply list_elem_of_In, list_elem_of_fmap in Hr. destruct Hr as (q & -> & Hq).
    assert (Z.of_nat (length (alltoallv (snd <$> sp) q)) ≤ global_numEdges ds).
    { rewrite <- Htot, <- (received_total _ _ Hlen).
      apply allreduce_sum_elem_le.
      - apply Forall_forall. intros y Hy. apply list_elem_of_fmap in Hy.
        destruct Hy as (q' & -> & _). lia.
      - apply list_elem_of_In, list_elem_of_fmap. exists q. split; [reflexivity | exact Hq]. }
    apply andb_true_iff. split; apply Z.leb_le; lia.
  - apply andb_true_iff. split; apply Z.leb_le; lia.
Qed.

Section ExchangeFacts.

Variable std_sort : list GraphElemTuple → list GraphElemTuple.
Variable Edge_default : Edge.
Variable indexOneBased : bool.



End ExchangeFacts.

(** C5.  The 1-based run of one process on the single record [1,2,1,1.5]:
    Part 1 gives the tuple (0, 1) and the local maximum 1, so
    [globalNumEdges = 2] and [globalNumVertices = 1]; the boundaries are
    [0; 1], vertex 1 gets the owner 1, which is not a rank of the job, the
    spreading loop leaves its vectors and the run has no defined outcome. *)
Theorem one_based_run_leaves_vectors std_sort Edge_default uninit :
  let d := {| edgeList := [ {| i_ := 0; j_ := 1; w_ := {| negative := false; mant := 15; expo := -1 |} |} ];
              numVertices := 1 |} in
  read_all true 1 (single_shard "1,2,1,1.5") 1 1 ORG_WEIGHT 4 uninit = Some [d]
  ∧ global_numEdges [d] = 2
  ∧ global_numVertices true [d] = 1
  ∧ make_parts 1 1 = [0; 1]
  ∧ owner_of [0; 1] 0 = 0
  ∧ owner_of [0; 1] 1 = 1
  ∧ spread_local 1 1 [0; 1] d = None
  ∧ one_based_run std_sort Edge_default uninit = None.
Proof.
  intros d. repeat split; reflexivity.
Qed.

(** ** PrefixCountBuilder and the write of the offset table *)

Lemma length_prefix_loop n : ∀ i v, length (prefix_loop n i v) = length v.
Proof.
  induction n as [|n IH]; intros i v; [reflexivity|].
  simpl. rewrite IH. destruct (v !! (i - 1)%nat); [|reflexivity].
  destruct (v !! i); [apply length_insert | reflexivity].
Qed.

Lemma length_reduce_sum count mine all : length (reduce_sum count mine all) = length mine.
Proof. unfold reduce_sum. apply length_imap. Qed.

Section TableFacts.

Variable std_sort : list GraphElemTuple → list GraphElemTuple.
Variable Edge_default : Edge.
Variable indexOneBased : bool.

(** In a completed conversion the vector of prefix counts has
    [globalNumVertices + 1] entries, and the write of the table transfers
    the first [globalNumVertices] of them: the bytes of the last entry,
    which lie before the edge records, are not written. *)
Lemma table_write_entries ds out :
  convert std_sort Edge_default indexOneBased ds = Some out →
  ds ≠ [] →
  0 ≤ globalNumVertices out →
  globalNumVertices out * sizeof_GraphElem < 2 ^ 64 →
  length (edgeCount out) = S (Z.to_nat (globalNumVertices out))
  ∧ wr_offset (table_write out) = 16
  ∧ wr_bytes (table_write out) = 8 * globalNumVertices out
  ∧ written_elems (table_write out) = take (Z.to_nat (globalNumVertices out)) (edgeCount out)
  ∧ length (written_elems (table_write out)) = Z.to_nat (globalNumVertices out).
Proof.
  intros Hc Hne HV Hfit.
  destruct (convert_inv _ _ _ _ _ Hc) as (sp & Hs & EV & _ & _ & _ & _ & Hec & _ & Ht & _).
  rewrite <- EV in Hec, Hs.
  assert (Hlen : length (edgeCount out) = S (Z.to_nat (globalNumVertices out))).
  { rewrite Hec. unfold local_prefix_sum. rewrite length_prefix_loop, length_reduce_sum.
    apply mapM_Some_1 in Hs. destruct ds as [|d ds']; [congruence|].
    inversion Hs as [|? r ? sp' Hr Hrest]; subst.
    simpl. destruct (spread_local_inv _ _ _ _ _ Hr) as (L & _).
    rewrite L, vertex_count_succ by (apply (convert_vertices_int _ _ _ _ _ Hc)). lia. }
  destruct (write_table_inv _ _ _ Ht) as (_ & Ho & Hb & Hbuf & _).
  rewrite <- EV in Hb.
  assert (Hbytes : wr_bytes (table_write out) = 8 * globalNumVertices out).
  { rewrite Hb, wrap_u64_small; unfold sizeof_GraphElem in *; lia. }
  assert (Hw : written_elems (table_write out)
               = take (Z.to_nat (globalNumVertices out)) (edgeCount out)).
  { unfold written_elems. rewrite Hbuf, Hbytes. unfold sizeof_GraphElem.
    rewrite Z.mul_comm, Z.div_mul by lia. reflexivity. }
  split; [exact Hlen|]. split; [rewrite Ho; reflexivity|]. split; [exact Hbytes|].
  split; [exact Hw|]. rewrite Hw, length_take, Hlen. lia.
Qed.

End TableFacts.

(** C2.  The offset table of two runs.  For the records [0,1] and [1,0]
    (2 vertices, 4 directed edges) the vector is [0; 2; 2], the entries
    written are [0; 2] and end at byte 32 while the edge records start at
    byte 40.  For the records [0,2], [0,2] and [0,1] (3 vertices, 6 directed
    edges) the vector is [0; 3; 4; 2] and the entries written are
    [0; 3; 4]. *)
Theorem offset_table_as_written :
  (∃ out,
     symmetric_pair_run = Some out
     ∧ globalNumVertices out = 2
     ∧ globalNumEdges out = 4
     ∧ edgeCount out = [0; 2; 2]
     ∧ written_elems (table_write out) = [0; 2]
     ∧ wr_offset (table_write out) + wr_bytes (table_write out) = 32
     ∧ wr_offset <$> edge_writes out = [40])
  ∧ (∃ out,
       star_run = Some out
       ∧ globalNumVertices out = 3
       ∧ globalNumEdges out = 6
       ∧ edgeCount out = [0; 3; 4; 2]
       ∧ written_elems (table_write out) = [0; 3; 4]).
Proof.
  split; (eexists; split; [vm_compute; reflexivity|]; repeat split).
Qed.

(** * Further properties of the conversion *)

(** ** The spreading loop stays inside its vectors only for ids in range *)

Lemma spread_in_range parts es : ∀ st st',
  spread parts st es = Some st' →
  ∀ e, In e es →
    0 ≤ owner_of parts (i_ e) < Z.of_nat (length st.2)
    ∧ 0 ≤ owner_of parts (j_ e) < Z.of_nat (length st.2)
    ∧ 0 ≤ i_ e + 1 < Z.of_nat (length st.1)
    ∧ 0 ≤ j_ e + 1 < Z.of_nat (length st.1).
Proof.
  induction es as [|a es IH]; intros st st' Hs e He; [destruct He|].
  simpl in Hs. destruct (spread_step parts st a) as [st1|] eqn:E; [|discriminate].
  simpl in Hs.
  destruct (spread_step_inv _ _ _ _ E) as (R1 & R2 & R3 & R4 & E1 & E2).
  destruct He as [<-|He]; [repeat split; lia|].
  destruct (IH _ _ Hs e He) as (Q1 & Q2 & Q3 & Q4).
  rewrite E1, E2, !length_alter in *. repeat split; lia.
Qed.

Lemma tracked_nonneg d : tracked d → 0 ≤ numVertices d.
Proof. unfold tracked. intros ->. apply max_id_ge_init. Qed.

Lemma owner_of_below_first V P v :
  0 ≤ V → 1 ≤ P → V * P ≤ GraphElem_max → v < 0 → owner_of (make_parts V P) v = -1.
Proof.
  intros HV HP Hfit Hv. unfold owner_of.
  destruct (upper_bound_spec (make_parts V P) v (make_parts_nondecreasing V P HV HP Hfit))
    as (_ & L & _).
  destruct (upper_bound (make_parts V P) v) as [|u] eqn:E; [reflexivity|].
  pose proof (L O 0 ltac:(lia) eq_refl). lia.
Qed.

Lemma owner_of_beyond_last V P v :
  0 ≤ V → 1 ≤ P → V * P ≤ GraphElem_max → V ≤ v → owner_of (make_parts V P) v = P.
Proof.
  intros HV HP Hfit Hv. unfold owner_of.
  destruct (upper_bound_spec (make_parts V P) v (make_parts_nondecreasing V P HV HP Hfit))
    as (B & _ & R).
  rewrite length_make_parts in B.
  destruct (decide (upper_bound (make_parts V P) v = S (Z.to_nat P))) as [->|Hne]; [lia|].
  assert (HPV : make_parts V P !! Z.to_nat P = Some V).
  { rewrite lookup_make_parts by lia. f_equal. apply Z.div_mul. lia. }
  pose proof (R (Z.to_nat P) V ltac:(lia) HPV). lia.
Qed.

Section OneBased.

Variable std_sort : list GraphElemTuple → list GraphElemTuple.
Variable Edge_default : Edge.

(** Under 1-based indexing no conversion with a record completes: the
    vertex count is the largest id itself, so the vertex with that id is
    counted past the end of [edgeCount] (or, when every id is negative, a
    vertex has no owner among the ranks). *)
Lemma one_based_convert_undefined ds d e :
  Forall tracked ds → In d ds → In e (edgeList d) →
  convert std_sort Edge_default true ds = None.
Proof.
  intros Htr Hd He.
  destruct (convert std_sort Edge_default true ds) as [out|] eqn:Hc; [|reflexivity].
  exfalso.
  destruct (convert_inv _ _ _ _ _ Hc) as (sp & Hs & EV & _).
  pose proof (convert_vertices_int _ _ _ _ _ Hc) as Hint. rewrite EV in Hint.
  apply mapM_Some_1 in Hs.
  set (V := global_numVertices true ds) in *.
  assert (HVdef : V = allreduce_max (numVertices <$> ds)) by reflexivity.
  assert (Hne : numVertices <$> ds ≠ []) by (destruct ds; [destruct Hd | discriminate]).
  assert (Hrange : ∀ d' e', In d' ds → In e' (edgeList d') →
            0 ≤ owner_of (make_parts V (Z.of_nat (length ds))) (i_ e')
            ∧ 0 ≤ i_ e' + 1 < Z.of_nat (Z.to_nat (V + 1))
            ∧ 0 ≤ j_ e' + 1 < Z.of_nat (Z.to_nat (V + 1))).
  { intros d' e' Hd' He'.
    apply list_elem_of_In in Hd'. destruct (proj1 (list_elem_of_lookup _ _) Hd') as [i Hi].
    destruct (Forall2_lookup_l _ _ _ _ _ Hs Hi) as (r & _ & Hr).
    apply spread_local_spread in Hr. destruct Hr as [_ Hr].
    rewrite (vertex_count_succ V Hint) in Hr.
    destruct (spread_in_range _ _ _ _ Hr e' He') as (Q1 & _ & Q3 & Q4).
    simpl in Q1, Q3, Q4. rewrite length_replicate in Q3, Q4. repeat split; lia. }
  pose proof (allreduce_max_attained _ Hne) as Hatt.
  apply list_elem_of_In, list_elem_of_fmap in Hatt. destruct Hatt as [dm [Em Hdm]].
  rewrite <- HVdef in Em. apply list_elem_of_In in Hdm.
  rewrite Forall_forall in Htr.
  pose proof (Htr dm (proj2 (list_elem_of_In _ _) Hdm)) as Htm.
  assert (HV0 : 0 ≤ V) by (rewrite Em; apply tracked_nonneg, Htm).
  unfold tracked in Htm.
  destruct (max_id_attained (edgeList dm) 0) as [E0|[em [Hem Eid]]].
  - (* every id of the job is below 1 and the count is 0 *)
    assert (V = 0) by congruence.
    destruct (Hrange d e Hd He) as (O1 & I1 & _).
    assert (i_ e = -1) by lia.
    rewrite owner_of_below_first in O1; try lia.
    + destruct ds; [destruct Hd | simpl; lia].
    + unfold GraphElem_max. lia.
  - destruct (Hrange dm em Hdm Hem) as (_ & I1 & J1).
    rewrite <- Htm, <- Em in Eid. destruct Eid; lia.
Qed.

End OneBased.

(** ** Part 1 on all processes *)

Lemma no_data_tracked : tracked no_data.
Proof. reflexivity. Qed.

(** Part 1 always completes; every rank ends with the maximum its loop
    tracked; a rank with a shard holds one tuple per newline and one more, a
    rank without holds nothing. *)
Lemma read_all_shape one nprocs dir a b wtype shardCount uninit :
  ∃ ds,
    read_all one nprocs dir a b wtype shardCount uninit = Some ds
    ∧ length ds = nprocs
    ∧ Forall tracked ds
    ∧ ∀ k d, ds !! k = Some d →
        match fileProc dir a b !! k with
        | Some sh => length (edgeList d) = S (count_newlines (contents sh))
        | None => d = no_data
        end.
Proof.
  unfold read_all. set (files := fileProc dir a b).
  set (f := fun rank => read_local one wtype shardCount (uninit rank) (files !! rank)).
  assert (Htot : ∀ k, ∃ d, f k = Some d ∧ tracked d
            ∧ match files !! k with
              | Some sh => length (edgeList d) = S (count_newlines (contents sh))
              | None => d = no_data
              end).
  { intros k. unfold f. destruct (files !! k) as [sh|].
    - destruct (read_local_shard one wtype shardCount (uninit k) sh) as (d & E & L & T).
      exists d. auto.
    - exists no_data. repeat split. }
  destruct (mapM_is_Some_2 f (seq 0 nprocs)) as [ds Hds].
  { apply Forall_forall. intros k _. destruct (Htot k) as (d & E & _). simpl. rewrite E. eauto. }
  exists ds. split; [exact Hds|].
  apply mapM_Some_1 in Hds.
  split; [rewrite <- (Forall2_length _ _ _ Hds), length_seq; reflexivity|].
  split.
  - apply Forall_forall. intros d Hd.
    destruct (proj1 (list_elem_of_lookup _ _) Hd) as [k Hk].
    destruct (Forall2_lookup_r _ _ _ _ _ Hds Hk) as (k' & Hk' & Hf).
    simpl in Hf. destruct (Htot k') as (d' & E & T & _).
    rewrite E in Hf. injection Hf as <-. exact T.
  - intros k d Hk.
    destruct (Forall2_lookup_r _ _ _ _ _ Hds Hk) as (k' & Hk' & Hf).
    apply lookup_seq in Hk'. destruct Hk' as [-> _]. simpl in Hf.
    destruct (Htot k) as (d' & E & _ & S').
    rewrite E in Hf. injection Hf as <-. exact S'.
Qed.

(** X1.  Under 1-based indexing a run in which some process has a shard
    never completes: every shard yields a tuple, and the vertex count, which
    on this path is the largest decremented id itself, is too small for the
    vertex with that id (or, when all ids are negative, for the owner
    lookup), so the spreading loop leaves its vectors. *)
Theorem one_based_run_undefined std_sort Edge_default nprocs dir a b wtype shardCount uninit :
  (1 ≤ nprocs)%nat →
  fileProc dir a b ≠ [] →
  loadParallelFileShards std_sort Edge_default true nprocs dir a b wtype shardCount uninit
  = None.
Proof.
  intros HP Hfiles. unfold loadParallelFileShards.
  destruct ((0 <=? a) && (0 <=? b) && (a <=? b)); [|reflexivity].
  destruct (read_all_shape true nprocs dir a b wtype shardCount uninit)
    as (ds & Hr & Hlen & Htr & Hshape).
  rewrite Hr. simpl.
  destruct (lookup_lt_is_Some_2 ds O) as [d Hd]; [lia|].
  pose proof (Hshape O d Hd) as Hs.
  destruct (fileProc dir a b) as [|sh files]; [congruence|]. simpl in Hs.
  destruct (edgeList d) as [|e es] eqn:Ee; [discriminate Hs|].
  apply (one_based_convert_undefined std_sort Edge_default ds d e Htr).
  - apply list_elem_of_In, list_elem_of_lookup. eauto.
  - rewrite Ee. left. reflexivity.
Qed.

Lemma one_based_run_undefined_witness :
  loadParallelFileShards merge_sort_edges sample_default true 2 (single_shard "3,7,1,0.5")
    1 1 ABS_WEIGHT 4 (fun _ _ => sample_locals weight_zero) = None.
Proof.
  apply (one_based_run_undefined _ _ 2 (single_shard "3,7,1,0.5") 1 1 ABS_WEIGHT 4).
  - lia.
  - discriminate.
Defined.

Lemma local_numEdges_no_data : local_numEdges no_data = 0.
Proof. reflexivity. Qed.

Lemma read_from_rank_total one wtype shardCount uninit files n : ∀ s ds,
  mapM (fun rank => read_local one wtype shardCount (uninit rank) (files !! rank)) (seq s n)
  = Some ds →
  allreduce_sum (local_numEdges <$> ds)
  = allreduce_sum ((fun sh => 2 * (1 + Z.of_nat (count_newlines (contents sh))))
                     <$> take n (drop s files)).
Proof.
  induction n as [|n IH]; intros s ds Hm.
  - simpl in Hm. injection Hm as <-. reflexivity.
  - apply mapM_Some_1 in Hm. simpl in Hm.
    inversion Hm as [|? d ? ds' Hd Hrest]; subst.
    apply mapM_Some_2 in Hrest. specialize (IH _ _ Hrest).
    rewrite fmap_cons, allreduce_sum_cons, IH.
    destruct (files !! s) as [sh|] eqn:Es.
    + rewrite (drop_S _ _ _ Es). simpl take. rewrite fmap_cons, allreduce_sum_cons.
      destruct (read_local_shard one wtype shardCount (uninit s) sh) as (d' & E & L & _).
      rewrite E in Hd. injection Hd as <-. unfold local_numEdges. rewrite L. lia.
    + simpl in Hd. injection Hd as <-.
      apply lookup_ge_None in Es.
      rewrite !drop_ge by lia. rewrite take_nil. reflexivity.
Qed.

(** X2.  Part 1 always completes with one entry per rank, and the edge
    count the job then agrees on is twice the tuples of the shards that got
    a rank, a shard contributing one tuple per newline of its text and one
    more: the first [nprocs] existing shards in discovery order count,
    shards beyond them are never read, and ranks beyond the shards
    contribute nothing. *)
Theorem read_all_edge_total one nprocs dir a b wtype shardCount uninit :
  ∃ ds,
    read_all one nprocs dir a b wtype shardCount uninit = Some ds
    ∧ length ds = nprocs
    ∧ global_numEdges ds
      = allreduce_sum ((fun sh => 2 * (1 + Z.of_nat (count_newlines (contents sh))))
                         <$> take nprocs (fileProc dir a b)).
Proof.
  destruct (read_all_shape one nprocs dir a b wtype shardCount uninit)
    as (ds & Hr & Hlen & _ & _).
  exists ds. split; [exact Hr|]. split; [exact Hlen|].
  unfold global_numEdges. unfold read_all in Hr.
  rewrite (read_from_rank_total _ _ _ _ _ _ _ _ Hr), drop_0. reflexivity.
Qed.

(** ** A run in which no process reads a record *)

Lemma allreduce_max_zeros xs : (∀ x, In x xs → x = 0) → allreduce_max xs = 0.
Proof.
  intros H. destruct xs as [|x xs]; [reflexivity|].
  apply H, allreduce_max_attained. discriminate.
Qed.

Lemma allreduce_sum_zeros xs : (∀ x, In x xs → x = 0) → allreduce_sum xs = 0.
Proof.
  induction xs as [|x xs IH]; intros H; simpl; [reflexivity|].
  rewrite (H x) by (left; reflexivity). rewrite IH; [reflexivity|].
  intros y Hy. apply H. right. exact Hy.
Qed.

(** The conversion of processes that hold nothing. *)
Lemma convert_no_data std_sort Edge_default ds :
  Forall (λ d, d = no_data) ds →
  ∃ out,
    convert std_sort Edge_default false ds = Some out
    ∧ globalNumVertices out = 1
    ∧ globalNumEdges out = 0
    ∧ header_writes out = [write_scalar 0 1; write_scalar sizeof_GraphElem 0].
Proof.
  intros Hno. rewrite Forall_forall in Hno.
  assert (HV : global_numVertices false ds = 1).
  { unfold global_numVertices. simpl. rewrite allreduce_max_zeros; [reflexivity|].
    intros x Hx. apply list_elem_of_In, list_elem_of_fmap in Hx.
    destruct Hx as [d [-> Hd]]. rewrite (Hno d Hd). reflexivity. }
  assert (HE : global_numEdges ds = 0).
  { unfold global_numEdges. apply allreduce_sum_zeros.
    intros x Hx. apply list_elem_of_In, list_elem_of_fmap in Hx.
    destruct Hx as [d [-> Hd]]. rewrite (Hno d Hd). reflexivity. }
  destruct (mapM_is_Some_2
              (spread_local (global_numVertices false ds) (length ds)
                 (make_parts (global_numVertices false ds) (Z.of_nat (length ds)))) ds)
    as [spreads Es].
  { apply Forall_forall. intros d Hd. rewrite (Hno d Hd), HV. simpl. eauto. }
  destruct (convert_runs std_sort Edge_default false ds spreads Es) as [out Eo].
  { eapply mpi_counts_fit_intro; [apply mapM_Some_1, Es | |].
    - rewrite HV. unfold INT_MAX. lia.
    - rewrite HE. unfold INT_MAX. lia. }
  exists out. split; [exact Eo|].
  destruct (convert_inv _ _ _ _ _ Eo) as (sp & _ & H1 & H2 & _ & _ & _ & _ & H3 & _).
  rewrite H1, H2, H3, HV, HE. repeat split; reflexivity.
Qed.

(** C10.  A 0-based run whose assertions hold.  When no shard of the tile
    range exists, the run completes and its two header writes put
    [globalNumVertices = 1] at byte 0 and [globalNumEdges = 0] at byte 8,
    eight bytes each.  But a process that has a shard appends a tuple even
    when the shard holds no record: whenever a shard exists, a completed run
    declares two edges at least, and the run of one process on an empty
    shard [1__1.csv], with loop variables that hold zeros, declares
    [globalNumVertices = 1] and [globalNumEdges = 2]. *)
Theorem no_records_header std_sort Edge_default nprocs dir a b wtype shardCount uninit :
  0 ≤ a → a ≤ b →
  (fileProc dir a b = [] →
   ∃ out,
     loadParallelFileShards std_sort Edge_default false nprocs dir a b wtype shardCount uninit
     = Some out
     ∧ globalNumVertices out = 1
     ∧ globalNumEdges out = 0
     ∧ header_writes out
       = [ {| wr_rank := 0; wr_offset := 0; wr_bytes := 8; wr_buffer := ElemBuffer [1];
              wr_calls := [ {| call_offset := 0; call_source := 0; call_count := 8 |} ] |};
           {| wr_rank := 0; wr_offset := 8; wr_bytes := 8; wr_buffer := ElemBuffer [0];
              wr_calls := [ {| call_offset := 8; call_source := 0; call_count := 8 |} ] |} ]
     ∧ written_elems <$> header_writes out = [[1]; [0]])
  ∧ (∀ out,
       (1 ≤ nprocs)%nat → fileProc dir a b ≠ [] →
       loadParallelFileShards std_sort Edge_default false nprocs dir a b wtype shardCount
         uninit = Some out →
       2 ≤ globalNumEdges out)
  ∧ ∃ out,
      loadParallelFileShards std_sort Edge_default false 1 (single_shard EmptyString) 1 1
        wtype shardCount (fun _ _ => sample_locals weight_zero) = Some out
      ∧ globalNumVertices out = 1
      ∧ globalNumEdges out = 2
      ∧ header_writes out
        = [ {| wr_rank := 0; wr_offset := 0; wr_bytes := 8; wr_buffer := ElemBuffer [1];
               wr_calls := [ {| call_offset := 0; call_source := 0; call_count := 8 |} ] |};
            {| wr_rank := 0; wr_offset := 8; wr_bytes := 8; wr_buffer := ElemBuffer [2];
               wr_calls := [ {| call_offset := 8; call_source := 0; call_count := 8 |} ] |} ].
Proof.
  intros Ha Hab.
  assert (Hassert : (0 <=? a) && (0 <=? b) && (a <=? b) = true).
  { apply andb_true_iff. split; [apply andb_true_iff; split|]; apply Z.leb_le; lia. }
  destruct (read_all_shape false nprocs dir a b wtype shardCount uninit)
    as (ds & Hr & Hlen & Htr & Hshape).
  split; [|split].
  - intros Hfiles.
    assert (Hno : Forall (λ d, d = no_data) ds).
    { apply Forall_forall. intros d Hd.
      destruct (proj1 (list_elem_of_lookup _ _) Hd) as [k Hk].
      pose proof (Hshape k d Hk) as Hs. rewrite Hfiles in Hs. exact Hs. }
    destruct (convert_no_data std_sort Edge_default ds Hno) as (out & Hc & HV & HE & Hh).
    exists out. unfold loadParallelFileShards. rewrite Hassert, Hr. simpl.
    split; [exact Hc|]. split; [exact HV|]. split; [exact HE|].
    rewrite Hh. split; reflexivity.
  - intros out HP Hfiles Hrun. unfold loadParallelFileShards in Hrun.
    rewrite Hassert, Hr in Hrun. simpl in Hrun.
    destruct (convert_inv _ _ _ _ _ Hrun) as (sp & _ & _ & HE & _).
    rewrite HE. unfold global_numEdges.
    destruct (lookup_lt_is_Some_2 ds O) as [d Hd]; [lia|].
    pose proof (Hshape O d Hd) as Hs.
    destruct (fileProc dir a b) as [|sh files]; [congruence|]. simpl in Hs.
    assert (Hd2 : 2 ≤ local_numEdges d) by (unfold local_numEdges; lia).
    assert (local_numEdges d ≤ allreduce_sum (local_numEdges <$> ds)); [|lia].
    apply allreduce_sum_elem_le.
    + apply Forall_forall. intros y Hy. apply list_elem_of_fmap in Hy.
      destruct Hy as (d' & -> & _). unfold local_numEdges. lia.
    + apply in_map, list_elem_of_In, list_elem_of_lookup. eauto.
  - destruct wtype; eexists; (split; [vm_compute; reflexivity|]);
      repeat split; reflexivity.
Qed.

Lemma no_records_header_witness :
  (∃ out,
     loadParallelFileShards merge_sort_edges sample_default false 2 (fun _ _ => None) 1 2
       ORG_WEIGHT 4 (fun _ _ => sample_locals weight_zero) = Some out
     ∧ globalNumVertices out = 1
     ∧ globalNumEdges out = 0
     ∧ written_elems <$> header_writes out = [[1]; [0]])
  ∧ ∃ out,
      loadParallelFileShards merge_sort_edges sample_default false 1
        (single_shard EmptyString) 1 1 ORG_WEIGHT 4 (fun _ _ => sample_locals weight_zero)
      = Some out
      ∧ globalNumVertices out = 1
      ∧ globalNumEdges out = 2.
Proof.
  destruct (no_records_header merge_sort_edges sample_default 2 (fun _ _ => None) 1 2
              ORG_WEIGHT 4 (fun _ _ => sample_locals weight_zero))
    as (H1 & _ & out2 & R2 & V2 & E2 & _); [lia | lia |].
  destruct (H1 eq_refl) as (out1 & R1 & V1 & E1 & _ & W1).
  split.
  - exists out1. split; [exact R1|]. split; [exact V1|]. split; [exact E1 | exact W1].
  - exists out2. split; [exact R2|]. split; [exact V2 | exact E2].
Defined.

(** ** ShardAssigner *)

Lemma seqZ_StronglySorted m n : StronglySorted Z.lt (seqZ m n).
Proof.
  remember (Z.to_nat n) as k eqn:Hk. revert m n Hk.
  induction k as [|k IH]; intros m n Hk.
  - rewrite seqZ_nil by lia. constructor.
  - rewrite seqZ_cons by lia. constructor.
    + apply IH. lia.
    + apply Forall_forall. intros x Hx. apply elem_of_seqZ in Hx. lia.
Qed.

Lemma row_shards_spec dir ci (cols : list Z) sh :
  In sh (flat_map (fun cj => match dir ci cj with
                             | Some text => [mkShard ci cj text]
                             | None => []
                             end) cols)
  ↔ rowTile sh = ci ∧ In (colTile sh) cols ∧ dir ci (colTile sh) = Some (contents sh).
Proof.
  rewrite in_flat_map. split.
  - intros (cj & Hcj & Hin). destruct (dir ci cj) as [text|] eqn:E; [|destruct Hin].
    destruct Hin as [<-|[]]. simpl. auto.
  - intros (Hr & Hc & Hd). exists (colTile sh). split; [exact Hc|].
    rewrite Hd. left. destruct sh; simpl in *. congruence.
Qed.

Lemma row_shards_sorted dir ci (cols : list Z) :
  StronglySorted Z.lt cols →
  StronglySorted tile_lt
    (flat_map (fun cj => match dir ci cj with
                         | Some text => [mkShard ci cj text]
                         | None => []
                         end) cols).
Proof.
  induction 1 as [|cj cols Hs IH Hall]; [constructor|].
  simpl. destruct (dir ci cj) as [text|]; [|exact IH].
  simpl. constructor; [exact IH|].
  apply Forall_forall. intros sh Hsh. apply list_elem_of_In, row_shards_spec in Hsh.
  destruct Hsh as (Hr & Hc & _). rewrite Forall_forall in Hall.
  right. simpl. split; [congruence|]. apply Hall, list_elem_of_In, Hc.
Qed.

Lemma all_shards_sorted dir (rows cols : list Z) :
  StronglySorted Z.lt rows → StronglySorted Z.lt cols →
  StronglySorted tile_lt
    (flat_map (fun ci =>
       flat_map (fun cj => match dir ci cj with
                           | Some text => [mkShard ci cj text]
                           | None => []
                           end) cols) rows).
Proof.
  intros Hrows Hcols. induction Hrows as [|ci rows Hs IH Hall]; [constructor|].
  simpl. apply StronglySorted_app. split; [|split; [apply row_shards_sorted, Hcols | exact IH]].
  intros s1 s2 H1 H2.
  apply list_elem_of_In, row_shards_spec in H1. destruct H1 as (R1 & _).
  apply list_elem_of_In, in_flat_map in H2. destruct H2 as (ci' & Hci' & H2).
  apply row_shards_spec in H2. destruct H2 as (R2 & _).
  rewrite Forall_forall in Hall. left. rewrite R1, R2.
  apply Hall, list_elem_of_In, Hci'.
Qed.

#[global] Instance tile_lt_irrefl : Irreflexive tile_lt.
Proof. intros s [H|[_ H]]; lia. Qed.

(** X3.  Shard discovery lists exactly the shards of the tile range that
    exist in the directory, with their text, in strictly increasing
    row-major order; so no shard is listed twice and two ranks never get the
    same shard. *)
Theorem fileProc_row_major dir a b :
  (∀ sh, In sh (fileProc dir a b)
         ↔ a ≤ rowTile sh ≤ b ∧ a ≤ colTile sh ≤ b
           ∧ dir (rowTile sh) (colTile sh) = Some (contents sh))
  ∧ StronglySorted tile_lt (fileProc dir a b)
  ∧ NoDup (fileProc dir a b)
  ∧ (∀ r1 r2 sh, fileProc dir a b !! r1 = Some sh → fileProc dir a b !! r2 = Some sh → r1 = r2).
Proof.
  assert (Hsorted : StronglySorted tile_lt (fileProc dir a b)).
  { unfold fileProc. apply all_shards_sorted; apply seqZ_StronglySorted. }
  assert (Hnodup : NoDup (fileProc dir a b)).
  { clear -Hsorted. induction Hsorted as [|x l Hs IH Hall]; constructor; [|exact IH].
    intros Hx. rewrite Forall_forall in Hall. apply (irreflexivity tile_lt x), Hall, Hx. }
  split; [|split; [exact Hsorted | split; [exact Hnodup|]]].
  - intros sh. unfold fileProc. rewrite in_flat_map. split.
    + intros (ci & Hci & Hin). apply row_shards_spec in Hin. destruct Hin as (Hr & Hc & Hd).
      apply list_elem_of_In, elem_of_seqZ in Hci, Hc. subst ci. repeat split; try lia. exact Hd.
    + intros (Hr & Hc & Hd). exists (rowTile sh). split.
      * apply list_elem_of_In, elem_of_seqZ. lia.
      * apply row_shards_spec. split; [reflexivity|]. split; [|exact Hd].
        apply list_elem_of_In, elem_of_seqZ. lia.
  - intros r1 r2 sh H1 H2. apply (NoDup_lookup _ _ _ _ Hnodup H1 H2).
Qed.

(** ** EdgeRedistributor: who receives what *)

Lemma groups_owned_push parts g o x :
  groups_owned parts g → 0 ≤ o → owner_of parts (i_ x) = o →
  groups_owned parts (alter (fun b => b ++ [x]) (Z.to_nat o) g).
Proof.
  intros Hg Ho Hx q grp t Hq Ht. rewrite list_lookup_alter in Hq.
  destruct (decide (Z.to_nat o = q)) as [<-|Hne].
  - destruct (g !! Z.to_nat o) as [grp0|] eqn:E; [|discriminate]. simpl in Hq.
    injection Hq as <-. apply elem_of_app in Ht. destruct Ht as [Ht|Ht].
    + apply (Hg _ _ _ E Ht).
    + apply list_elem_of_singleton in Ht. subst t. lia.
  - apply (Hg _ _ _ Hq Ht).
Qed.

Lemma spread_owned parts es : ∀ st st',
  spread parts st es = Some st' → groups_owned parts st.2 → groups_owned parts st'.2.
Proof.
  induction es as [|e es IH]; intros st st' Hs Hg.
  - simpl in Hs. injection Hs as <-. exact Hg.
  - simpl in Hs. destruct (spread_step parts st e) as [st1|] eqn:E; [|discriminate].
    simpl in Hs. apply (IH _ _ Hs).
    destruct (spread_step_inv _ _ _ _ E) as (R1 & R2 & _ & _ & _ & E2). rewrite E2.
    apply groups_owned_push; [|lia|reflexivity].
    apply groups_owned_push; [exact Hg|lia|reflexivity].
Qed.

Lemma elem_of_alltoallv {A} (outs : list (list (list A))) q (t : A) :
  t ∈ alltoallv outs q → ∃ out grp, out ∈ outs ∧ out !! q = Some grp ∧ t ∈ grp.
Proof.
  unfold alltoallv. intros Ht. apply list_elem_of_In, in_concat in Ht.
  destruct Ht as (grp & Hgrp & Ht). apply list_elem_of_In in Ht, Hgrp.
  apply list_elem_of_fmap in Hgrp.
  destruct Hgrp as (out & -> & Hout). exists out.
  destruct (out !! q) as [g|] eqn:E; simpl in Ht.
  - exists g. auto.
  - apply elem_of_nil in Ht. destruct Ht.
Qed.

Section Exchange.

Variable std_sort : list GraphElemTuple → list GraphElemTuple.
Variable Edge_default : Edge.
Variable indexOneBased : bool.

(** X4.  In a completed conversion every edge a rank receives has its
    source vertex owned by that rank, as the ownership lookup over the
    partition table of the run decides it, and the rank is one of the job. *)
Theorem received_edges_owned ds out q t :
  convert std_sort Edge_default indexOneBased ds = Some out →
  t ∈ alltoallv (outgoing out) q →
  owner_of (parts out) (i_ t) = Z.of_nat q ∧ (q < length ds)%nat.
Proof.
  intros Hc Ht.
  destruct (convert_inv _ _ _ _ _ Hc) as (sp & Hs & _ & _ & Hp & Ho & _).
  rewrite Ho in Ht. apply elem_of_alltoallv in Ht.
  destruct Ht as (g & grp & Hg & Hq & Ht).
  apply list_elem_of_fmap in Hg. destruct Hg as (r & -> & Hr).
  apply mapM_Some_1 in Hs.
  destruct (proj1 (list_elem_of_lookup _ _) Hr) as [i Hi].
  destruct (Forall2_lookup_r _ _ _ _ _ Hs Hi) as (d & _ & Hd).
  destruct (spread_local_inv _ _ _ _ _ Hd) as (_ & L & _).
  split.
  - rewrite Hp. apply spread_local_spread in Hd. destruct Hd as [_ Hd].
    apply (spread_owned _ _ _ _ Hd) with (grp := grp); [|exact Hq|exact Ht].
    intros q' grp' t' Hq' Ht'. simpl in Hq'.
    apply lookup_replicate in Hq'. destruct Hq' as [-> _].
    apply elem_of_nil in Ht'. destruct Ht'.
  - apply lookup_lt_Some in Hq. lia.
Qed.

End Exchange.

Lemma received_edges_owned_witness :
  ∃ out, two_rank_run = Some out
    ∧ alltoallv (outgoing out) 1 = [ {| i_ := 1; j_ := 0; w_ := {| negative := false; mant := 2; expo := 0 |} |} ]
    ∧ owner_of (parts out) 1 = 1.
Proof.
  pose (d := {| edgeList := [ {| i_ := 0; j_ := 1; w_ := {| negative := false; mant := 2; expo := 0 |} |} ];
                numVertices := 1 |}).
  assert (Hrun : two_rank_run = convert merge_sort_edges sample_default false [d; no_data])
    by (vm_compute; reflexivity).
  let r := eval vm_compute in (convert merge_sort_edges sample_default false [d; no_data]) in
  match r with
  | Some ?o =>
      pose (out := o);
      assert (Hc : convert merge_sort_edges sample_default false [d; no_data] = Some out)
        by (vm_compute; reflexivity)
  end.
  exists out. split; [rewrite Hrun; exact Hc|]. split; [reflexivity|].
  apply (received_edges_owned merge_sort_edges sample_default false [d; no_data] out 1%nat
           {| i_ := 1; j_ := 0; w_ := {| negative := false; mant := 2; expo := 0 |} |} Hc).
  vm_compute. apply list_elem_of_here.
Defined.

Lemma concat_push {A} (v : list (list A)) i x :
  (i < length v)%nat → concat (alter (fun b => b ++ [x]) i v) ≡ₚ x :: concat v.
Proof.
  revert i. induction v as [|g v IH]; intros i Hi; [simpl in Hi; lia|].
  destruct i as [|i].
  - change (alter (fun b => b ++ [x]) 0%nat (g :: v)) with ((g ++ [x]) :: v).
    simpl. rewrite <- app_assoc. simpl. symmetry. apply Permutation_middle.
  - change (alter (fun b => b ++ [x]) (S i) (g :: v))
      with (g :: alter (fun b => b ++ [x]) i v).
    simpl in *. rewrite IH by lia. symmetry. apply Permutation_middle.
Qed.

Lemma doubled_app es1 es2 : doubled (es1 ++ es2) = doubled es1 ++ doubled es2.
Proof. unfold doubled. apply flat_map_app. Qed.

Lemma spread_concat parts es : ∀ st st',
  spread parts st es = Some st' → concat st'.2 ≡ₚ concat st.2 ++ doubled es.
Proof.
  induction es as [|e es IH]; intros st st' Hs.
  - simpl in Hs. injection Hs as <-. simpl. rewrite app_nil_r. reflexivity.
  - simpl in Hs. destruct (spread_step parts st e) as [st1|] eqn:E; [|discriminate].
    simpl in Hs. rewrite (IH _ _ Hs).
    destruct (spread_step_inv _ _ _ _ E) as (R1 & R2 & _ & _ & _ & E2). rewrite E2.
    rewrite concat_push by (rewrite length_alter; lia).
    rewrite concat_push by lia.
    change (doubled (e :: es)) with (e :: reversed e :: doubled es).
    simpl. rewrite (Permutation_swap (reversed e) e).
    etransitivity; [|apply Permutation_middle].
    apply Permutation_skip. apply Permutation_middle.
Qed.

Lemma concat_empty_groups {A} n : concat (replicate n (@nil A)) = [].
Proof. induction n as [|n IH]; [reflexivity|]. simpl. exact IH. Qed.

Lemma by_rank_rebuild {A} (o : list (list A)) :
  (fun q => default [] (o !! q)) <$> seq 0 (length o) = o.
Proof.
  induction o as [|g o IH]; [reflexivity|].
  simpl length. simpl seq. rewrite <- fmap_S_seq, fmap_cons, <- list_fmap_compose.
  simpl. f_equal. exact IH.
Qed.

Lemma concat_fmap_app {A B} (f g : B → list A) l :
  concat ((fun q => f q ++ g q) <$> l) ≡ₚ concat (f <$> l) ++ concat (g <$> l).
Proof.
  induction l as [|a l IH]; [reflexivity|].
  rewrite !fmap_cons. simpl. rewrite IH, <- !app_assoc.
  apply Permutation_app_head. apply Permutation_app_swap_app.
Qed.

(** The exchange moves every tuple of every group to one rank. *)
Lemma alltoallv_transpose {A} (outs : list (list (list A))) n :
  Forall (fun o => length o = n) outs →
  concat (alltoallv outs <$> seq 0 n) ≡ₚ concat ((fun o => concat o) <$> outs).
Proof.
  induction 1 as [|o outs Ho _ IH].
  - induction (seq 0 n) as [|q l IHl]; [reflexivity|]. rewrite fmap_cons. exact IHl.
  - rewrite fmap_cons. simpl concat at 2. rewrite <- IH.
    rewrite <- (by_rank_rebuild o) at 2. rewrite Ho.
    rewrite <- concat_fmap_app. reflexivity.
Qed.

Section ExchangeMultiset.

Variable std_sort : list GraphElemTuple → list GraphElemTuple.
Variable Edge_default : Edge.
Variable indexOneBased : bool.

(** X5.  In a completed conversion the edges received by all ranks together
    are, as a multiset, the records of all processes each taken once as read
    and once reversed, with the same weight: the exchange loses no edge and
    makes up none. *)
Theorem received_is_doubled ds out :
  convert std_sort Edge_default indexOneBased ds = Some out →
  concat (alltoallv (outgoing out) <$> seq 0 (length ds)) ≡ₚ doubled (all_records ds).
Proof.
  intros Hc.
  destruct (convert_inv _ _ _ _ _ Hc) as (sp & Hs & _ & _ & _ & Ho & _).
  rewrite Ho. apply mapM_Some_1 in Hs.
  rewrite alltoallv_transpose.
  - clear Hc Ho. unfold all_records.
    induction Hs as [|d r ds' sp' Hr _ IH]; [reflexivity|].
    rewrite !fmap_cons. simpl concat. rewrite doubled_app, IH.
    apply Permutation_app_tail.
    apply spread_local_spread in Hr. destruct Hr as [_ Hr].
    rewrite (spread_concat _ _ _ _ Hr). simpl. rewrite concat_empty_groups. reflexivity.
  - apply Forall_fmap. apply Forall_forall. intros r Hr.
    destruct (proj1 (list_elem_of_lookup _ _) Hr) as [i Hi].
    destruct (Forall2_lookup_r _ _ _ _ _ Hs Hi) as (d & _ & Hd).
    destruct (spread_local_inv _ _ _ _ _ Hd) as (_ & L & _). exact L.
Qed.

End ExchangeMultiset.

Lemma received_is_doubled_witness :
  ∃ out, symmetric_pair_run = Some out
    ∧ concat (alltoallv (outgoing out) <$> seq 0 1)
      ≡ₚ doubled [ {| i_ := 0; j_ := 1; w_ := {| negative := false; mant := 2; expo := 0 |} |};
                   {| i_ := 1; j_ := 0; w_ := {| negative := false; mant := 2; expo := 0 |} |} ].
Proof.
  pose (d := {| edgeList := [ {| i_ := 0; j_ := 1; w_ := {| negative := false; mant := 2; expo := 0 |} |};
                              {| i_ := 1; j_ := 0; w_ := {| negative := false; mant := 2; expo := 0 |} |} ];
                numVertices := 1 |}).
  assert (Hrun : symmetric_pair_run = convert merge_sort_edges sample_default false [d])
    by (vm_compute; reflexivity).
  let r := eval vm_compute in (convert merge_sort_edges sample_default false [d]) in
  match r with
  | Some ?o =>
      pose (out := o);
      assert (Hc : convert merge_sort_edges sample_default false [d] = Some out)
        by (vm_compute; reflexivity)
  end.
  exists out. split; [rewrite Hrun; exact Hc|].
  exact (received_is_doubled merge_sort_edges sample_default false [d] out Hc).
Defined.

(** ** PrefixCountBuilder: what the entries of [edgeCount] are *)

Lemma endpoint_count_cons v e es :
  endpoint_count v (e :: es)
  = (if i_ e =? v then 1 else 0) + (if j_ e =? v then 1 else 0) + endpoint_count v es.
Proof. reflexivity. Qed.

Lemma endpoint_count_app v es1 es2 :
  endpoint_count v (es1 ++ es2) = endpoint_count v es1 + endpoint_count v es2.
Proof. unfold endpoint_count. rewrite fmap_app, allreduce_sum_app. reflexivity. Qed.

Lemma sources_below_cons k e es :
  sources_below k (e :: es)
  = (if i_ e <? k then 1 else 0) + (if j_ e <? k then 1 else 0) + sources_below k es.
Proof. reflexivity. Qed.

Lemma sources_below_succ k es :
  sources_below (k + 1) es = sources_below k es + endpoint_count k es.
Proof.
  induction es as [|e es IH]; [reflexivity|].
  rewrite !sources_below_cons, endpoint_count_cons, IH.
  destruct (Z.ltb_spec (i_ e) (k + 1)); destruct (Z.ltb_spec (i_ e) k);
    destruct (Z.eqb_spec (i_ e) k);
    destruct (Z.ltb_spec (j_ e) (k + 1)); destruct (Z.ltb_spec (j_ e) k);
    destruct (Z.eqb_spec (j_ e) k); lia.
Qed.

Lemma sources_below_zero es :
  (∀ e, In e es → -1 ≤ i_ e ∧ -1 ≤ j_ e) →
  sources_below 0 es = endpoint_count (-1) es.
Proof.
  induction es as [|e es IH]; intros H; [reflexivity|].
  rewrite sources_below_cons, endpoint_count_cons, IH
    by (intros e' He'; apply H; right; exact He').
  destruct (H e (or_introl eq_refl)).
  destruct (Z.ltb_spec (i_ e) 0); destruct (Z.eqb_spec (i_ e) (-1));
    destruct (Z.ltb_spec (j_ e) 0); destruct (Z.eqb_spec (j_ e) (-1)); lia.
Qed.

Lemma sources_below_all k es :
  (∀ e, In e es → i_ e < k ∧ j_ e < k) →
  sources_below k es = 2 * Z.of_nat (length es).
Proof.
  induction es as [|e es IH]; intros H; [reflexivity|].
  rewrite sources_below_cons, IH by (intros e' He'; apply H; right; exact He').
  destruct (H e (or_introl eq_refl)).
  destruct (Z.ltb_spec (i_ e) k); destruct (Z.ltb_spec (j_ e) k); simpl length; lia.
Qed.

(** The loop adds to entry [k] the end points that are the vertex [k - 1]. *)
Lemma spread_counts parts es : ∀ st st',
  spread parts st es = Some st' →
  ∀ k c, st.1 !! k = Some c →
  st'.1 !! k = Some (c + endpoint_count (Z.of_nat k - 1) es).
Proof.
  induction es as [|e es IH]; intros st st' Hs k c Hk.
  - simpl in Hs. injection Hs as <-. rewrite Hk. f_equal. unfold endpoint_count. simpl. lia.
  - simpl in Hs. destruct (spread_step parts st e) as [st1|] eqn:E; [|discriminate].
    simpl in Hs.
    destruct (spread_step_inv _ _ _ _ E) as (_ & _ & R3 & R4 & E1 & _).
    assert (H1 : st1.1 !! k
                 = Some (c + (if i_ e =? Z.of_nat k - 1 then 1 else 0)
                           + (if j_ e =? Z.of_nat k - 1 then 1 else 0))).
    { rewrite E1, !list_lookup_alter.
      destruct (decide (Z.to_nat (j_ e + 1) = k)) as [Hj|Hj];
        destruct (decide (Z.to_nat (i_ e + 1) = k)) as [Hi|Hi];
        destruct (Z.eqb_spec (i_ e) (Z.of_nat k - 1));
        destruct (Z.eqb_spec (j_ e) (Z.of_nat k - 1)); try lia;
        rewrite <- ?Hj, <- ?Hi, ?list_lookup_alter;
        repeat (destruct (decide _); try lia);
        rewrite ?Hj, ?Hi, Hk; simpl; f_equal; lia. }
    rewrite (IH _ _ Hs k _ H1), endpoint_count_cons. f_equal. lia.
Qed.

Lemma spread_local_counts V nprocs parts d r k :
  spread_local V nprocs parts d = Some r →
  0 ≤ V ≤ INT_MAX →
  (k < Z.to_nat (V + 1))%nat →
  r.1 !! k = Some (endpoint_count (Z.of_nat k - 1) (edgeList d)).
Proof.
  intros Hr HV Hk. apply (spread_local_started _ _ _ _ _ Hr) in HV. clear Hr.
  rename HV into Hr.
  rewrite (spread_counts _ _ _ _ Hr k 0); [f_equal; lia|].
  simpl. apply lookup_replicate_2, Hk.
Qed.

Lemma lookup_reduce_sum count mine all k :
  reduce_sum count mine all !! k
  = (fun x => if (k <? count)%nat
              then allreduce_sum ((fun b => default 0 (b !! k)) <$> all) else x)
    <$> mine !! k.
Proof. unfold reduce_sum. apply list_lookup_imap. Qed.

Lemma lookup_prefix_loop n : ∀ i v k,
  (1 ≤ i)%nat → (i + n ≤ length v)%nat →
  prefix_loop n i v !! k
  = if (k <? i)%nat then v !! k
    else if (k <? i + n)%nat
         then Some (default 0 (v !! (i - 1)%nat) + allreduce_sum (take (S k - i) (drop i v)))
         else v !! k.
Proof.
  induction n as [|n IH]; intros i v k Hi Hlen.
  - simpl. destruct (Nat.ltb_spec k i); [reflexivity|].
    destruct (Nat.ltb_spec k (i + 0)); [lia | reflexivity].
  - cbn [prefix_loop].
    destruct (lookup_lt_is_Some_2 v (i - 1)) as [a Ha]; [lia|].
    destruct (lookup_lt_is_Some_2 v i) as [b Hb]; [lia|].
    rewrite Ha, Hb. rewrite IH by (rewrite ?length_insert; lia).
    replace (S i - 1)%nat with i by lia.
    rewrite list_lookup_insert_eq by lia. simpl default.
    rewrite drop_insert_lt by lia.
    destruct (Nat.ltb_spec k (S i)) as [H1|H1].
    + destruct (Nat.ltb_spec k i) as [H2|H2].
      * apply list_lookup_insert_ne. lia.
      * assert (k = i) by lia. subst k.
        destruct (Nat.ltb_spec i (i + S n)); [|lia].
        rewrite list_lookup_insert_eq by lia. f_equal.
        replace (S i - i)%nat with 1%nat by lia.
        rewrite (drop_S _ _ _ Hb). simpl. unfold allreduce_sum. simpl. lia.
    + destruct (Nat.ltb_spec k i); [lia|].
      destruct (Nat.ltb_spec k (S i + n)); destruct (Nat.ltb_spec k (i + S n)); try lia.
      * f_equal. rewrite (drop_S _ _ _ Hb).
        replace (S k - i)%nat with (S (S k - S i)) by lia.
        simpl take. rewrite allreduce_sum_cons. lia.
      * apply list_lookup_insert_ne. lia.
Qed.

Lemma allreduce_sum_take_S l k x :
  l !! k = Some x → allreduce_sum (take (S k) l) = allreduce_sum (take k l) + x.
Proof.
  intros H. rewrite (take_S_r _ _ _ H), allreduce_sum_app, allreduce_sum_cons.
  unfold allreduce_sum. simpl. lia.
Qed.

(** After the prefix loop, an entry below [V] is the sum of the entries up
    to it, and the entry [V] is as it was. *)
Lemma lookup_local_prefix_sum V v k :
  (Z.to_nat V < length v)%nat → (k < Z.to_nat V)%nat →
  local_prefix_sum V v !! k = Some (allreduce_sum (take (S k) v)).
Proof.
  intros Hlen Hk. unfold local_prefix_sum.
  rewrite lookup_prefix_loop by lia.
  destruct (lookup_lt_is_Some_2 v O) as [a Ha]; [lia|].
  destruct (Nat.ltb_spec k 1) as [H1|H1].
  - assert (k = O) by lia. subst k. rewrite Ha.
    rewrite (allreduce_sum_take_S _ _ _ Ha). reflexivity.
  - destruct (Nat.ltb_spec k (1 + Z.to_nat (V - 1))); [|lia].
    f_equal. simpl. rewrite Ha. simpl.
    destruct v as [|a' v']; [discriminate|]. injection Ha as ->.
    simpl drop. replace (S k) with (S (S (k - 1))) by lia.
    replace (S (k - 1) - 0)%nat with (S (k - 1)) by lia.
    change (take (S (S (k - 1))) (a :: v')) with (a :: take (S (k - 1)) v').
    rewrite allreduce_sum_cons. replace (k - 0)%nat with (S (k - 1)) by lia. reflexivity.
Qed.

Lemma lookup_local_prefix_sum_last V v :
  0 ≤ V → (Z.to_nat V < length v)%nat →
  local_prefix_sum V v !! Z.to_nat V = v !! Z.to_nat V.
Proof.
  intros HV Hlen. unfold local_prefix_sum.
  destruct (decide (V = 0)) as [->|Hne]; [reflexivity|].
  rewrite lookup_prefix_loop by lia.
  destruct (Nat.ltb_spec (Z.to_nat V) 1); [lia|].
  destruct (Nat.ltb_spec (Z.to_nat V) (1 + Z.to_nat (V - 1))); [lia | reflexivity].
Qed.

Section PrefixCounts.

Variable std_sort : list GraphElemTuple → list GraphElemTuple.
Variable Edge_default : Edge.
Variable indexOneBased : bool.

(** The end points of the records of a completed conversion lie in
    [-1, V). *)
Lemma convert_ids_in_range ds out e :
  convert std_sort Edge_default indexOneBased ds = Some out →
  In e (all_records ds) →
  -1 ≤ i_ e < globalNumVertices out ∧ -1 ≤ j_ e < globalNumVertices out.
Proof.
  intros Hc He.
  destruct (convert_inv _ _ _ _ _ Hc) as (sp & Hs & EV & _).
  pose proof (convert_vertices_int _ _ _ _ _ Hc) as Hint.
  rewrite EV in *. apply mapM_Some_1 in Hs.
  unfold all_records in He. apply in_concat in He. destruct He as (es & Hes & He).
  apply list_elem_of_In, list_elem_of_fmap in Hes. destruct Hes as (d & -> & Hd).
  destruct (proj1 (list_elem_of_lookup _ _) Hd) as [i Hi].
  destruct (Forall2_lookup_l _ _ _ _ _ Hs Hi) as (r & _ & Hr).
  apply spread_local_started in Hr; [|exact Hint].
  destruct (spread_in_range _ _ _ _ Hr e He) as (_ & _ & Q3 & Q4).
  simpl in Q3, Q4. rewrite length_replicate in Q3, Q4. lia.
Qed.

(** Entry [k] of the vectors of all processes, added up. *)
Lemma counts_added_up V nprocs parts ds sp k :
  Forall2 (fun d r => spread_local V nprocs parts d = Some r) ds sp →
  0 ≤ V ≤ INT_MAX →
  (k < Z.to_nat (V + 1))%nat →
  allreduce_sum ((fun b => default 0 (b !! k)) <$> (fst <$> sp))
  = endpoint_count (Z.of_nat k - 1) (all_records ds).
Proof.
  intros Hs HV Hk. unfold all_records.
  induction Hs as [|d r ds' sp' Hr _ IH]; [reflexivity|].
  rewrite !fmap_cons, allreduce_sum_cons, IH. simpl concat.
  rewrite endpoint_count_app, (spread_local_counts _ _ _ _ _ _ Hr HV Hk). reflexivity.
Qed.

(** The vector of the root after the reduction. *)
Lemma reduced_entries ds out :
  convert std_sort Edge_default indexOneBased ds = Some out →
  ds ≠ [] →
  ∃ reduced d0,
    edgeCount out = local_prefix_sum (globalNumVertices out) reduced
    ∧ head ds = Some d0
    ∧ length reduced = Z.to_nat (globalNumVertices out + 1)
    ∧ (∀ k, (k < Z.to_nat (globalNumVertices out))%nat →
         (k < Z.to_nat (globalNumVertices out + 1))%nat →
         reduced !! k = Some (endpoint_count (Z.of_nat k - 1) (all_records ds)))
    ∧ (∀ k, (Z.to_nat (globalNumVertices out) ≤ k)%nat →
         (k < Z.to_nat (globalNumVertices out + 1))%nat →
         reduced !! k = Some (endpoint_count (Z.of_nat k - 1) (edgeList d0))).
Proof.
  intros Hc Hne.
  destruct (convert_inv _ _ _ _ _ Hc) as (sp & Hs & EV & _ & _ & _ & _ & Hec & _).
  pose proof (convert_vertices_int _ _ _ _ _ Hc) as Hint.
  rewrite <- EV in Hec, Hs. apply mapM_Some_1 in Hs.
  destruct ds as [|d0 ds']; [congruence|].
  inversion Hs as [|? r0 ? sp' Hr0 Hrest]; subst.
  destruct (spread_local_inv _ _ _ _ _ Hr0) as (L0 & _).
  rewrite (vertex_count_succ _ Hint) in L0.
  eexists _, d0. split; [exact Hec|]. split; [reflexivity|].
  split; [rewrite length_reduce_sum; simpl; exact L0|].
  split.
  - intros k Hk Hk1. rewrite lookup_reduce_sum. simpl head. simpl default.
    rewrite (spread_local_counts _ _ _ _ _ _ Hr0 Hint Hk1). simpl.
    destruct (Nat.ltb_spec k (Z.to_nat (globalNumVertices out))); [|lia].
    f_equal. apply (counts_added_up _ _ _ _ _ _ Hs Hint Hk1).
  - intros k Hk Hk1. rewrite lookup_reduce_sum. simpl head. simpl default.
    rewrite (spread_local_counts _ _ _ _ _ _ Hr0 Hint Hk1). simpl.
    destruct (Nat.ltb_spec k (Z.to_nat (globalNumVertices out))); [lia | reflexivity].
Qed.

(** X6.  In a completed conversion the entry [k] of the coordinator's
    offset table, for a vertex [k] of the graph, is the number of directed
    edges whose source vertex is below [k]: the position of the first edge of
    vertex [k] in the edge array ordered by source. *)
Theorem edgeCount_prefix_counts ds out k :
  convert std_sort Edge_default indexOneBased ds = Some out →
  ds ≠ [] →
  0 ≤ k < globalNumVertices out →
  edgeCount out !! Z.to_nat k = Some (sources_below k (all_records ds)).
Proof.
  intros Hc Hne Hk.
  destruct (reduced_entries ds out Hc Hne) as (reduced & d0 & Hec & _ & Hlen & Hlow & _).
  rewrite Hec, lookup_local_prefix_sum by lia. f_equal.
  assert (Hids : ∀ e, In e (all_records ds) → -1 ≤ i_ e ∧ -1 ≤ j_ e).
  { intros e He. destruct (convert_ids_in_range ds out e Hc He). lia. }
  assert (Hsum : ∀ n, (n < Z.to_nat (globalNumVertices out))%nat →
            allreduce_sum (take (S n) reduced) = sources_below (Z.of_nat n) (all_records ds)).
  { induction n as [|n IH]; intros Hn.
    - rewrite (allreduce_sum_take_S _ _ _ (Hlow O Hn ltac:(lia))).
      change (Z.of_nat 0) with 0. rewrite (sources_below_zero _ Hids). reflexivity.
    - rewrite (allreduce_sum_take_S _ _ _ (Hlow (S n) Hn ltac:(lia))), IH by lia.
      replace (Z.of_nat (S n)) with (Z.of_nat n + 1) by lia.
      rewrite sources_below_succ. f_equal. f_equal. lia. }
  rewrite Hsum by lia. f_equal. lia.
Qed.

(** X7.  In a completed conversion with [V >= 0] vertices the last entry of
    the coordinator's offset table, at index [V], is the number of end
    points of the coordinator's own records that are the vertex [V - 1]: the
    reduction and the running sum both stop before it.  The edge count of
    the header is the number of directed edges with a source below [V], that
    is all of them. *)
Theorem edgeCount_last_entry ds d0 out :
  convert std_sort Edge_default indexOneBased ds = Some out →
  head ds = Some d0 →
  0 ≤ globalNumVertices out →
  edgeCount out !! Z.to_nat (globalNumVertices out)
  = Some (endpoint_count (globalNumVertices out - 1) (edgeList d0))
  ∧ globalNumEdges out = sources_below (globalNumVertices out) (all_records ds).
Proof.
  intros Hc Hd0 HV.
  assert (Hne : ds ≠ []) by (destruct ds; [discriminate | discriminate]).
  destruct (reduced_entries ds out Hc Hne) as (reduced & d0' & Hec & Hd0' & Hlen & _ & Hlast).
  assert (d0' = d0) by congruence. subst d0'. split.
  - rewrite Hec, lookup_local_prefix_sum_last by lia.
    rewrite Hlast by lia. f_equal. f_equal. lia.
  - destruct (convert_inv _ _ _ _ _ Hc) as (sp & _ & _ & HE & _).
    rewrite HE, global_numEdges_twice. symmetry. apply sources_below_all.
    intros e He. destruct (convert_ids_in_range ds out e Hc He). lia.
Qed.

End PrefixCounts.

(** The outcome of a sample conversion, computed. *)
Ltac with_outcome ds out H :=
  let r := eval vm_compute in (convert merge_sort_edges sample_default false ds) in
  match r with
  | Some ?o =>
      pose (out := o);
      assert (H : convert merge_sort_edges sample_default false ds = Some out)
        by (vm_compute; reflexivity)
  end.

Lemma star_run_data : star_run = convert merge_sort_edges sample_default false star_data.
Proof. vm_compute. reflexivity. Qed.

Lemma two_rank_run_data :
  two_rank_run = convert merge_sort_edges sample_default false two_rank_data.
Proof. vm_compute. reflexivity. Qed.

Lemma edgeCount_prefix_counts_witness :
  ∃ out, star_run = Some out
    ∧ edgeCount out !! 2%nat = Some (sources_below 2 (all_records star_data))
    ∧ sources_below 2 (all_records star_data) = 4.
Proof.
  with_outcome star_data out Hc.
  exists out. split; [rewrite star_run_data; exact Hc|]. split; [|reflexivity].
  apply (edgeCount_prefix_counts merge_sort_edges sample_default false star_data out 2 Hc).
  - discriminate.
  - vm_compute. split; [discriminate | reflexivity].
Defined.

Lemma edgeCount_last_entry_witness :
  ∃ out d0, star_run = Some out
    ∧ head star_data = Some d0
    ∧ edgeCount out !! 3%nat = Some (endpoint_count 2 (edgeList d0))
    ∧ endpoint_count 2 (edgeList d0) = 2
    ∧ globalNumEdges out = 6.
Proof.
  with_outcome star_data out Hc.
  pose (d0 := {| edgeList := [ {| i_ := 0; j_ := 2; w_ := {| negative := false; mant := 1; expo := 0 |} |};
                     {| i_ := 0; j_ := 2; w_ := {| negative := false; mant := 1; expo := 0 |} |};
                     {| i_ := 0; j_ := 1; w_ := {| negative := false; mant := 1; expo := 0 |} |} ];
                 numVertices := 2 |}).
  exists out, d0. split; [rewrite star_run_data; exact Hc|]. split; [reflexivity|].
  destruct (edgeCount_last_entry merge_sort_edges sample_default false star_data d0 out Hc)
    as [H1 H2].
  - reflexivity.
  - vm_compute. discriminate.
  - split; [exact H1|]. split; [reflexivity|]. reflexivity.
Defined.

(** ** BinaryCSRWriter: the byte ranges of the edge writes *)

Lemma exscan_S xs k x : xs !! k = Some x → exscan xs (S k) = exscan xs k + x.
Proof. apply allreduce_sum_take_S. Qed.

Lemma exscan_mono xs k k' :
  Forall (fun x => 0 ≤ x) xs → (k ≤ k')%nat → exscan xs k ≤ exscan xs k'.
Proof.
  intros Hpos Hle. unfold exscan.
  replace k' with (k + (k' - k))%nat by lia.
  rewrite <- take_take_drop, allreduce_sum_app.
  assert (0 ≤ allreduce_sum (take (k' - k) (drop k xs))); [|lia].
  apply allreduce_sum_nonneg, Forall_take, Forall_drop, Hpos.
Qed.

Lemma received_counts_nonneg out n : Forall (fun x => 0 ≤ x) (received_counts out n).
Proof.
  unfold received_counts. apply Forall_fmap, Forall_forall. intros r _. simpl. lia.
Qed.

Lemma lookup_received_counts out n k :
  (k < n)%nat →
  received_counts out n !! k = Some (Z.of_nat (length (alltoallv (outgoing out) k))).
Proof.
  intros Hk. unfold received_counts.
  rewrite !list_lookup_fmap, lookup_seq_lt by exact Hk. reflexivity.
Qed.

Lemma wrap_u64_le z : 0 ≤ z → wrap_u64 z ≤ z.
Proof. intros H. unfold wrap_u64. apply Z.mod_le; lia. Qed.

Section EdgeRanges.

Variable std_sort : list GraphElemTuple → list GraphElemTuple.
Variable Edge_default : Edge.
Variable indexOneBased : bool.

(** X8.  In a completed conversion the edge writes of two ranks never
    overlap and follow the order of the ranks: the write of the lower rank
    ends at or before the byte where the write of the higher rank starts;
    the write of rank 0 starts right behind the room of the header and of
    [V + 1] table entries; and the write of the next rank starts exactly
    where the previous one ends (when the byte count fits 64 bits). *)
Theorem edge_writes_disjoint ds out k k' x y :
  convert std_sort Edge_default indexOneBased ds = Some out →
  edge_writes out !! k = Some x →
  edge_writes out !! k' = Some y →
  (k < k')%nat →
  wr_offset x + wr_bytes x ≤ wr_offset y
  ∧ 16 + 8 * (globalNumVertices out + 1) ≤ wr_offset x
  ∧ (k = O → wr_offset x = 16 + 8 * (globalNumVertices out + 1))
  ∧ (k' = S k →
     Z.of_nat (length (alltoallv (outgoing out) k)) * sizeof_Edge < 2 ^ 64 →
     wr_offset y = wr_offset x + wr_bytes x).
Proof.
  intros Hc Hx Hy Hlt.
  destruct (edge_write_lookup _ _ _ ds out k x Hc Hx) as [Hk Hwx].
  destruct (edge_write_lookup _ _ _ ds out k' y Hc Hy) as [Hk' Hwy].
  destruct (write_edges_inv _ _ _ _ _ _ _ Hwx) as (_ & Ox & Bx & _).
  destruct (write_edges_inv _ _ _ _ _ _ _ Hwy) as (_ & Oy & _).
  set (counts := received_counts out (length ds)) in *.
  set (n := Z.of_nat (length (alltoallv (outgoing out) k))) in *.
  pose proof (exscan_S counts k n (lookup_received_counts out (length ds) k Hk)) as HS.
  pose proof (exscan_mono counts (S k) k' (received_counts_nonneg _ _) ltac:(lia)) as Hm.
  pose proof (exscan_mono counts O k (received_counts_nonneg _ _) ltac:(lia)) as H0.
  change (exscan counts 0) with 0 in H0.
  pose proof (wrap_u64_le (n * sizeof_Edge)
                ltac:(unfold n, sizeof_Edge, sizeof_GraphElem, sizeof_GraphWeight; lia)) as Hw.
  unfold sizeof_Edge, sizeof_GraphElem, sizeof_GraphWeight in *.
  repeat split.
  - lia.
  - lia.
  - intros ->. rewrite Ox. change (exscan counts 0) with 0. lia.
  - intros -> Hfit. rewrite Oy, Ox, Bx, HS, wrap_u64_small by (unfold n; lia). lia.
Qed.

End EdgeRanges.

Lemma edge_writes_disjoint_witness :
  ∃ out x y, two_rank_run = Some out
    ∧ edge_writes out !! 0%nat = Some x ∧ edge_writes out !! 1%nat = Some y
    ∧ wr_offset x = 40 ∧ wr_bytes x = 16 ∧ wr_offset y = 56.
Proof.
  with_outcome two_rank_data out Hc.
  let r := eval vm_compute in (edge_writes out) in
  match r with
  | [?a; ?b] =>
      pose (x := a); pose (y := b);
      assert (Hx : edge_writes out !! 0%nat = Some x) by (vm_compute; reflexivity);
      assert (Hy : edge_writes out !! 1%nat = Some y) by (vm_compute; reflexivity)
  end.
  exists out, x, y. split; [rewrite two_rank_run_data; exact Hc|].
  split; [exact Hx|]. split; [exact Hy|].
  destruct (edge_writes_disjoint merge_sort_edges sample_default false two_rank_data out
              0%nat 1%nat x y Hc Hx Hy) as (H1 & H2 & H3 & H4); [lia|].
  repeat split; reflexivity.
Defined.

Section Layout.

Variable std_sort : list GraphElemTuple → list GraphElemTuple.
Variable Edge_default : Edge.
Variable indexOneBased : bool.

(** X9.  In a completed conversion of at least one process, with [V >= 0]
    vertices, no write of the run reaches the eight bytes of the last table
    entry, at [16 + 8*V]: the header covers bytes 0 to 16, the table write
    covers only the [V] entries before it, and every edge write starts
    behind it. *)
Theorem last_table_entry_unwritten ds out x pos :
  convert std_sort Edge_default indexOneBased ds = Some out →
  ds ≠ [] →
  0 ≤ globalNumVertices out →
  globalNumVertices out * sizeof_GraphElem < 2 ^ 64 →
  In x (all_writes out) →
  16 + 8 * globalNumVertices out ≤ pos < 16 + 8 * (globalNumVertices out + 1) →
  ¬ covers x pos.
Proof.
  intros Hc Hne HV Hfit Hx Hpos [Hlo Hhi].
  destruct (table_write_entries _ _ _ ds out Hc Hne HV Hfit) as (_ & To & Tb & _).
  destruct (convert_inv _ _ _ _ _ Hc) as (sp & _ & _ & _ & _ & _ & _ & _ & Hh & _).
  unfold all_writes in Hx. rewrite Hh in Hx. simpl in Hx.
  destruct Hx as [<-|[<-|[<-|Hx]]].
  - simpl in *. unfold sizeof_GraphElem in *. lia.
  - simpl in *. unfold sizeof_GraphElem in *. lia.
  - lia.
  - apply list_elem_of_In in Hx. destruct (proj1 (list_elem_of_lookup _ _) Hx) as [k Hk].
    destruct (edge_write_lookup _ _ _ ds out k x Hc Hk) as [_ Hw].
    destruct (write_edges_inv _ _ _ _ _ _ _ Hw) as (_ & Ox & _).
    pose proof (exscan_mono (received_counts out (length ds)) O k
                  (received_counts_nonneg _ _) ltac:(lia)) as H0.
    change (exscan (received_counts out (length ds)) 0) with 0 in H0.
    unfold sizeof_Edge, sizeof_GraphElem, sizeof_GraphWeight in *. lia.
Qed.

(** X10.  In a completed conversion the buffer of an edge write starts
    with as many default records as the rank received edges, and the
    received edges, sorted, come behind them; the bytes the write transfers
    are those of the default records alone. *)
Theorem edge_write_leaves_edges_behind ds out k x :
  convert std_sort Edge_default indexOneBased ds = Some out →
  edge_writes out !! k = Some x →
  Z.of_nat (length (alltoallv (outgoing out) k)) * sizeof_Edge < 2 ^ 64 →
  wr_buffer x
  = EdgeBuffer (replicate (length (alltoallv (outgoing out) k)) Edge_default
                ++ (to_edge <$> local_sort std_sort (alltoallv (outgoing out) k)))
  ∧ written_edges x = replicate (length (alltoallv (outgoing out) k)) Edge_default.
Proof.
  intros Hc Hx Hfit. split; [|apply (edge_write_records _ _ _ ds out k x Hc Hx Hfit)].
  destruct (edge_write_lookup _ _ _ ds out k x Hc Hx) as [_ Hw].
  destruct (write_edges_inv _ _ _ _ _ _ _ Hw) as (_ & _ & _ & Hb & _). exact Hb.
Qed.

End Layout.

Lemma last_table_entry_unwritten_witness :
  ∃ out, star_run = Some out
    ∧ globalNumVertices out = 3
    ∧ Forall (fun x => ¬ covers x 40 ∧ ¬ covers x 47) (all_writes out).
Proof.
  with_outcome star_data out Hc.
  assert (HV : globalNumVertices out = 3) by reflexivity.
  exists out. split; [rewrite star_run_data; exact Hc|]. split; [exact HV|].
  apply Forall_forall. intros x Hx. apply list_elem_of_In in Hx.
  assert (Hne : star_data ≠ []) by discriminate.
  assert (H0 : 0 ≤ globalNumVertices out) by (rewrite HV; lia).
  assert (Hfit : globalNumVertices out * sizeof_GraphElem < 2 ^ 64)
    by (rewrite HV; unfold sizeof_GraphElem; lia).
  split.
  - apply (last_table_entry_unwritten merge_sort_edges sample_default false
             star_data out x 40 Hc Hne H0 Hfit Hx). rewrite HV. lia.
  - apply (last_table_entry_unwritten merge_sort_edges sample_default false
             star_data out x 47 Hc Hne H0 Hfit Hx). rewrite HV. lia.
Defined.

Lemma edge_write_leaves_edges_behind_witness :
  ∃ out x, two_rank_run = Some out
    ∧ edge_writes out !! 1%nat = Some x
    ∧ wr_buffer x = EdgeBuffer [sample_default;
                                {| tail_ := 0; weight_ := {| negative := false; mant := 2; expo := 0 |} |}]
    ∧ written_edges x = [sample_default].
Proof.
  with_outcome two_rank_data out Hc.
  let r := eval vm_compute in (edge_writes out !! 1%nat) in
  match r with
  | Some ?a =>
      pose (x := a);
      assert (Hx : edge_writes out !! 1%nat = Some x) by (vm_compute; reflexivity)
  end.
  exists out, x. split; [rewrite two_rank_run_data; exact Hc|]. split; [exact Hx|].
  destruct (edge_write_leaves_edges_behind merge_sort_edges sample_default false
              two_rank_data out 1%nat x Hc Hx) as [H1 H2].
  - vm_compute. reflexivity.
  - split; [exact H1 | exact H2].
Defined.

(** ** VertexPartitioner: the sizes of the intervals *)

Lemma localNumVertices_parts V P r :
  0 ≤ V → 1 ≤ P → V * P ≤ GraphElem_max → 0 ≤ r < P →
  localNumVertices V P r = V * (r + 1) / P - V * r / P.
Proof.
  intros HV HP Hfit Hr. unfold localNumVertices.
  assert (0 ≤ V * r ≤ V * P) by nia. assert (0 ≤ V * (r + 1) ≤ V * P) by nia.
  rewrite !wrap_s64_small by (unfold GraphElem_min; lia).
  rewrite !Z.quot_div_nonneg by lia. reflexivity.
Qed.

Lemma interval_size V P r :
  0 ≤ V → 1 ≤ P → 0 ≤ r →
  V / P ≤ V * (r + 1) / P - V * r / P ≤ V / P + 1.
Proof.
  intros HV HP Hr.
  pose proof (Z.div_mod V P ltac:(lia)) as EV.
  pose proof (Z.mod_pos_bound V P ltac:(lia)) as BV.
  pose proof (Z.div_mod (V * r) P ltac:(lia)) as EA.
  pose proof (Z.mod_pos_bound (V * r) P ltac:(lia)) as BA.
  set (q := V / P) in *. set (m := V mod P) in *.
  set (a := V * r / P) in *. set (s := (V * r) mod P) in *.
  replace (V * (r + 1)) with ((a + q) * P + (s + m)) by lia.
  rewrite Z.div_add_l by lia.
  assert (0 ≤ (s + m) / P ≤ 1).
  { split; [apply Z.div_pos; lia|].
    apply Z.lt_succ_r. apply Z.div_lt_upper_bound; lia. }
  lia.
Qed.

(** X11.  For [V >= 0] vertices and [P >= 1] processes whose product fits
    the 64-bit range, [localNumVertices] of a rank is the length of its
    interval of the partition table, and it is [floor (V / P)] or one more:
    the intervals of two ranks differ by at most one vertex.  The rank
    owning a vertex has a non-empty interval. *)
Theorem localNumVertices_balanced V P r :
  0 ≤ V → 1 ≤ P → V * P ≤ GraphElem_max → 0 ≤ r < P →
  (∃ lo hi, make_parts V P !! Z.to_nat r = Some lo
            ∧ make_parts V P !! Z.to_nat (r + 1) = Some hi
            ∧ localNumVertices V P r = hi - lo)
  ∧ V / P ≤ localNumVertices V P r ≤ V / P + 1
  ∧ (∀ v, 0 ≤ v < V → owner_of (make_parts V P) v = r → 1 ≤ localNumVertices V P r).
Proof.
  intros HV HP Hfit Hr.
  rewrite (localNumVertices_parts V P r HV HP Hfit Hr).
  split; [|split].
  - exists (V * r / P), (V * (r + 1) / P).
    split; [apply lookup_make_parts; lia|]. split; [apply lookup_make_parts; lia|].
    reflexivity.
  - apply interval_size; lia.
  - intros v Hv Ho. destruct (owner_of_make_parts V P v HV HP Hfit Hv) as (_ & Hin & _).
    rewrite Ho in Hin. lia.
Qed.

Lemma localNumVertices_balanced_witness :
  10 / 4 ≤ localNumVertices 10 4 1 ≤ 10 / 4 + 1
  ∧ localNumVertices 10 4 1 = 3
  ∧ localNumVertices 10 4 0 = 2.
Proof.
  destruct (localNumVertices_balanced 10 4 1) as (_ & H & _);
    [lia | lia | unfold GraphElem_max; lia | lia |].
  split; [exact H|]. split; reflexivity.
Defined.

(** ** The ownership lookup outside the vertex range *)

(** X12.  For a partition table of [V >= 0] vertices over [P >= 1]
    processes (product inside the 64-bit range) the ownership lookup gives
    [-1] for a negative vertex id and [P] for an id of [V] or more: neither
    is a rank, and the spreading loop that indexes [outEdges] with it leaves
    the vector. *)
Theorem owner_of_outside V P v st e :
  0 ≤ V → 1 ≤ P → V * P ≤ GraphElem_max →
  Z.of_nat (length st.2) = P →
  (v < 0 → owner_of (make_parts V P) v = -1)
  ∧ (V ≤ v → owner_of (make_parts V P) v = P)
  ∧ (¬ 0 ≤ i_ e < V → spread_step (make_parts V P) st e = None)
  ∧ (¬ 0 ≤ j_ e < V → spread_step (make_parts V P) st e = None).
Proof.
  intros HV HP Hfit Hlen.
  split; [apply owner_of_below_first; assumption|].
  split; [apply owner_of_beyond_last; assumption|].
  split.
  - intros Hout. destruct (spread_step (make_parts V P) st e) as [st'|] eqn:E; [|reflexivity].
    exfalso. destruct (spread_step_inv _ _ _ _ E) as (R1 & _).
    destruct (Z.lt_ge_cases (i_ e) 0) as [Hneg|Hnn].
    + rewrite owner_of_below_first in R1 by assumption. lia.
    + rewrite owner_of_beyond_last in R1 by (try assumption; lia). lia.
  - intros Hout. destruct (spread_step (make_parts V P) st e) as [st'|] eqn:E; [|reflexivity].
    exfalso. destruct (spread_step_inv _ _ _ _ E) as (_ & R2 & _).
    destruct (Z.lt_ge_cases (j_ e) 0) as [Hneg|Hnn].
    + rewrite owner_of_below_first in R2 by assumption. lia.
    + rewrite owner_of_beyond_last in R2 by (try assumption; lia). lia.
Qed.

Lemma owner_of_outside_witness :
  owner_of (make_parts 10 4) (-3) = -1
  ∧ owner_of (make_parts 10 4) 10 = 4
  ∧ spread_step (make_parts 10 4) (replicate 11 0, replicate 4 [])
      {| i_ := 10; j_ := 2; w_ := weight_zero |} = None.
Proof.
  destruct (owner_of_outside 10 4 (-3) (replicate 11 0, replicate 4 [])
              {| i_ := 10; j_ := 2; w_ := weight_zero |})
    as (H1 & _ & H3 & _); [lia | lia | unfold GraphElem_max; lia | reflexivity |].
  destruct (owner_of_outside 10 4 10 (replicate 11 0, replicate 4 [])
              {| i_ := 10; j_ := 2; w_ := weight_zero |})
    as (_ & H2 & _ & _); [lia | lia | unfold GraphElem_max; lia | reflexivity |].
  split; [apply H1; lia|]. split; [apply H2; lia|]. apply H3. simpl. lia.
Defined.

(** ** LocalSorter inside the conversion *)

Section SortedOutcome.

Variable std_sort : list GraphElemTuple → list GraphElemTuple.
Variable Edge_default : Edge.
Variable indexOneBased : bool.
Hypothesis std_sort_perm : ∀ l, std_sort l ≡ₚ l.
Hypothesis std_sort_sorted : ∀ l, is_sorted (std_sort l) = true.

(** X13.  With a sorting routine that returns its input permuted into
    comparator order, a completed conversion leaves every rank of the job
    with a final edge list that is in (source, destination) order and holds
    exactly the edges the rank received in the exchange, each as often as
    received; there is one such list per rank. *)
Theorem rredata_sorted_received ds out :
  convert std_sort Edge_default indexOneBased ds = Some out →
  length (rredata out) = length ds
  ∧ ∀ q l, rredata out !! q = Some l →
      is_sorted l = true ∧ l ≡ₚ alltoallv (outgoing out) q.
Proof.
  intros Hc.
  destruct (convert_inv _ _ _ _ _ Hc) as (sp & _ & _ & _ & _ & Ho & Hr & _).
  rewrite Hr, <- Ho. split; [rewrite !length_fmap, length_seq; reflexivity|].
  intros q l Hl. rewrite !list_lookup_fmap in Hl.
  destruct (seq 0 (length ds) !! q) as [q'|] eqn:Eq; [|discriminate].
  apply lookup_seq in Eq. destruct Eq as [-> _]. simpl in Hl. injection Hl as <-.
  split; [apply local_sort_sorted, std_sort_sorted | apply local_sort_perm, std_sort_perm].
Qed.

End SortedOutcome.

Lemma rredata_sorted_received_witness :
  ∃ out, symmetric_pair_run = Some out
    ∧ length (rredata out) = 1%nat
    ∧ ∀ q l, rredata out !! q = Some l →
        is_sorted l = true ∧ l ≡ₚ alltoallv (outgoing out) q.
Proof.
  pose (d := {| edgeList := [ {| i_ := 0; j_ := 1; w_ := {| negative := false; mant := 2; expo := 0 |} |};
                              {| i_ := 1; j_ := 0; w_ := {| negative := false; mant := 2; expo := 0 |} |} ];
                numVertices := 1 |}).
  assert (Hrun : symmetric_pair_run = convert merge_sort_edges sample_default false [d])
    by (vm_compute; reflexivity).
  with_outcome [d] out Hc.
  exists out. split; [rewrite Hrun; exact Hc|].
  exact (rredata_sorted_received merge_sort_edges sample_default false
           merge_sort_edges_perm merge_sort_edges_sorted [d] out Hc).
Defined.

(** ** BinaryCSRWriter: the calls of a write *)

Lemma tiles_length offset data calls : ∀ a b,
  tiles offset data calls a b →
  Z.of_nat (length calls) = (b - a + INT_MAX - 1) / INT_MAX.
Proof.
  assert (HM : 0 < INT_MAX) by (unfold INT_MAX; lia).
  induction calls as [|c rest IH]; intros a b T.
  - simpl in T. subst b. simpl. rewrite Z.div_small; lia.
  - destruct T as (_ & _ & Hc & Hpos & T).
    pose proof (tiles_range _ _ _ _ _ T) as Hr.
    simpl length. rewrite Nat2Z.inj_succ, (IH _ _ T), Hc.
    destruct (Z.min_spec INT_MAX (b - a)) as [[Hlt ->]|[Hle ->]].
    + replace (b - a + INT_MAX - 1) with (b - (a + INT_MAX) + INT_MAX - 1 + 1 * INT_MAX) by lia.
      rewrite Z.div_add by lia. lia.
    + replace (b - (a + (b - a)) + INT_MAX - 1) with (INT_MAX - 1) by lia.
      rewrite Z.div_small by lia.
      replace (b - a + INT_MAX - 1) with (b - a - 1 + 1 * INT_MAX) by lia.
      rewrite Z.div_add, Z.div_small by lia. lia.
Qed.

Lemma tiles_nth offset data calls : ∀ a b i c,
  tiles offset data calls a b → calls !! i = Some c →
  call_offset c = offset + a + Z.of_nat i * INT_MAX
  ∧ call_source c = data + a + Z.of_nat i * INT_MAX
  ∧ call_count c = Z.min INT_MAX (b - a - Z.of_nat i * INT_MAX).
Proof.
  induction calls as [|c0 rest IH]; intros a b i c T Hc; [discriminate|].
  destruct T as (Ho & Hs & Hcnt & Hpos & T).
  destruct i as [|i]; simpl in Hc.
  - injection Hc as <-. rewrite Ho, Hs, Hcnt. simpl. repeat split; lia.
  - destruct (IH _ _ _ _ T Hc) as (H1 & H2 & H3).
    assert (Hfull : call_count c0 = INT_MAX).
    { destruct rest as [|c1 rest']; [discriminate|].
      destruct T as (_ & _ & Hc1 & Hp1 & _). lia. }
    rewrite H1, H2, H3, Hfull. repeat split; lia.
Qed.

(** X14.  A payload of [tot_bytes] bytes (fewer than [2^64]) is written by
    [max 1 (ceil (tot_bytes / INT_MAX))] calls, an empty payload still by one
    call of zero bytes; call [i] writes at file offset [offset + i*INT_MAX]
    from the buffer position [i*INT_MAX] and transfers [INT_MAX] bytes or, if
    less is left, the remainder. *)
Theorem write_buffer_calls tot_bytes offset data :
  0 ≤ tot_bytes < 2 ^ 64 →
  ∃ calls,
    write_buffer tot_bytes offset data = Some calls
    ∧ Z.of_nat (length calls) = Z.max 1 ((tot_bytes + INT_MAX - 1) / INT_MAX)
    ∧ ∀ i c, calls !! i = Some c →
        call_offset c = offset + Z.of_nat i * INT_MAX
        ∧ call_source c = data + Z.of_nat i * INT_MAX
        ∧ call_count c = Z.min INT_MAX (tot_bytes - Z.of_nat i * INT_MAX).
Proof.
  intros H. assert (HM : 0 < INT_MAX) by (unfold INT_MAX; lia).
  unfold write_buffer. destruct (Z.ltb_spec tot_bytes INT_MAX) as [Hlt|Hge].
  - eexists. split; [reflexivity|]. split.
    + simpl length. destruct (decide (tot_bytes = 0)) as [->|Hne].
      * rewrite Z.div_small by lia. reflexivity.
      * replace (tot_bytes + INT_MAX - 1) with (tot_bytes - 1 + 1 * INT_MAX) by lia.
        rewrite Z.div_add, Z.div_small by lia. reflexivity.
    + intros i c Hc. destruct i as [|i]; [|discriminate].
      injection Hc as <-. simpl. repeat split; lia.
  - destruct (chunked_write_tiles tot_bytes offset data) as [calls [E T]]; [lia|].
    exists calls. split; [exact E|]. split.
    + rewrite (tiles_length _ _ _ _ _ T), Z.sub_0_r.
      assert (1 ≤ (tot_bytes + INT_MAX - 1) / INT_MAX); [|lia].
      apply Z.div_le_lower_bound; lia.
    + intros i c Hc. destruct (tiles_nth _ _ _ _ _ _ _ T Hc) as (H1 & H2 & H3).
      rewrite H1, H2, H3. repeat split; lia.
Qed.

Lemma write_buffer_calls_witness :
  write_buffer 5000000000 40 0
  = Some [ {| call_offset := 40; call_source := 0; call_count := INT_MAX |};
           {| call_offset := 40 + INT_MAX; call_source := INT_MAX; call_count := INT_MAX |};
           {| call_offset := 40 + 2 * INT_MAX; call_source := 2 * INT_MAX;
              call_count := 5000000000 - 2 * INT_MAX |} ]
  ∧ Z.max 1 ((5000000000 + INT_MAX - 1) / INT_MAX) = 3
  ∧ write_buffer 0 40 0 = Some [ {| call_offset := 40; call_source := 0; call_count := 0 |} ].
Proof.
  destruct (write_buffer_calls 5000000000 40 0) as (calls & E & L & N); [lia|].
  destruct (write_buffer_calls 0 40 0) as (calls0 & E0 & L0 & N0); [lia|].
  split; [reflexivity|]. split; reflexivity.
Defined.

(** ** EdgeIngestor: the shard line by line *)

Lemma lines_of_nonempty s : lines_of s ≠ [].
Proof.
  induction s as [|c s IH]; simpl; [discriminate|].
  destruct (is_newline c); [discriminate|]. destruct (lines_of s); discriminate.
Qed.

Lemma getline_scan_lines s :
  lines_of s
  = if (getline_scan s).2 then [(getline_scan s).1.1]
    else (getline_scan s).1.1 :: lines_of (getline_scan s).1.2.
Proof.
  induction s as [|c s IH]; [reflexivity|]. simpl.
  destruct (is_newline c); [reflexivity|].
  destruct (getline_scan s) as [[l r] e]. simpl in *. rewrite IH.
  destruct e; reflexivity.
Qed.

Lemma lines_of_join s : String.concat newline (lines_of s) = s.
Proof.
  induction s as [|c s IH]; [reflexivity|]. simpl.
  destruct (is_newline c) eqn:Ec.
  - pose proof (lines_of_nonempty s) as Hne.
    destruct (lines_of s) as [|l ls]; [congruence|].
    change (String.concat newline (EmptyString :: l :: ls))
      with (newline +:+ String.concat newline (l :: ls)).
    rewrite IH. unfold newline. simpl. f_equal.
    unfold is_newline in Ec. apply Nat.eqb_eq in Ec.
    rewrite <- (ascii_nat_embedding c), Ec. reflexivity.
  - pose proof (lines_of_nonempty s) as Hne.
    destruct (lines_of s) as [|l ls]; [congruence|].
    destruct ls as [|l' ls'].
    + simpl in *. rewrite IH. reflexivity.
    + change (String.concat newline (String c l :: l' :: ls'))
        with (String c (l +:+ newline +:+ String.concat newline (l' :: ls'))).
      change (String.concat newline (l :: l' :: ls'))
        with (l +:+ newline +:+ String.concat newline (l' :: ls')) in IH.
      rewrite IH. reflexivity.
Qed.

Lemma lines_of_no_newline s : Forall (fun l => has_newline l = false) (lines_of s).
Proof.
  induction s as [|c s IH]; simpl; [repeat constructor|].
  destruct (is_newline c) eqn:Ec; [constructor; [reflexivity | exact IH]|].
  destruct (lines_of s) as [|l ls]; [repeat constructor; simpl; rewrite Ec; reflexivity|].
  inversion IH as [|? ? Hl Hls]; subst. constructor; [|exact Hls].
  simpl. rewrite Ec, Hl. reflexivity.
Qed.

Section ByLines.

Variable indexOneBased : bool.
Variable wtype : Weight_t.
Variables v_lo v_hi : GraphElem.
Variable uninit : nat → locals.

Lemma read_shard_by_lines fuel : ∀ k ifs line el nv,
  eof ifs = false →
  (count_newlines (pending ifs) < fuel)%nat →
  read_shard indexOneBased wtype v_lo v_hi uninit fuel k ifs line el nv
  = Some (el ++ imap (fun j l => line_tuple indexOneBased v_lo v_hi wtype l (uninit (k + j)%nat))
                  (lines_of (pending ifs)),
          max_id nv (imap (fun j l => line_tuple indexOneBased v_lo v_hi wtype l
                                        (uninit (k + j)%nat))
                       (lines_of (pending ifs)))).
Proof.
  induction fuel as [|fuel IH]; intros k ifs line el nv Heof Hfuel; [lia|].
  rewrite read_shard_step by exact Heof. unfold getline. rewrite Heof.
  pose proof (getline_scan_newlines (pending ifs)) as Hn.
  rewrite (getline_scan_lines (pending ifs)).
  destruct (getline_scan (pending ifs)) as [[l r] e]. simpl in Hn.
  cbv zeta. simpl fst. simpl snd.
  destruct e.
  - simpl imap. rewrite Nat.add_0_r.
    destruct fuel; simpl; reflexivity.
  - rewrite IH by (simpl; try reflexivity; lia). simpl pending.
    rewrite imap_cons, Nat.add_0_r. rewrite <- app_assoc. simpl app.
    unfold compose.
    rewrite (imap_ext (fun j l0 => line_tuple indexOneBased v_lo v_hi wtype l0
                                     (uninit (k + S j)%nat))
               (fun j l0 => line_tuple indexOneBased v_lo v_hi wtype l0
                              (uninit (S k + j)%nat)))
      by (intros j x _; f_equal; f_equal; lia).
    reflexivity.
Qed.

End ByLines.

(** X15.  A process with a shard ends Part 1 with one tuple per line of
    the text, in the order of the lines, the lines being the pieces between
    the newline characters (joined by newlines they give the text back, and a
    text ending in a newline has an empty last line); tuple [k] is made from
    line [k] alone and from what the loop variables held, and the local
    maximum is the largest end point of these tuples, or zero. *)
Theorem read_local_by_lines one wtype shardCount uninit sh :
  let v_lo := wrap_s64 ((rowTile sh - 1) * shardCount) in
  let v_hi := wrap_s64 ((colTile sh - 1) * shardCount) in
  let tuples := imap (fun k l => line_tuple one v_lo v_hi wtype l (uninit k))
                  (lines_of (contents sh)) in
  read_local one wtype shardCount uninit (Some sh)
  = Some {| edgeList := tuples; numVertices := max_id 0 tuples |}
  ∧ String.concat newline (lines_of (contents sh)) = contents sh
  ∧ Forall (fun l => has_newline l = false) (lines_of (contents sh)).
Proof.
  intros v_lo v_hi tuples.
  split; [|split; [apply lines_of_join | apply lines_of_no_newline]].
  unfold read_local.
  rewrite (read_shard_by_lines one wtype v_lo v_hi uninit)
    by (simpl; try reflexivity; pose proof (count_newlines_le (contents sh)); lia).
  reflexivity.
Qed.

(** ** EdgeIngestor: a well-formed line *)

Lemma digit_not_space c : IStream.isdigit c = true → IStream.isspace c = false.
Proof.
  unfold IStream.isdigit, IStream.isspace. intros H.
  apply andb_true_iff in H. destruct H as [H1 H2].
  apply Nat.leb_le in H1, H2.
  destruct (Nat.eqb_spec (nat_of_ascii c) 32); [lia|].
  destruct (Nat.leb_spec 9 (nat_of_ascii c)); destruct (Nat.leb_spec (nat_of_ascii c) 13);
    simpl; try reflexivity; lia.
Qed.

Lemma scan_sign_digit c s :
  IStream.isdigit c = true → IStream.scan_sign (String c s) = (false, String c s).
Proof.
  destruct c as [[] [] [] [] [] [] [] []]; intros H; try discriminate H; reflexivity.
Qed.

Lemma scan_digits_number s : ∀ rest acc n,
  all_digits s = true → ends_number rest = true →
  IStream.scan_digits (s +:+ rest) acc n
  = (digits_value s acc, (n + String.length s)%nat, rest).
Proof.
  induction s as [|c s IH]; intros rest acc n Hd He.
  - simpl. rewrite Nat.add_0_r. destruct rest as [|c r]; [reflexivity|].
    simpl in *. apply negb_true_iff in He. rewrite He. reflexivity.
  - simpl in Hd. apply andb_true_iff in Hd. destruct Hd as [Hc Hs].
    simpl. rewrite Hc, IH by assumption. f_equal. f_equal. lia.
Qed.

Lemma digits_value_nonneg s : ∀ acc, all_digits s = true → 0 ≤ acc → 0 ≤ digits_value s acc.
Proof.
  induction s as [|c s IH]; intros acc Hd Hacc; [exact Hacc|].
  simpl in Hd. apply andb_true_iff in Hd. destruct Hd as [Hc Hs].
  simpl. apply IH; [exact Hs|].
  unfold IStream.isdigit in Hc. apply andb_true_iff in Hc. destruct Hc as [H1 _].
  apply Nat.leb_le in H1. unfold IStream.digit_val. lia.
Qed.

Lemma digits_value_app s1 : ∀ s2 acc,
  digits_value (s1 +:+ s2) acc = digits_value s2 (digits_value s1 acc).
Proof. induction s1 as [|c s1 IH]; intros s2 acc; [reflexivity|]. simpl. apply IH. Qed.

Lemma sentry_ready c s :
  IStream.isspace c = false →
  IStream.sentry {| IStream.buf := String c s; IStream.failbit := false;
                    IStream.eofbit := false |}
  = (true, {| IStream.buf := String c s; IStream.failbit := false;
              IStream.eofbit := false |}).
Proof. intros H. unfold IStream.sentry. simpl. rewrite H. reflexivity. Qed.

(** Reading an integer from a good stream that starts with a number. *)
Lemma get_GraphElem_number s rest old :
  is_number s → ends_number rest = true →
  IStream.get_GraphElem {| IStream.buf := s +:+ rest; IStream.failbit := false;
                           IStream.eofbit := false |} old
  = (digits_value s 0,
     {| IStream.buf := rest; IStream.failbit := false;
        IStream.eofbit := IStream.at_end rest |}).
Proof.
  intros (Hd & Hne & Hmax) He.
  destruct s as [|c s]; [congruence|]. pose proof Hd as Hd'.
  simpl in Hd'. apply andb_true_iff in Hd'. destruct Hd' as [Hc Hs].
  unfold IStream.get_GraphElem.
  change (String c s +:+ rest) with (String c (s +:+ rest)).
  rewrite (sentry_ready c _ (digit_not_space c Hc)). cbv beta iota. simpl IStream.buf.
  rewrite (scan_sign_digit c _ Hc).
  change (String c (s +:+ rest)) with (String c s +:+ rest).
  rewrite (scan_digits_number (String c s) rest 0 0 Hd He).
  simpl String.length. simpl Nat.add. cbv beta iota.
  pose proof (digits_value_nonneg (String c s) 0 Hd ltac:(lia)) as Hpos.
  destruct (Z.ltb_spec GraphElem_max (digits_value (String c s) 0)); [lia|].
  destruct (Z.ltb_spec (digits_value (String c s) 0) GraphElem_min);
    [unfold GraphElem_min in *; lia | reflexivity].
Qed.

(** Reading the delimiter. *)
Lemma get_char_delimiter d rest old :
  is_delimiter d →
  IStream.get_char {| IStream.buf := String d rest; IStream.failbit := false;
                      IStream.eofbit := false |} old
  = (d, {| IStream.buf := rest; IStream.failbit := false; IStream.eofbit := false |}).
Proof.
  intros [_ Hs]. unfold IStream.get_char. rewrite (sentry_ready d _ Hs). reflexivity.
Qed.

Lemma ends_number_delimiter d rest : is_delimiter d → ends_number (String d rest) = true.
Proof. intros [Hd _]. simpl. rewrite Hd. reflexivity. Qed.

(** The three leading fields of a well-formed line, whatever follows the
    third number. *)
Lemma extract3_numbers s1 d1 s2 d2 s3 rest l0 :
  is_number s1 → is_delimiter d1 → is_number s2 → is_delimiter d2 → is_number s3 →
  ends_number rest = true →
  extract3 (l0, IStream.of_string (s1 +:+ String d1 (s2 +:+ String d2 (s3 +:+ rest))))
  = ({| v0 := digits_value s1 0; v1 := digits_value s2 0; info := digits_value s3 0;
        w := w l0; ch := d2 |},
     {| IStream.buf := rest; IStream.failbit := false;
        IStream.eofbit := IStream.at_end rest |}).
Proof.
  intros N1 D1 N2 D2 N3 He. unfold extract3, IStream.of_string.
  unfold into_v0 at 1. simpl fst. simpl snd.
  rewrite (get_GraphElem_number s1 _ _ N1 (ends_number_delimiter d1 _ D1)).
  simpl IStream.at_end.
  unfold into_ch at 2. simpl fst. simpl snd. rewrite (get_char_delimiter d1 _ _ D1).
  unfold into_v1. simpl fst. simpl snd.
  rewrite (get_GraphElem_number s2 _ _ N2 (ends_number_delimiter d2 _ D2)).
  simpl IStream.at_end.
  unfold into_ch. simpl fst. simpl snd. rewrite (get_char_delimiter d2 _ _ D2).
  unfold into_info. simpl fst. simpl snd.
  rewrite (get_GraphElem_number s3 _ _ N3 He).
  reflexivity.
Qed.

Lemma scan_digits_all s : ∀ acc n,
  all_digits s = true →
  IStream.scan_digits s acc n = (digits_value s acc, (n + String.length s)%nat, EmptyString).
Proof.
  induction s as [|c s IH]; intros acc n Hd.
  - simpl. rewrite Nat.add_0_r. reflexivity.
  - simpl in Hd. apply andb_true_iff in Hd. destruct Hd as [Hc Hs].
    simpl. rewrite Hc, IH by assumption. f_equal. f_equal. lia.
Qed.

(** Reading a weight written as digits, a point and digits, at the end of
    the line. *)
Lemma get_GraphWeight_decimal s4 s5 old :
  all_digits s4 = true → s4 ≠ EmptyString → all_digits s5 = true →
  IStream.get_GraphWeight {| IStream.buf := s4 +:+ String "." s5; IStream.failbit := false;
                             IStream.eofbit := false |} old
  = IStream.convert_weight false (digits_value (s4 +:+ s5) 0)
      (- Z.of_nat (String.length s5)) EmptyString true.
Proof.
  intros Hd4 Hne Hd5.
  destruct s4 as [|c s4]; [congruence|]. pose proof Hd4 as Hd'.
  simpl in Hd'. apply andb_true_iff in Hd'. destruct Hd' as [Hc Hs].
  unfold IStream.get_GraphWeight.
  change (String c s4 +:+ String "." s5) with (String c (s4 +:+ String "." s5)).
  rewrite (sentry_ready c _ (digit_not_space c Hc)). cbv beta iota. simpl IStream.buf.
  rewrite (scan_sign_digit c _ Hc).
  change (String c (s4 +:+ String "." s5)) with (String c s4 +:+ String "." s5).
  rewrite (scan_digits_number (String c s4) (String "." s5) 0 0 Hd4 eq_refl).
  cbv beta iota. rewrite (scan_digits_all s5 _ 0 Hd5). cbv beta iota.
  simpl String.length. simpl Nat.add. cbv beta iota.
  rewrite digits_value_app. reflexivity.
Qed.

(** The four fields of a well-formed weighted line. *)
Lemma extract4_numbers s1 d1 s2 d2 s3 d3 s4 s5 l0 :
  is_number s1 → is_delimiter d1 → is_number s2 → is_delimiter d2 → is_number s3 →
  is_delimiter d3 → all_digits s4 = true → s4 ≠ EmptyString → all_digits s5 = true →
  extract4 (l0, IStream.of_string
                  (s1 +:+ String d1 (s2 +:+ String d2 (s3 +:+ String d3 (s4 +:+ String "." s5)))))
  = ({| v0 := digits_value s1 0; v1 := digits_value s2 0; info := digits_value s3 0;
        w := (strtod false (digits_value (s4 +:+ s5) 0) (- Z.of_nat (String.length s5))).1;
        ch := d3 |},
     {| IStream.buf := EmptyString;
        IStream.failbit :=
          (strtod false (digits_value (s4 +:+ s5) 0) (- Z.of_nat (String.length s5))).2;
        IStream.eofbit := true |}).
Proof.
  intros N1 D1 N2 D2 N3 D3 H4 Hne H5.
  change (extract4 ?r) with (into_w (into_ch (extract3 r))).
  rewrite (extract3_numbers s1 d1 s2 d2 s3 _ l0 N1 D1 N2 D2 N3 (ends_number_delimiter d3 _ D3)).
  simpl IStream.at_end.
  unfold into_ch. simpl fst. simpl snd. rewrite (get_char_delimiter d3 _ _ D3).
  unfold into_w. simpl fst. simpl snd. rewrite (get_GraphWeight_decimal s4 s5 _ H4 Hne H5).
  unfold IStream.convert_weight. destruct (strtod _ _ _) as [x over]. reflexivity.
Qed.

(** The double stored for digits without a sign is its own magnitude. *)
Lemma fabs_strtod m e : fabs (strtod false m e).1 = (strtod false m e).1.
Proof.
  unfold strtod. destruct (m =? 0); [reflexivity|].
  destruct (nearest_binary64 m e) as [r p].
  destruct ((0 <=? p) && (2 ^ 1024 <=? r * 2 ^ p)); [reflexivity|].
  destruct (decimal_of_binary r p). reflexivity.
Qed.

Lemma append_empty s : s +:+ EmptyString = s.
Proof.
  induction s as [|c s IH]; [reflexivity|].
  change (String c s +:+ EmptyString) with (String c (s +:+ EmptyString)).
  rewrite IH. reflexivity.
Qed.

(** X16.  A well-formed line (three numbers separated by delimiters, and
    for the weighted modes a fourth field written as digits, a point and
    digits, ending the line) gives the tuple of its numbers: the end points
    are the first two numbers, decremented under 1-based indexing, plus the
    shard offsets, added in 64-bit arithmetic; in raw and absolute mode the
    weight is the double nearest to the decimal written, the largest double
    if the decimal is beyond the doubles; nothing of what the loop variables
    held before remains, except the weight in unweighted mode. *)
Theorem well_formed_line_tuple (one : bool) v_lo v_hi s1 d1 s2 d2 s3 d3 s4 s5 l0 :
  is_number s1 → is_delimiter d1 → is_number s2 → is_delimiter d2 → is_number s3 →
  is_delimiter d3 → all_digits s4 = true → s4 ≠ EmptyString → all_digits s5 = true →
  let a := wrap_s64 ((if one then digits_value s1 0 - 1 else digits_value s1 0) + v_lo) in
  let b := wrap_s64 ((if one then digits_value s2 0 - 1 else digits_value s2 0) + v_hi) in
  let weight :=
    (strtod false (digits_value (s4 +:+ s5) 0) (- Z.of_nat (String.length s5))).1 in
  let weighted := s1 +:+ String d1 (s2 +:+ String d2 (s3 +:+ String d3 (s4 +:+ String "." s5))) in
  line_tuple one v_lo v_hi OTHER_WEIGHT (s1 +:+ String d1 (s2 +:+ String d2 s3)) l0
  = {| i_ := a; j_ := b; w_ := w l0 |}
  ∧ line_tuple one v_lo v_hi ORG_WEIGHT weighted l0 = {| i_ := a; j_ := b; w_ := weight |}
  ∧ line_tuple one v_lo v_hi ABS_WEIGHT weighted l0 = {| i_ := a; j_ := b; w_ := weight |}
  ∧ (GraphElem_min ≤ (if one then digits_value s1 0 - 1 else digits_value s1 0) + v_lo
       ≤ GraphElem_max →
     a = (if one then digits_value s1 0 - 1 else digits_value s1 0) + v_lo)
  ∧ (GraphElem_min ≤ (if one then digits_value s2 0 - 1 else digits_value s2 0) + v_hi
       ≤ GraphElem_max →
     b = (if one then digits_value s2 0 - 1 else digits_value s2 0) + v_hi).
Proof.
  intros N1 D1 N2 D2 N3 D3 H4 Hne H5 a b weight weighted.
  pose proof (extract4_numbers s1 d1 s2 d2 s3 d3 s4 s5 l0 N1 D1 N2 D2 N3 D3 H4 Hne H5) as E4.
  fold weighted in E4. fold weight in E4.
  assert (Hdec : ∀ s, is_number s → wrap_s64 (digits_value s 0 - 1) = digits_value s 0 - 1).
  { intros s (Hd & _ & Hle). apply wrap_s64_small.
    pose proof (digits_value_nonneg s 0 Hd ltac:(lia)).
    unfold GraphElem_min, GraphElem_max in *. lia. }
  assert (Htuple : ∀ x,
            {| i_ := wrap_s64 ((if one then wrap_s64 (digits_value s1 0 - 1)
                                else digits_value s1 0) + v_lo);
               j_ := wrap_s64 ((if one then wrap_s64 (digits_value s2 0 - 1)
                                else digits_value s2 0) + v_hi);
               w_ := x |}
            = {| i_ := a; j_ := b; w_ := x |}).
  { intros x. unfold a, b.
    destruct one; [rewrite (Hdec s1 N1), (Hdec s2 N2)|]; reflexivity. }
  split; [|split; [|split; [|split]]].
  - unfold line_tuple, parse_line, read_fields.
    replace (s1 +:+ String d1 (s2 +:+ String d2 s3))
      with (s1 +:+ String d1 (s2 +:+ String d2 (s3 +:+ EmptyString))).
    + rewrite (extract3_numbers s1 d1 s2 d2 s3 EmptyString l0 N1 D1 N2 D2 N3 eq_refl).
      apply Htuple.
    + rewrite append_empty. reflexivity.
  - unfold line_tuple.
    rewrite raw_mode_line_consumed
      by (rewrite E4; unfold IStream.good; cbn [snd IStream.failbit IStream.eofbit];
          apply andb_false_r).
    rewrite E4. apply Htuple.
  - unfold line_tuple, parse_line, read_fields. rewrite E4.
    cbn [fst snd set_w v0 v1 w]. unfold weight at 1. rewrite fabs_strtod. fold weight.
    apply Htuple.
  - intros Hfit. apply wrap_s64_small, Hfit.
  - intros Hfit. apply wrap_s64_small, Hfit.
Qed.

Lemma well_formed_line_tuple_witness :
  line_tuple true 4 8 OTHER_WEIGHT "12,7,3" (sample_locals {| negative := false; mant := 9; expo := 0 |})
  = {| i_ := 15; j_ := 14; w_ := {| negative := false; mant := 9; expo := 0 |} |}
  ∧ line_tuple true 4 8 ORG_WEIGHT "12,7,3,0.25" (sample_locals {| negative := false; mant := 9; expo := 0 |})
    = {| i_ := 15; j_ := 14; w_ := {| negative := false; mant := 25; expo := -2 |} |}
  ∧ line_tuple false 4 8 OTHER_WEIGHT "9223372036854775807,7,3" (sample_locals weight_zero)
    = {| i_ := -9223372036854775805; j_ := 15; w_ := weight_zero |}.
Proof.
  assert (Hnum : ∀ s v, all_digits s = true → s ≠ EmptyString → digits_value s 0 = v →
                        v ≤ 1000 → is_number s).
  { intros s v H1 H2 H3 H4. split; [exact H1|]. split; [exact H2|].
    rewrite H3. unfold GraphElem_max. lia. }
  assert (N1 : is_number "12") by (apply (Hnum "12"%string 12); [reflexivity | discriminate | reflexivity | lia]).
  assert (N2 : is_number "7") by (apply (Hnum "7"%string 7); [reflexivity | discriminate | reflexivity | lia]).
  assert (N3 : is_number "3") by (apply (Hnum "3"%string 3); [reflexivity | discriminate | reflexivity | lia]).
  assert (Hcomma : is_delimiter ","%char) by (split; reflexivity).
  assert (H4 : all_digits "0" = true) by reflexivity.
  assert (Hne : "0"%string ≠ EmptyString) by discriminate.
  assert (H5 : all_digits "25" = true) by reflexivity.
  destruct (well_formed_line_tuple true 4 8 "12" ","%char "7" ","%char "3" ","%char "0" "25"
              (sample_locals {| negative := false; mant := 9; expo := 0 |})
              N1 Hcomma N2 Hcomma N3 Hcomma H4 Hne H5) as (H1 & H2 & _).
  assert (Nmax : is_number "9223372036854775807").
  { split; [reflexivity|]. split; [discriminate|]. vm_compute. discriminate. }
  destruct (well_formed_line_tuple false 4 8 "9223372036854775807" ","%char "7" ","%char
              "3" ","%char "0" "0" (sample_locals weight_zero)
              Nmax Hcomma N2 Hcomma N3 Hcomma H4 Hne H4) as (H3 & _).
  split; [exact H1|]. split; [exact H2 | exact H3].
Defined.

(** A weight beyond the range of the doubles: the largest double is stored
    and [failbit] is set. *)
Lemma weight_out_of_range_sample :
  line_tuple false 0 0 ORG_WEIGHT "1,2,3,1.0e309" (sample_locals weight_zero)
  = {| i_ := 1; j_ := 2; w_ := {| negative := false; mant := DBL_MAX_mant; expo := 0 |} |}
  ∧ IStream.failbit (extract4 (sample_locals weight_zero,
                               IStream.of_string "1,2,3,-1.0e309")).2 = true
  ∧ w (extract4 (sample_locals weight_zero, IStream.of_string "1,2,3,-1.0e309")).1
    = {| negative := true; mant := DBL_MAX_mant; expo := 0 |}.
Proof. repeat split; vm_compute; reflexivity. Qed.

(** ** Shard file names *)

Lemma append_assoc_str (a b c : string) : (a +:+ b) +:+ c = a +:+ (b +:+ c).
Proof.
  induction a as [|x a IH]; [reflexivity|].
  change ((String x a +:+ b) +:+ c) with (String x ((a +:+ b) +:+ c)).
  rewrite IH. reflexivity.
Qed.

Lemma length_append_str (a b : string) :
  String.length (a +:+ b) = (String.length a + String.length b)%nat.
Proof.
  induction a as [|x a IH]; [reflexivity|].
  change (String x a +:+ b) with (String x (a +:+ b)). simpl. rewrite IH. reflexivity.
Qed.

Lemma sdrop_append (a b : string) : sdrop (String.length a) (a +:+ b) = b.
Proof.
  induction a as [|x a IH]; [destruct b; reflexivity|].
  change (String x a +:+ b) with (String x (a +:+ b)). simpl. exact IH.
Qed.

Lemma stake_append (a b : string) : stake (String.length a) (a +:+ b) = a.
Proof.
  induction a as [|x a IH]; [destruct b; reflexivity|].
  change (String x a +:+ b) with (String x (a +:+ b)). simpl. rewrite IH. reflexivity.
Qed.

Lemma stake_all (s : string) : stake (String.length s) s = s.
Proof. rewrite <- (append_empty s) at 2. rewrite stake_append. reflexivity. Qed.

Lemma lacks_append c (a b : string) : lacks c (a +:+ b) = lacks c a && lacks c b.
Proof.
  induction a as [|x a IH]; [reflexivity|].
  change (String x a +:+ b) with (String x (a +:+ b)). simpl. rewrite IH.
  rewrite andb_assoc. reflexivity.
Qed.

Lemma find_last_from_lacks c s : ∀ pos last,
  lacks c s = true → find_last_from c s pos last = last.
Proof.
  induction s as [|x s IH]; intros pos last H; [reflexivity|].
  simpl in H. apply andb_true_iff in H. destruct H as [Hx Hs].
  apply negb_true_iff in Hx. simpl. rewrite Hx. apply IH, Hs.
Qed.

Lemma find_last_from_append c (a b : string) : ∀ pos last,
  find_last_from c (a +:+ b) pos last
  = find_last_from c b (pos + Z.of_nat (String.length a)) (find_last_from c a pos last).
Proof.
  induction a as [|x a IH]; intros pos last.
  - simpl. rewrite Z.add_0_r. reflexivity.
  - change (String x a +:+ b) with (String x (a +:+ b)). simpl find_last_from.
    rewrite IH. f_equal. simpl String.length. lia.
Qed.

(** The last slash of a path followed by a slash and a name without one. *)
Lemma find_last_of_slash (path rest : string) :
  lacks "/" rest = true →
  find_last_of (path +:+ String "/" rest) "/" = Z.of_nat (String.length path).
Proof.
  intros H. unfold find_last_of. rewrite find_last_from_append. simpl.
  rewrite find_last_from_lacks by exact H. lia.
Qed.

Lemma prefix_append (pat b : string) : String.prefix pat (pat +:+ b) = true.
Proof.
  induction pat as [|x pat IH]; [destruct b; reflexivity|].
  change (String x pat +:+ b) with (String x (pat +:+ b)). simpl.
  destruct (ascii_dec x x); [exact IH | congruence].
Qed.

(** The first occurrence of a pattern behind a text that lacks the first
    character of the pattern. *)
Lemma find_from_behind p0 pat' (a b : string) : ∀ pos,
  lacks p0 a = true →
  find_from (String p0 pat') (a +:+ (String p0 pat' +:+ b)) pos
  = pos + Z.of_nat (String.length a).
Proof.
  induction a as [|x a IH]; intros pos H.
  - change (EmptyString +:+ (String p0 pat' +:+ b)) with (String p0 pat' +:+ b).
    unfold find_from. destruct (String p0 pat' +:+ b) eqn:E.
    + discriminate E.
    + rewrite <- E, prefix_append. simpl. lia.
  - simpl in H. apply andb_true_iff in H. destruct H as [Hx Ha].
    apply negb_true_iff in Hx.
    change (String x a +:+ (String p0 pat' +:+ b))
      with (String x (a +:+ (String p0 pat' +:+ b))).
    simpl find_from.
    destruct (ascii_dec p0 x) as [->|Hne].
    + rewrite Ascii.eqb_refl in Hx. discriminate.
    + rewrite IH by exact Ha. simpl String.length. lia.
Qed.

Lemma digit_char_digit d :
  0 ≤ d < 10 →
  IStream.isdigit (digit_char d) = true ∧ IStream.digit_val (digit_char d) = d.
Proof.
  intros H.
  assert (d = 0 ∨ d = 1 ∨ d = 2 ∨ d = 3 ∨ d = 4 ∨ d = 5 ∨ d = 6 ∨ d = 7 ∨ d = 8 ∨ d = 9)
    as Hd by lia.
  repeat (destruct Hd as [->|Hd]; [split; reflexivity|]). subst d. split; reflexivity.
Qed.

Lemma all_digits_app (a b : string) :
  all_digits (a +:+ b) = all_digits a && all_digits b.
Proof.
  induction a as [|x a IH]; [reflexivity|].
  change (String x a +:+ b) with (String x (a +:+ b)). simpl. rewrite IH.
  rewrite andb_assoc. reflexivity.
Qed.

Lemma all_digits_lacks c (d : string) :
  IStream.isdigit c = false → all_digits d = true → lacks c d = true.
Proof.
  intros Hc. induction d as [|x d IH]; intros H; [reflexivity|].
  simpl in H. apply andb_true_iff in H. destruct H as [Hx Hd].
  simpl. rewrite IH by exact Hd. rewrite andb_true_r. apply negb_true_iff.
  destruct (Ascii.eqb_spec x c) as [->|]; [congruence | reflexivity].
Qed.

(** The digits written for [n] read back as [n]. *)
Lemma digits_of_spec fuel : ∀ n acc,
  0 ≤ n < 2 ^ Z.of_nat (S fuel) →
  ∃ d, digits_of (S fuel) n acc = d +:+ acc ∧ all_digits d = true ∧ d ≠ EmptyString
       ∧ digits_value d 0 = n ∧ (String.length d ≤ S fuel)%nat.
Proof.
  assert (Hone : ∀ n acc, 0 ≤ n < 10 →
    ∃ d, String (digit_char n) acc = d +:+ acc ∧ all_digits d = true ∧ d ≠ EmptyString
         ∧ digits_value d 0 = n ∧ (String.length d ≤ 1)%nat).
  { intros n acc Hn. destruct (digit_char_digit n Hn) as [D1 D2].
    exists (String (digit_char n) EmptyString). split; [reflexivity|].
    split; [simpl; rewrite D1; reflexivity|]. split; [discriminate|].
    split; [simpl; exact D2 | simpl; lia]. }
  induction fuel as [|fuel IH]; intros n acc Hn.
  - cbn [digits_of]. change (2 ^ Z.of_nat 1) with 2 in Hn.
    destruct (Z.ltb_spec n 10); [|lia]. apply Hone. lia.
  - change (digits_of (S (S fuel)) n acc)
      with (if n <? 10 then String (digit_char n) acc
            else digits_of (S fuel) (n / 10) (String (digit_char (n mod 10)) acc)).
    destruct (Z.ltb_spec n 10) as [Hlt|Hge].
    + destruct (Hone n acc ltac:(lia)) as (d & E & A & N & V & L).
      exists d. repeat split; try assumption. lia.
    + assert (Hq : 0 ≤ n / 10 < 2 ^ Z.of_nat (S fuel)).
      { split; [apply Z.div_pos; lia|]. apply Z.div_lt_upper_bound; [lia|].
        replace (Z.of_nat (S (S fuel))) with (Z.succ (Z.of_nat (S fuel))) in Hn by lia.
        rewrite Z.pow_succ_r in Hn by lia. lia. }
      destruct (IH (n / 10) (String (digit_char (n mod 10)) acc) Hq)
        as (d & E & A & N & V & L).
      assert (Hm : 0 ≤ n mod 10 < 10) by (apply Z.mod_pos_bound; lia).
      destruct (digit_char_digit _ Hm) as [D1 D2].
      exists (d +:+ String (digit_char (n mod 10)) EmptyString).
      split; [rewrite E, append_assoc_str; reflexivity|].
      split; [rewrite all_digits_app, A; simpl; rewrite D1; reflexivity|].
      split; [destruct d; [congruence | discriminate]|].
      split.
      * rewrite digits_value_app, V. simpl. rewrite D2.
        pose proof (Z.div_mod n 10 ltac:(lia)). lia.
      * rewrite length_append_str. simpl. lia.
Qed.

Lemma digits_of_number n :
  0 ≤ n →
  ∃ d, digits_of (S (Z.to_nat (Z.log2 n))) n EmptyString = d ∧ all_digits d = true
       ∧ d ≠ EmptyString ∧ digits_value d 0 = n
       ∧ (String.length d ≤ S (Z.to_nat (Z.log2 n)))%nat.
Proof.
  intros Hn.
  assert (Hb : 0 ≤ n < 2 ^ Z.of_nat (S (Z.to_nat (Z.log2 n)))).
  { split; [exact Hn|]. pose proof (Z.log2_nonneg n).
    replace (Z.of_nat (S (Z.to_nat (Z.log2 n)))) with (Z.succ (Z.log2 n)) by lia.
    destruct (Z.eq_dec n 0) as [->|Hne]; [reflexivity|].
    apply Z.log2_spec. lia. }
  destruct (digits_of_spec _ n EmptyString Hb) as (d & E & A & N & V & L).
  exists d. rewrite E, append_empty. repeat split; assumption.
Qed.

Lemma stoi_digits (d : string) :
  all_digits d = true → d ≠ EmptyString →
  stoi d = (if fits_int (digits_value d 0) then Some (digits_value d 0) else None)
  ∧ stoi (String "-" d)
    = (if fits_int (- digits_value d 0) then Some (- digits_value d 0) else None).
Proof.
  intros A N. destruct d as [|c d]; [congruence|].
  pose proof A as A'. simpl in A'. apply andb_true_iff in A'. destruct A' as [Hc _].
  split.
  - unfold stoi. cbn [IStream.skipws]. rewrite (digit_not_space c Hc).
    rewrite (scan_sign_digit c d Hc), (scan_digits_all _ 0 0%nat A).
    reflexivity.
  - unfold stoi. change (IStream.skipws (String "-" (String c d))) with (String "-" (String c d)).
    cbn [IStream.scan_sign]. rewrite (scan_digits_all _ 0 0%nat A). reflexivity.
Qed.

(** What the rest of the round trip uses of a printed 64-bit integer. *)
Lemma to_string_facts z :
  GraphElem_min ≤ z ≤ GraphElem_max →
  lacks "/" (to_string z) = true ∧ lacks "." (to_string z) = true
  ∧ lacks "_" (to_string z) = true ∧ (String.length (to_string z) ≤ 65)%nat
  ∧ stoi (to_string z) = (if fits_int z then Some z else None).
Proof.
  intros Hz. unfold GraphElem_min, GraphElem_max in Hz.
  assert (Hlog : ∀ n, 0 ≤ n ≤ 2 ^ 63 → (S (Z.to_nat (Z.log2 n)) ≤ 64)%nat).
  { intros n Hn. pose proof (Z.log2_le_mono n (2 ^ 63) ltac:(lia)) as Hm.
    rewrite Z.log2_pow2 in Hm by lia. pose proof (Z.log2_nonneg n). lia. }
  unfold to_string. destruct (Z.ltb_spec z 0) as [Hneg|Hpos].
  - destruct (digits_of_number (- z) ltac:(lia)) as (d & E & A & N & V & L).
    rewrite E. pose proof (Hlog (- z) ltac:(lia)).
    cbn [lacks]. rewrite !all_digits_lacks by (exact A || reflexivity).
    repeat split; [simpl; lia|].
    destruct (stoi_digits d A N) as [_ ->]. rewrite V, Z.opp_involutive. reflexivity.
  - destruct (digits_of_number z Hpos) as (d & E & A & N & V & L).
    rewrite E. pose proof (Hlog z ltac:(lia)).
    rewrite !all_digits_lacks by (exact A || reflexivity).
    repeat split; [lia|].
    destruct (stoi_digits d A N) as [-> _]. rewrite V. reflexivity.
Qed.

Lemma substr_behind (a b : string) :
  Z.of_nat (String.length b) ≤ npos →
  substr (a +:+ b) (Z.of_nat (String.length a)) npos = Some b.
Proof.
  intros Hb. unfold substr. rewrite length_append_str.
  destruct (Z.ltb_spec (Z.of_nat (String.length a + String.length b))
              (Z.of_nat (String.length a))); [lia|].
  replace (Z.min npos _) with (Z.of_nat (String.length b)) by lia.
  rewrite !Nat2Z.id, sdrop_append, stake_all. reflexivity.
Qed.

Lemma substr_front (a b : string) :
  substr (a +:+ b) 0 (Z.of_nat (String.length a)) = Some a.
Proof.
  unfold substr. rewrite length_append_str.
  destruct (Z.ltb_spec (Z.of_nat (String.length a + String.length b)) 0); [lia|].
  replace (Z.min _ _) with (Z.of_nat (String.length a)) by lia.
  rewrite Nat2Z.id. change (Z.to_nat 0) with 0%nat.
  replace (sdrop 0 (a +:+ b)) with (a +:+ b) by (destruct (a +:+ b); reflexivity).
  rewrite stake_append. reflexivity.
Qed.

(** X17.  The name under which a shard is looked for, [<path>/<ci>__<cj>.csv]
    with the two indices printed by [std::to_string], is taken apart again
    into the same two indices, whatever the directory path is (slashes and
    points in it included), provided both indices fit [int]; an index that
    does not fit makes [std::stoi] throw. *)
Theorem shard_name_round_trip (path : string) (ci cj : GraphElem) :
  Z.of_nat (String.length path) < 2 ^ 63 →
  GraphElem_min ≤ ci ≤ GraphElem_max →
  GraphElem_min ≤ cj ≤ GraphElem_max →
  tiles_of_name (shard_file_name path ci cj)
  = if fits_int ci && fits_int cj then Some (ci, cj) else None.
Proof.
  intros Hpath Hci Hcj.
  destruct (to_string_facts ci Hci) as (L1 & L2 & L3 & L4 & L5).
  destruct (to_string_facts cj Hcj) as (R1 & R2 & R3 & R4 & R5).
  unfold shard_file_name.
  set (L := to_string ci) in *. set (R := to_string cj) in *.
  set (noext := L +:+ ("__" +:+ R)).
  set (rest := L +:+ ("__" +:+ (R +:+ ".csv"))).
  assert (Erest : rest = noext +:+ ".csv").
  { unfold rest, noext. rewrite append_assoc_str. reflexivity. }
  assert (Hnoext : String.length noext = (String.length L + 2 + String.length R)%nat).
  { unfold noext. rewrite length_append_str.
    change ("__" +:+ R) with (String "_" (String "_" R)). simpl. lia. }
  assert (Hrest : String.length rest = (String.length noext + 4)%nat).
  { rewrite Erest, length_append_str. reflexivity. }
  assert (Hslash : lacks "/" rest = true).
  { unfold rest. rewrite lacks_append, L1.
    change ("__" +:+ (R +:+ ".csv")) with (String "_" (String "_" (R +:+ ".csv"))).
    cbn [lacks]. rewrite lacks_append, R1. reflexivity. }
  assert (Hpoint : lacks "." noext = true).
  { unfold noext. rewrite lacks_append, L2.
    change ("__" +:+ R) with (String "_" (String "_" R)).
    cbn [lacks]. rewrite R2. reflexivity. }
  change (path +:+ "/" +:+ rest) with (path +:+ String "/" rest).
  unfold tiles_of_name.
  rewrite (find_last_of_slash path rest Hslash).
  assert (W1 : wrap_u64 (Z.of_nat (String.length path) + 1)
               = Z.of_nat (String.length path) + 1).
  { unfold wrap_u64. apply Z.mod_small. lia. }
  rewrite W1.
  assert (Ename : path +:+ String "/" rest = (path +:+ "/") +:+ rest).
  { rewrite append_assoc_str. reflexivity. }
  assert (Epos : Z.of_nat (String.length path) + 1
                 = Z.of_nat (String.length (path +:+ "/"))).
  { rewrite length_append_str. simpl. lia. }
  rewrite Ename, Epos, substr_behind by (unfold npos; lia).
  cbn [mbind option_bind].
  assert (Fpoint : find rest "." = Z.of_nat (String.length noext)).
  { unfold find. rewrite Erest.
    change (".csv" : string) with ("." +:+ "csv").
    rewrite (find_from_behind "." EmptyString noext "csv" 0 Hpoint). lia. }
  assert (Fund : find rest "__" = Z.of_nat (String.length L)).
  { unfold find, rest.
    change ("__" +:+ (R +:+ ".csv")) with (String "_" "_" +:+ (R +:+ ".csv")).
    rewrite (find_from_behind "_" "_" L (R +:+ ".csv") 0 L3). lia. }
  rewrite Fpoint, Fund.
  rewrite Erest at 1. rewrite substr_front. cbn [mbind option_bind].
  assert (W2 : wrap_u64 (Z.of_nat (String.length L) + 2)
               = Z.of_nat (String.length L) + 2).
  { unfold wrap_u64. apply Z.mod_small. lia. }
  rewrite W2.
  assert (Enoext : noext = (L +:+ "__") +:+ R).
  { unfold noext. rewrite append_assoc_str. reflexivity. }
  assert (Epos2 : Z.of_nat (String.length L) + 2 = Z.of_nat (String.length (L +:+ "__"))).
  { rewrite length_append_str. simpl. lia. }
  rewrite Enoext at 1. rewrite Epos2, substr_behind by (unfold npos; lia).
  cbn [mbind option_bind].
  unfold noext. rewrite substr_front. cbn [mbind option_bind].
  rewrite L5, R5.
  destruct (fits_int ci); [|reflexivity].
  destruct (fits_int cj); reflexivity.
Qed.

Lemma shard_name_round_trip_witness :
  tiles_of_name (shard_file_name "/data/run.1/x__y" 12 7)
  = if fits_int 12 && fits_int 7 then Some (12, 7) else None.
Proof.
  apply (shard_name_round_trip "/data/run.1/x__y" 12 7).
  - vm_compute. reflexivity.
  - unfold GraphElem_min, GraphElem_max. lia.
  - unfold GraphElem_min, GraphElem_max. lia.
Defined.

(** ** Completion of 0-based runs *)



(** A vertex id for which [edgeCount] cannot be built: the run of one
    process on the record [0,4611686018427387904] ends with
    [std::length_error] and has no outcome. *)
Lemma vertex_count_beyond_max_size :
  loadParallelFileShards merge_sort_edges sample_default false 1
    (single_shard "0,4611686018427387904,1,1.0") 1 1 ORG_WEIGHT 4
    (fun _ _ => sample_locals weight_zero) = None.
Proof. vm_compute. reflexivity. Qed.
